(** * Constraint generation of the pointer analysis (package [pointer])

    A shallow embedding of the node universe, the constraint constructors
    and the constraint generator of [gen.go], together with the two
    reflection intrinsics [reflect.TypeOf] and [reflect.Zero] of
    [reflect.go], and the properties that the specification states
    about them.

    Conventions.
    - The generator mutates one analysis object; here every operation is a
      computation in a state-and-panic monad [M] over the record
      [analysis].
    - A Go [panic] is the result [Panic msg]; running off a slice or
      dereferencing [nil] is a panic as well.
    - [uint32] quantities (sizes, field offsets and node ids) are
      numbers in [N].  Sizes and offsets are reduced by [wrap32] where
      the code does arithmetic on them, and so are the node ids that
      [copy], [load] and [store] step through and the sum [obj+offset]
      of genLoad and genStore, which take arbitrary operands.  The
      other node ids are positions in the node table (the next node, a
      node of the object just made) and are written with [+]: they are
      the code's own as long as the table has fewer than 2^32 nodes.
    - Go maps keyed by a pointer (an [ssa.Value], a call's [CallCommon]) are
      finite maps keyed by the identity [id] that every value carries. *)

From Stdlib Require Import NArith Lia List.
From stdpp Require Import base option list gmap strings pretty.

Local Open Scope N_scope.
Set Warnings "-register-all,-clear-no-such-hyp".

(** ** Types of the analysed language (package [go/types]) *)

Module types.

Inductive BasicKind : Type :=
| Invalid | Bool | Int | Uintptr | Float32 | Float64
| Complex64 | Complex128 | String | UnsafePointer
| UntypedString | UntypedNil.

Inductive type : Type :=
| Basic (k : BasicKind)
| Pointer (elem : type)
| Slice (elem : type)
| Array (elem : type) (len : N)
| Struct (fields : list type)
| Tuple (vars : list type)
| SignatureT (recv : option type) (params results : list type)
             (variadic : bool)
| Interface (methods : list string)
| Map (key elem : type)
| Chan (elem : type)
| Named (name : string) (underlying : type).

(** A signature, the view of a [SignatureT] type. *)
Record Signature : Type := mkSignature {
  Recv : option type;
  Params : list type;
  Results : list type;
  IsVariadic : bool
}.

Definition sigType (s : Signature) : type :=
  SignatureT (Recv s) (Params s) (Results s) (IsVariadic s).

(** The type assertion of [t] to a signature. *)
Definition asSignature (t : type) : option Signature :=
  match t with
  | SignatureT r p q v => Some (mkSignature r p q v)
  | _ => None
  end.

Fixpoint Underlying (t : type) : type :=
  match t with
  | Named _ u => Underlying u
  | _ => t
  end.

(** [Info()&IsString != 0] on a basic type. *)
Definition isString (k : BasicKind) : bool :=
  match k with
  | String | UntypedString => true
  | _ => false
  end.

Definition BasicKind_eq_dec (a b : BasicKind) : {a = b} + {a <> b}.
Proof. decide equality. Defined.

Fixpoint type_eq_dec (a b : type) {struct a} : {a = b} + {a <> b}.
Proof.
  decide equality;
    try apply N.eq_dec;
    try apply BasicKind_eq_dec;
    try apply Bool.bool_dec;
    try (apply List.list_eq_dec; first [ apply type_eq_dec | apply String.string_dec ]);
    try apply String.string_dec.
  decide equality.
Defined.

End types.

#[export] Instance type_eq_decision : EqDecision types.type := types.type_eq_dec.

(** ** The SSA program (package [ssa])

    Only what the generator inspects is kept.  Every value carries the
    identity [id] that stands for its address, and its type. *)

Module ssa.

Record Package : Type := mkPackage {
  Path : string;                (* Pkg.Object.Path() *)
  FuncInit : option N           (* identity of Pkg.Func("init"), if any *)
}.

Inductive Value : Type :=
| VFunction (fn : Function)
| Builtin (id : N) (typ : types.type) (name : string)
| Global (id : N) (typ : types.type)
| Const (id : N) (typ : types.type) (isNil : bool)
| Capture (id : N) (typ : types.type)
| FuncParam (id : N) (typ : types.type)
| Alloc (id : N) (typ : types.type)
| MakeSlice (id : N) (typ : types.type)
| MakeChan (id : N) (typ : types.type)
| MakeMap (id : N) (typ : types.type)
| MakeClosure (id : N) (typ : types.type) (Fn : Function)
| MakeInterface (id : N) (typ : types.type) (X : Value)
| FieldAddr (id : N) (typ : types.type) (X : Value) (Field : N)
| IndexAddr (id : N) (typ : types.type) (X : Value)
| Slice (id : N) (typ : types.type) (X : Value)
| VConvert (c : Convert)
| VCall (c : Call)
| OtherValue (id : N) (typ : types.type)
with Convert : Type :=
| mkConvert (id : N) (typ : types.type) (X : Value) (Parent : Function)
            (Pos : N)
with CallCommon : Type :=
| mkCallCommon (id : N) (callee : Value) (Args : list Value)
               (sig : types.Signature)
with Call : Type :=
| mkCall (id : N) (typ : types.type) (common : CallCommon)
with CallInstruction : Type :=
| ICall (c : Call)
| IGo (common : CallCommon)
| IDefer (common : CallCommon)
with Instruction : Type :=
| InstrCall (c : CallInstruction)
| InstrValue (v : Value)
| InstrOther
with BasicBlock : Type :=
| mkBasicBlock (Instrs : list Instruction)
with Function : Type :=
| mkFunction (id : N) (name : string) (Signature : types.Signature)
             (Synthetic : string) (Pkg : option Package)
             (Blocks : list BasicBlock).

Definition fn_id (f : Function) : N := let (i, _, _, _, _, _) := f in i.
Definition Signature (f : Function) : types.Signature :=
  let (_, _, s, _, _, _) := f in s.
Definition Synthetic (f : Function) : string :=
  let (_, _, _, s, _, _) := f in s.
Definition Pkg (f : Function) : option Package :=
  let (_, _, _, _, p, _) := f in p.
Definition Blocks (f : Function) : list BasicBlock :=
  let (_, _, _, _, _, b) := f in b.
Definition Instrs (b : BasicBlock) : list Instruction := let (l) := b in l.

Definition cc_id (c : CallCommon) : N := let (i, _, _, _) := c in i.
Definition cc_Value (c : CallCommon) : Value := let (_, v, _, _) := c in v.
Definition Args (c : CallCommon) : list Value := let (_, _, a, _) := c in a.
(** [call.Signature()]: the signature of the function being called. *)
Definition cc_Signature (c : CallCommon) : types.Signature :=
  let (_, _, _, s) := c in s.

Definition call_id (c : Call) : N := let (i, _, _) := c in i.
Definition call_typ (c : Call) : types.type := let (_, t, _) := c in t.
Definition call_Call (c : Call) : CallCommon := let (_, _, k) := c in k.

Definition conv_id (c : Convert) : N := let (i, _, _, _, _) := c in i.
Definition conv_typ (c : Convert) : types.type :=
  let (_, t, _, _, _) := c in t.
Definition conv_X (c : Convert) : Value := let (_, _, x, _, _) := c in x.
Definition conv_Parent (c : Convert) : Function :=
  let (_, _, _, p, _) := c in p.
Definition conv_Pos (c : Convert) : N := let (_, _, _, _, p) := c in p.

(** The identity of a value: what a Go map keyed by [ssa.Value] hashes. *)
Definition vid (v : Value) : N :=
  match v with
  | VFunction fn => fn_id fn
  | Builtin i _ _ | Global i _ | Const i _ _ | Capture i _
  | FuncParam i _ | Alloc i _ | MakeSlice i _ | MakeChan i _
  | MakeMap i _ | MakeClosure i _ _ | MakeInterface i _ _
  | FieldAddr i _ _ _ | IndexAddr i _ _ | Slice i _ _
  | OtherValue i _ => i
  | VConvert c => conv_id c
  | VCall c => call_id c
  end.

(** [v.Type()]. *)
Definition Type_ (v : Value) : types.type :=
  match v with
  | VFunction fn => types.sigType (Signature fn)
  | Builtin _ t _ | Global _ t | Const _ t _ | Capture _ t
  | FuncParam _ t | Alloc _ t | MakeSlice _ t | MakeChan _ t
  | MakeMap _ t | MakeClosure _ t _ | MakeInterface _ t _
  | FieldAddr _ t _ _ | IndexAddr _ t _ | Slice _ t _
  | OtherValue _ t => t
  | VConvert c => conv_typ c
  | VCall c => call_typ c
  end.

(** [instr.Common()] and [instr.Value()] of a call instruction. *)
Definition Common (i : CallInstruction) : CallCommon :=
  match i with
  | ICall c => call_Call c
  | IGo c | IDefer c => c
  end.

Definition InstrValue_ (i : CallInstruction) : option Value :=
  match i with
  | ICall c => Some (VCall c)
  | IGo _ | IDefer _ => None
  end.

(** [call.StaticCallee()]: the callee when the call names a function
    or a closure over one. *)
Definition StaticCallee (c : CallCommon) : option Function :=
  match cc_Value c with
  | VFunction fn => Some fn
  | MakeClosure _ _ fn => Some fn
  | _ => None
  end.

End ssa.

(** ** The analysis state *)

(** Node ids: see the conventions at the head of the file. *)
Abbreviation nodeid := N (only parsing).

(** Arithmetic on [uint32] wraps around. *)
Definition wrap32 (x : N) : N := x mod 2 ^ 32.

(** One scalar position of a flattened type. *)
Record fieldInfo : Type := mkFieldInfo {
  fi_typ : types.type;
  fi_path : string
}.

(** The [data] of an object is an [interface{}]: the generator stores an
    SSA value (by identity), a type, a string, or nothing. *)
Inductive objdata : Type :=
| DataNil
| DataValue (id : N)
| DataType (T : types.type)
| DataString (s : string).

(** The flag bits of an object header.  Their numeric values are declared
    outside these sources; [flags |= otX] sets a field and
    [flags&otX != 0] reads it. *)
Record objflags : Type := mkFlags {
  otTagged : bool;
  otIndirect : bool;
  otFunction : bool
}.

Definition noFlags : objflags := mkFlags false false false.

(** A call-graph node and a call site are heap objects that the generator
    shares by pointer: the state holds them in two stores and a pointer is
    an index into its store. *)
Definition cgnref : Type := nat.
Definition siteref : Type := nat.

Record object : Type := mkObject {
  o_size : N;
  o_flags : objflags;
  o_cgn : option cgnref;
  o_data : objdata
}.

Record node : Type := mkNode {
  n_typ : types.type;
  n_subelement : option fieldInfo;
  n_obj : option object;
  n_pts : gset N
}.

Record cgnode : Type := mkCgnode {
  cg_fn : ssa.Function;
  cg_obj : nodeid;
  callersite : option siteref;
  sites : list siteref
}.

Record callsite : Type := mkCallsite {
  cs_instr : option ssa.CallInstruction;
  targets : nodeid
}.

Inductive constraint : Type :=
| addrConstraint (dst obj : nodeid)
| copyConstraint (dst src : nodeid)
| loadConstraint (offset : N) (dst src : nodeid)
| storeConstraint (offset : N) (dst src : nodeid)
| offsetAddrConstraint (offset : N) (dst src : nodeid)
| typeAssertConstraint (T : types.type) (dst src : nodeid)
| reflectTypeOfConstraint (cgn : cgnref) (i result : nodeid)
| reflectZeroConstraint (cgn : cgnref) (typ result : nodeid)
  (* the other kinds that the sources construct; the generator of
     this file emits none of them *)
| invokeConstraint (method : N) (iface block : nodeid)
| rVInterfaceConstraint (v result : nodeid)
| rVMapIndexConstraint (cgn : cgnref) (v result : nodeid)
| rVMapKeysConstraint (cgn : cgnref) (v result : nodeid)
| rVRecvConstraint (cgn : cgnref) (v result : nodeid)
| rVSendConstraint (cgn : cgnref) (v x : nodeid)
| rVSetMapIndexConstraint (cgn : cgnref) (v key val : nodeid)
| reflectChanOfConstraint (cgn : cgnref) (t result : nodeid) (dirs : list N)
| reflectIndirectConstraint (cgn : cgnref) (v result : nodeid)
| reflectMakeChanConstraint (cgn : cgnref) (typ result : nodeid)
| reflectMakeMapConstraint (cgn : cgnref) (typ result : nodeid)
| reflectNewConstraint (cgn : cgnref) (typ result : nodeid)
| rtypeElemConstraint (cgn : cgnref) (t result : nodeid)
| rtypeInOutConstraint (cgn : cgnref) (t result : nodeid) (out : bool)
| rtypeKeyConstraint (cgn : cgnref) (t result : nodeid)
| rtypeMethodByNameConstraint (cgn : cgnref) (name : string)
                              (t result : nodeid).

(** The handle [ptr{a, cgn, id}] handed to the client. *)
Record ptr : Type := mkPtr {
  ptr_cgn : option cgnref;
  ptr_n : nodeid
}.

(** A type-keyed map ([typemap.M]): [Set] shadows an earlier entry. *)
Definition typemap : Type := list (types.type * nodeid).

Fixpoint tm_At (m : typemap) (T : types.type) : option nodeid :=
  match m with
  | [] => None
  | (U, v) :: m' => if decide (U = T) then Some v else tm_At m' T
  end.

Definition tm_Set (m : typemap) (T : types.type) (v : nodeid) : typemap :=
  (T, v) :: m.

(** The unsoundness warnings the generator can raise. *)
Inductive warning : Type :=
| WarnUnsafeConversion (parent : N) (tDst : types.type).

Record Config : Type := mkConfig {
  Print : bool;                 (* is a print hook supplied? *)
  Queries : gmap N bool         (* queried value -> indirect? *)
}.

Record analysis : Type := mkAnalysis {
  config : Config;
  osArgs : option ssa.Value;    (* os.Var("Args") if package os is imported *)
  reflectRtypePtr : option types.type;
  nodes : list node;
  constraints : list constraint;
  cgnodes : list cgnode;
  callsites : list callsite;
  genq : list cgnref;
  globalval : gmap N nodeid;
  globalobj : gmap N nodeid;
  localval : option (gmap N nodeid);   (* nil outside genFunc *)
  localobj : option (gmap N nodeid);
  probes : gmap N nodeid;
  rtypes : typemap;
  reflectZeros : typemap;
  panicNode : nodeid;
  warnings : list (N * warning);
  printed : list (N * ptr);     (* the calls made to the print hook *)
  resultQueries : gmap N (list ptr);
  work : gset N
}.

Definition set_nodes (f : list node -> list node) (a : analysis) : analysis :=
  mkAnalysis (config a) (osArgs a) (reflectRtypePtr a) (f (nodes a))
    (constraints a) (cgnodes a) (callsites a) (genq a) (globalval a)
    (globalobj a) (localval a) (localobj a) (probes a) (rtypes a)
    (reflectZeros a) (panicNode a) (warnings a) (printed a)
    (resultQueries a) (work a).

Definition set_constraints (f : list constraint -> list constraint)
    (a : analysis) : analysis :=
  mkAnalysis (config a) (osArgs a) (reflectRtypePtr a) (nodes a)
    (f (constraints a)) (cgnodes a) (callsites a) (genq a) (globalval a)
    (globalobj a) (localval a) (localobj a) (probes a) (rtypes a)
    (reflectZeros a) (panicNode a) (warnings a) (printed a)
    (resultQueries a) (work a).

Definition set_cgnodes (f : list cgnode -> list cgnode) (a : analysis)
    : analysis :=
  mkAnalysis (config a) (osArgs a) (reflectRtypePtr a) (nodes a)
    (constraints a) (f (cgnodes a)) (callsites a) (genq a) (globalval a)
    (globalobj a) (localval a) (localobj a) (probes a) (rtypes a)
    (reflectZeros a) (panicNode a) (warnings a) (printed a)
    (resultQueries a) (work a).

Definition set_callsites (f : list callsite -> list callsite) (a : analysis)
    : analysis :=
  mkAnalysis (config a) (osArgs a) (reflectRtypePtr a) (nodes a)
    (constraints a) (cgnodes a) (f (callsites a)) (genq a) (globalval a)
    (globalobj a) (localval a) (localobj a) (probes a) (rtypes a)
    (reflectZeros a) (panicNode a) (warnings a) (printed a)
    (resultQueries a) (work a).

Definition set_genq (f : list cgnref -> list cgnref) (a : analysis)
    : analysis :=
  mkAnalysis (config a) (osArgs a) (reflectRtypePtr a) (nodes a)
    (constraints a) (cgnodes a) (callsites a) (f (genq a)) (globalval a)
    (globalobj a) (localval a) (localobj a) (probes a) (rtypes a)
    (reflectZeros a) (panicNode a) (warnings a) (printed a)
    (resultQueries a) (work a).

Definition set_globalval (f : gmap N nodeid -> gmap N nodeid) (a : analysis)
    : analysis :=
  mkAnalysis (config a) (osArgs a) (reflectRtypePtr a) (nodes a)
    (constraints a) (cgnodes a) (callsites a) (genq a) (f (globalval a))
    (globalobj a) (localval a) (localobj a) (probes a) (rtypes a)
    (reflectZeros a) (panicNode a) (warnings a) (printed a)
    (resultQueries a) (work a).

Definition set_globalobj (f : gmap N nodeid -> gmap N nodeid) (a : analysis)
    : analysis :=
  mkAnalysis (config a) (osArgs a) (reflectRtypePtr a) (nodes a)
    (constraints a) (cgnodes a) (callsites a) (genq a) (globalval a)
    (f (globalobj a)) (localval a) (localobj a) (probes a) (rtypes a)
    (reflectZeros a) (panicNode a) (warnings a) (printed a)
    (resultQueries a) (work a).

Definition set_localval (m : option (gmap N nodeid)) (a : analysis)
    : analysis :=
  mkAnalysis (config a) (osArgs a) (reflectRtypePtr a) (nodes a)
    (constraints a) (cgnodes a) (callsites a) (genq a) (globalval a)
    (globalobj a) m (localobj a) (probes a) (rtypes a)
    (reflectZeros a) (panicNode a) (warnings a) (printed a)
    (resultQueries a) (work a).

Definition set_localobj (m : option (gmap N nodeid)) (a : analysis)
    : analysis :=
  mkAnalysis (config a) (osArgs a) (reflectRtypePtr a) (nodes a)
    (constraints a) (cgnodes a) (callsites a) (genq a) (globalval a)
    (globalobj a) (localval a) m (probes a) (rtypes a)
    (reflectZeros a) (panicNode a) (warnings a) (printed a)
    (resultQueries a) (work a).

Definition set_probes (f : gmap N nodeid -> gmap N nodeid) (a : analysis)
    : analysis :=
  mkAnalysis (config a) (osArgs a) (reflectRtypePtr a) (nodes a)
    (constraints a) (cgnodes a) (callsites a) (genq a) (globalval a)
    (globalobj a) (localval a) (localobj a) (f (probes a)) (rtypes a)
    (reflectZeros a) (panicNode a) (warnings a) (printed a)
    (resultQueries a) (work a).

Definition set_rtypes (f : typemap -> typemap) (a : analysis) : analysis :=
  mkAnalysis (config a) (osArgs a) (reflectRtypePtr a) (nodes a)
    (constraints a) (cgnodes a) (callsites a) (genq a) (globalval a)
    (globalobj a) (localval a) (localobj a) (probes a) (f (rtypes a))
    (reflectZeros a) (panicNode a) (warnings a) (printed a)
    (resultQueries a) (work a).

Definition set_reflectZeros (f : typemap -> typemap) (a : analysis)
    : analysis :=
  mkAnalysis (config a) (osArgs a) (reflectRtypePtr a) (nodes a)
    (constraints a) (cgnodes a) (callsites a) (genq a) (globalval a)
    (globalobj a) (localval a) (localobj a) (probes a) (rtypes a)
    (f (reflectZeros a)) (panicNode a) (warnings a) (printed a)
    (resultQueries a) (work a).

Definition set_warnings (f : list (N * warning) -> list (N * warning))
    (a : analysis) : analysis :=
  mkAnalysis (config a) (osArgs a) (reflectRtypePtr a) (nodes a)
    (constraints a) (cgnodes a) (callsites a) (genq a) (globalval a)
    (globalobj a) (localval a) (localobj a) (probes a) (rtypes a)
    (reflectZeros a) (panicNode a) (f (warnings a)) (printed a)
    (resultQueries a) (work a).

Definition set_printed (f : list (N * ptr) -> list (N * ptr))
    (a : analysis) : analysis :=
  mkAnalysis (config a) (osArgs a) (reflectRtypePtr a) (nodes a)
    (constraints a) (cgnodes a) (callsites a) (genq a) (globalval a)
    (globalobj a) (localval a) (localobj a) (probes a) (rtypes a)
    (reflectZeros a) (panicNode a) (warnings a) (f (printed a))
    (resultQueries a) (work a).

Definition set_resultQueries
    (f : gmap N (list ptr) -> gmap N (list ptr)) (a : analysis) : analysis :=
  mkAnalysis (config a) (osArgs a) (reflectRtypePtr a) (nodes a)
    (constraints a) (cgnodes a) (callsites a) (genq a) (globalval a)
    (globalobj a) (localval a) (localobj a) (probes a) (rtypes a)
    (reflectZeros a) (panicNode a) (warnings a) (printed a)
    (f (resultQueries a)) (work a).

Definition set_work (f : gset N -> gset N) (a : analysis) : analysis :=
  mkAnalysis (config a) (osArgs a) (reflectRtypePtr a) (nodes a)
    (constraints a) (cgnodes a) (callsites a) (genq a) (globalval a)
    (globalobj a) (localval a) (localobj a) (probes a) (rtypes a)
    (reflectZeros a) (panicNode a) (warnings a) (printed a)
    (resultQueries a) (f (work a)).

(** ** The generator monad: state and panic *)

Inductive Res (A : Type) : Type :=
| OK (x : A) (a : analysis)
| Panic (msg : string).
Arguments OK {A} x a.
Arguments Panic {A} msg.

Definition M (A : Type) : Type := analysis -> Res A.

Definition ret {A} (x : A) : M A := fun a => OK x a.

Definition bind {A B} (m : M A) (k : A -> M B) : M B :=
  fun a => match m a with
           | OK x a' => k x a'
           | Panic msg => Panic msg
           end.

Definition panic {A} (msg : string) : M A := fun _ => Panic msg.
Definition get : M analysis := fun a => OK a a.
Definition modify (f : analysis -> analysis) : M unit := fun a => OK tt (f a).

Notation "'let!' x ':=' m 'in' k" := (bind m (fun x => k))
  (at level 10, x pattern, m at level 100, k at level 200).
Notation "'do!' m 'in' k" := (bind m (fun _ => k))
  (at level 10, m at level 100, k at level 200).

(** [for _, x := range l { f x }]. *)
Fixpoint forEach {A} (l : list A) (f : A -> M unit) : M unit :=
  match l with
  | [] => ret tt
  | x :: l' => do! f x in forEach l' f
  end.

(** [if c { m }]. *)
Definition when (c : bool) (m : M unit) : M unit :=
  if c then m else ret tt.

Definition tInvalid : types.type := types.Basic types.Invalid.
Definition tEface : types.type := types.Interface [].
Definition tUnsafePtr : types.type := types.Basic types.UnsafePointer.

(** ** Example inputs

    Concrete programs and states on which the properties below are
    exercised. *)

Definition extendPath (p : string) (fi : fieldInfo) : fieldInfo :=
  mkFieldInfo (fi_typ fi) (p +:+ fi_path fi).

(** Modelled from the spec: the flattener of section 4.1.  A scalar is
    one entry of itself, a struct and a tuple concatenate the flattenings
    of their components, an array is the flattening of its element. *)
Fixpoint flattenSpec (t : types.type) : list fieldInfo :=
  match t with
  | types.Struct fields =>
      (fix go (i : nat) (l : list types.type) : list fieldInfo :=
         match l with
         | [] => []
         | f :: l' => map (extendPath ("." +:+ pretty i)) (flattenSpec f)
                        ++ go (S i) l'
         end) 0%nat fields
  | types.Tuple vars =>
      (fix go (i : nat) (l : list types.type) : list fieldInfo :=
         match l with
         | [] => []
         | f :: l' => map (extendPath ("#" +:+ pretty i)) (flattenSpec f)
                        ++ go (S i) l'
         end) 0%nat vars
  | types.Array e _ => map (extendPath "[*]") (flattenSpec e)
  | types.Named _ u => flattenSpec u
  | _ => [mkFieldInfo t ""]
  end.

(** Modelled from the spec: [offsetOf(T, i)] is the sum of the sizes of
    the first [i] fields of [T]. *)
Definition offsetOfSpec (t : types.type) (i : N) : N :=
  match types.Underlying t with
  | types.Struct fields | types.Tuple fields =>
      N.of_nat (length (flat_map flattenSpec (take (N.to_nat i) fields)))
  | _ => 0
  end.

Definition noIntrinsic (fn : ssa.Function) : option N := None.
Definition noMethods (t : types.type) : list ssa.Function := [].

Definition tInt : types.type := types.Basic types.Int.
Definition tString : types.type := types.Basic types.String.
Definition tIntPtr : types.type := types.Pointer tInt.
Definition tIntSlice : types.type := types.Slice tInt.
Definition tRtypePtr : types.type :=
  types.Pointer (types.Named "reflect.rtype" (types.Struct [tInt])).

(** The state right after generate has created the node 0 and the panic
    node, inside the body of a function (the local maps exist). *)
Definition state0 : analysis :=
  mkAnalysis (mkConfig true ∅) None (Some tRtypePtr)
    [mkNode tInvalid (Some (mkFieldInfo tInvalid "")) None ∅;
     mkNode tEface (Some (mkFieldInfo tEface "")) None ∅]
    [] [] [] [] ∅ ∅ (Some ∅) (Some ∅) ∅ [] [] 1 [] [] ∅ ∅.

(** A bound-method wrapper with two blocks. *)
Definition wrapper2 : ssa.Function :=
  ssa.mkFunction 20 "bound$T.f" (types.mkSignature None [] [] false)
    "bound method wrapper" None
    [ssa.mkBasicBlock [ssa.InstrOther]; ssa.mkBasicBlock [ssa.InstrOther]].

(** A function of package [main] and a conversion of an
    [unsafe.Pointer] to a pointer to [int] inside it; [stateConv] is [state0] after the value
    node 2 of the conversion has been created. *)
Definition fnMain : ssa.Function :=
  ssa.mkFunction 30 "main" (types.mkSignature None [] [] false) ""
    (Some (ssa.mkPackage "main" None)) [].

Definition convExample : ssa.Convert :=
  ssa.mkConvert 40 tIntPtr (ssa.OtherValue 41 tUnsafePtr) fnMain 7.

Definition stateConv : analysis :=
  mkAnalysis (mkConfig true ∅) None (Some tRtypePtr)
    [mkNode tInvalid (Some (mkFieldInfo tInvalid "")) None ∅;
     mkNode tEface (Some (mkFieldInfo tEface "")) None ∅;
     mkNode tIntPtr (Some (mkFieldInfo tIntPtr "")) None ∅]
    [] [] [] [] ∅ ∅ (Some {[40 := 2]}) (Some ∅) ∅ [] [] 1 [] [] ∅ ∅.





(** A call [print(p)] of a pointer [p], and a state with two nodes for
    [p], one per contour of the enclosing function. *)
Definition printExample : ssa.CallInstruction :=
  ssa.ICall
    (ssa.mkCall 60 tInvalid
       (ssa.mkCallCommon 61 (ssa.Builtin 62 tInvalid "print")
          [ssa.OtherValue 63 tIntPtr] (types.mkSignature None [] [] true))).

Definition statePrint : analysis :=
  mkAnalysis (mkConfig true ∅) None (Some tRtypePtr)
    [mkNode tInvalid (Some (mkFieldInfo tInvalid "")) None ∅;
     mkNode tEface (Some (mkFieldInfo tEface "")) None ∅;
     mkNode tIntPtr (Some (mkFieldInfo tIntPtr "")) None ∅;
     mkNode tIntPtr (Some (mkFieldInfo tIntPtr "")) None ∅]
    [] [] [] [] ∅ ∅ None None ∅ [] [] 1 [] [] ∅ ∅.

(** A call [println(p)] of a pointer [p]. *)
Definition printlnExample : ssa.CallInstruction :=
  ssa.ICall
    (ssa.mkCall 50 tInvalid
       (ssa.mkCallCommon 51 (ssa.Builtin 52 tInvalid "println")
          [ssa.OtherValue 53 tIntPtr] (types.mkSignature None [] [] true))).

(** A load [r = *p] and a store [*p = r] through [p = new( *int)];
    [stateLoad] is [state0] after the value nodes 2 and 3 of [p] and [r]
    have been created. *)
Definition ptrExample : ssa.Value := ssa.Alloc 60 (types.Pointer tIntPtr).

Definition stateLoad : analysis :=
  mkAnalysis (mkConfig true ∅) None (Some tRtypePtr)
    [mkNode tInvalid (Some (mkFieldInfo tInvalid "")) None ∅;
     mkNode tEface (Some (mkFieldInfo tEface "")) None ∅;
     mkNode (types.Pointer tIntPtr)
       (Some (mkFieldInfo (types.Pointer tIntPtr) "")) None ∅;
     mkNode tIntPtr (Some (mkFieldInfo tIntPtr "")) None ∅]
    [] [] [] [] ∅ ∅ (Some {[60 := 2; 61 := 3]}) (Some ∅) ∅ [] [] 1 [] [] ∅ ∅.


(** A leaf function: one block, one instruction, no call. *)
Definition leafExample : ssa.Function :=
  ssa.mkFunction 21 "leaf" (types.mkSignature None [] [] false) "" None
    [ssa.mkBasicBlock [ssa.InstrOther]].

(** The state at the end of the generation of a program that imports
    [os] and never mentions [os.Args]. *)
Definition stateOs : analysis :=
  mkAnalysis (mkConfig true ∅)
    (Some (ssa.Global 70 (types.Pointer (types.Slice tString))))
    (Some tRtypePtr)
    [mkNode tInvalid (Some (mkFieldInfo tInvalid "")) None ∅;
     mkNode tEface (Some (mkFieldInfo tEface "")) None ∅]
    [] [] [] [] ∅ ∅ None None ∅ [] [] 1 [] [] ∅ ∅.

(** A conversion [[]int(s)] of a string [s] in [fnMain]; [stateStrConv]
    is [state0] after the value node 2 of the conversion has been
    created. *)
Definition strConvExample : ssa.Convert :=
  ssa.mkConvert 80 tIntSlice (ssa.OtherValue 81 tString) fnMain 9.

Definition stateStrConv : analysis :=
  mkAnalysis (mkConfig true ∅) None (Some tRtypePtr)
    [mkNode tInvalid (Some (mkFieldInfo tInvalid "")) None ∅;
     mkNode tEface (Some (mkFieldInfo tEface "")) None ∅;
     mkNode tIntSlice (Some (mkFieldInfo tIntSlice "")) None ∅]
    [] [] [] [] ∅ ∅ (Some {[80 := 2]}) (Some ∅) ∅ [] [] 1 [] [] ∅ ∅.

(** A function [func(p *int) *int] of one block, a static call [id(q)]
    and a dynamic call [f(q)] of a function value [f] of the same
    signature.  [stateCall] is [state0] after the value nodes 2, 3 and 4
    of [f], [q] and the result of the call have been created, with one
    call site, and with [f] known to have no object. *)
Definition sigPtrPtr : types.Signature :=
  types.mkSignature None [tIntPtr] [tIntPtr] false.

Definition idExample : ssa.Function :=
  ssa.mkFunction 22 "id" sigPtrPtr "" None
    [ssa.mkBasicBlock [ssa.InstrOther]].

Definition staticCallExample : ssa.CallCommon :=
  ssa.mkCallCommon 94 (ssa.VFunction idExample)
    [ssa.OtherValue 91 tIntPtr] sigPtrPtr.

Definition dynCallExample : ssa.CallCommon :=
  ssa.mkCallCommon 93 (ssa.OtherValue 90 (types.sigType sigPtrPtr))
    [ssa.OtherValue 91 tIntPtr] sigPtrPtr.

Definition stateCall : analysis :=
  mkAnalysis (mkConfig true ∅) None (Some tRtypePtr)
    [mkNode tInvalid (Some (mkFieldInfo tInvalid "")) None ∅;
     mkNode tEface (Some (mkFieldInfo tEface "")) None ∅;
     mkNode (types.sigType sigPtrPtr)
       (Some (mkFieldInfo (types.sigType sigPtrPtr) "")) None ∅;
     mkNode tIntPtr (Some (mkFieldInfo tIntPtr "")) None ∅;
     mkNode tIntPtr (Some (mkFieldInfo tIntPtr "")) None ∅]
    [] [] [mkCallsite None 0] [] ∅ ∅
    (Some {[90 := 2; 91 := 3; 92 := 4]}) (Some {[90 := 0]}) ∅ [] [] 1
    [] [] ∅ ∅.

(** The conversion of [q] to [interface{}] in the same function. *)
Definition boxExample : ssa.Value :=
  ssa.MakeInterface 95 tEface (ssa.OtherValue 91 tIntPtr).

(** The state of the solver after [makeTagged] has made a tagged object
    of dynamic type [*int] (nodes 2 and 3), [makeRtype] has made the
    rtype of [int] (the object 4 and the tagged object 5 with the
    payload 6), and two interface nodes 7 and 8 have been added. *)
Definition stateReflect : analysis :=
  mkAnalysis (mkConfig true ∅) None (Some tRtypePtr)
    [mkNode tInvalid (Some (mkFieldInfo tInvalid "")) None ∅;
     mkNode tEface (Some (mkFieldInfo tEface "")) None ∅;
     mkNode tIntPtr None
       (Some (mkObject 2 (mkFlags true false false) None DataNil)) ∅;
     mkNode tIntPtr (Some (mkFieldInfo tIntPtr "")) None ∅;
     mkNode tInt None (Some (mkObject 1 noFlags None (DataType tInt))) ∅;
     mkNode tRtypePtr None
       (Some (mkObject 2 (mkFlags true false false) None (DataType tInt))) ∅;
     mkNode tInt (Some (mkFieldInfo tRtypePtr "")) None ∅;
     mkNode tEface None None ∅;
     mkNode tEface None None ∅]
    [addrConstraint 6 4] [] [] [] ∅ ∅ (Some ∅) (Some ∅) ∅ [(tInt, 5)] [] 1
    [] [] ∅ ∅.

(** ** The generator *)

Section Generator.

(** The flattener, the field offsets, the intrinsic table and the method
    sets live in files that are not at hand ([util.go], [intrinsics.go],
    the SSA program); the generator is read relative to them. *)
Variable flatten : types.type -> list fieldInfo.
Variable offsetOf : types.type -> N -> N.
Variable findIntrinsic : ssa.Function -> option N.
(** [methodsOf T]: the functions [a.prog.Method(mset.At(i))] for the
    method set [mset] of [T], in order. *)
Variable methodsOf : types.type -> list ssa.Function.

(** Modelled from the spec: [sizeof(T)] is the length of the flattening of
    [T] (section 4.1); the code returns it as a [uint32]. *)
Definition sizeof (T : types.type) : N :=
  wrap32 (N.of_nat (length (flatten T))).

(** [a.nodes[id]]; out of range is a run-time panic. *)
Definition nodeAt (id : nodeid) : M node :=
  fun a => match nodes a !! N.to_nat id with
           | Some n => OK n a
           | None => Panic "index out of range"
           end.

(** Replace the node at [id] (a write through the pointer [a.nodes[id]]). *)
Definition setNode (id : nodeid) (n : node) : M unit :=
  modify (set_nodes (fun ns => <[N.to_nat id := n]> ns)).

(** *** Node creation *)

(** nextNode returns the index of the next unused node. *)
Definition nextNode : M nodeid :=
  fun a => OK (N.of_nat (length (nodes a))) a.

(** addOneNode creates a single node with type typ, and returns its id. *)
Definition addOneNode (typ : types.type) (subelement : option fieldInfo)
    : M nodeid :=
  let! id := nextNode in
  do! modify (set_nodes (fun ns => ns ++ [mkNode typ subelement None ∅])) in
  ret id.

(** addNodes creates nodes for all scalar elements in type typ, and
    returns the id of the first one, or zero if the type was
    analytically uninteresting. *)
Definition addNodes (typ : types.type) : M nodeid :=
  let! id := nextNode in
  do! forEach (flatten typ)
        (fun fi => do! addOneNode (fi_typ fi) (Some fi) in ret tt) in
  let! next := nextNode in
  if decide (id = next) then ret 0 else ret id.

(** endObject marks the end of a sequence of calls to addNodes denoting a
    single object allocation.  It returns the object, which lives in the
    node [obj]: the result here is that node id.  A start node beyond the
    table makes the subtraction underflow and the indexing panic. *)
Definition endObject (obj : nodeid) (cgn : option cgnref) (data : objdata)
    : M nodeid :=
  let! next := nextNode in
  if decide (next < obj) then panic "index out of range" else
  let size := wrap32 (next - obj) in
  do! when (bool_decide (size = 0))
        (do! addOneNode tInvalid None in ret tt) in
  let! objNode := nodeAt obj in
  let o := mkObject size noFlags cgn data in
  do! setNode obj (mkNode (n_typ objNode) (n_subelement objNode) (Some o)
                     (n_pts objNode)) in
  ret obj.

(** [o.flags |= f] on the object returned by endObject. *)
Definition orFlags (o : nodeid) (f : objflags -> objflags) : M unit :=
  let! n := nodeAt o in
  match n_obj n with
  | Some h =>
      setNode o (mkNode (n_typ n) (n_subelement n)
                   (Some (mkObject (o_size h) (f (o_flags h)) (o_cgn h) (o_data h)))
                   (n_pts n))
  | None => panic "nil pointer dereference"
  end.

Definition setTagged (f : objflags) : objflags :=
  mkFlags true (otIndirect f) (otFunction f).
Definition setFunction (f : objflags) : objflags :=
  mkFlags (otTagged f) (otIndirect f) true.

Definition makeCGNode (fn : ssa.Function) (obj : nodeid)
    (callersite : option siteref) : M cgnref :=
  fun a => OK (length (cgnodes a))
              (set_cgnodes (fun l => l ++ [mkCgnode fn obj callersite []]) a).

(** makeFunctionObject creates and returns a new function object
    (contour) for fn, and returns the id of its first node.  It also
    enqueues fn for subsequent constraint generation. *)
Definition makeFunctionObject (fn : ssa.Function)
    (callersite : option siteref) : M nodeid :=
  let! obj := nextNode in
  let! cgn := makeCGNode fn obj callersite in
  let sig := ssa.Signature fn in
  do! addOneNode (types.sigType sig) None in
  do! match types.Recv sig with
      | Some recv => do! addNodes recv in ret tt
      | None => ret tt
      end in
  do! addNodes (types.Tuple (types.Params sig)) in
  do! addNodes (types.Tuple (types.Results sig)) in
  let! o := endObject obj (Some cgn) (DataValue (ssa.fn_id fn)) in
  do! orFlags o setFunction in
  do! modify (set_genq (fun q => q ++ [cgn])) in
  ret obj.

(** makeTagged creates a tagged object of type typ. *)
Definition makeTagged (typ : types.type) (cgn : option cgnref)
    (data : objdata) : M nodeid :=
  let! obj := addOneNode typ None in
  do! addNodes typ in
  let! o := endObject obj cgn data in
  do! orFlags o setTagged in
  ret obj.

(** *** Constraint creation *)

(** addConstraint adds c to the constraint set. *)
Definition addConstraint (c : constraint) : M unit :=
  modify (set_constraints (fun cs => cs ++ [c])).

(** The loop of [copy]: [sizeof] rounds, advancing both ends; [src++]
    and [dst++] are increments of a [uint32]. *)
Fixpoint copyLoop (n : nat) (dst src : nodeid) : M unit :=
  match n with
  | O => ret tt
  | S n' => do! addConstraint (copyConstraint dst src) in
            copyLoop n' (wrap32 (dst + 1)) (wrap32 (src + 1))
  end.

(** copy creates a constraint of the form dst = src.
    sizeof is the width (in logical fields) of the copied type. *)
Definition copy (dst src : nodeid) (sizeof : N) : M unit :=
  if bool_decide (src = dst) || bool_decide (sizeof = 0) then ret tt
  else if bool_decide (src = 0) || bool_decide (dst = 0)
  then panic "ill-typed copy"
  else copyLoop (N.to_nat sizeof) dst src.

(** addressOf creates a constraint of the form id = &obj. *)
Definition addressOf (id obj : nodeid) : M unit :=
  if bool_decide (id = 0) then panic "addressOf: zero id"
  else if bool_decide (obj = 0) then panic "addressOf: zero obj"
  else addConstraint (addrConstraint id obj).

Fixpoint loadLoop (n : nat) (dst src : nodeid) (offset : N) : M unit :=
  match n with
  | O => ret tt
  | S n' => do! addConstraint (loadConstraint offset dst src) in
            loadLoop n' (wrap32 (dst + 1)) src (wrap32 (offset + 1))
  end.

(** load creates a load constraint of the form dst = src[offset]. *)
Definition load (dst src : nodeid) (offset sizeof : N) : M unit :=
  if bool_decide (dst = 0) then ret tt
  else if bool_decide (src = 0) && bool_decide (dst = 0) then ret tt
  else if bool_decide (src = 0) || bool_decide (dst = 0)
  then panic "ill-typed load"
  else loadLoop (N.to_nat sizeof) dst src offset.

Fixpoint storeLoop (n : nat) (dst src : nodeid) (offset : N) : M unit :=
  match n with
  | O => ret tt
  | S n' => do! addConstraint (storeConstraint offset dst src) in
            storeLoop n' dst (wrap32 (src + 1)) (wrap32 (offset + 1))
  end.

(** store creates a store constraint of the form dst[offset] = src. *)
Definition store (dst src : nodeid) (offset sizeof : N) : M unit :=
  if bool_decide (src = 0) then ret tt
  else if bool_decide (src = 0) && bool_decide (dst = 0) then ret tt
  else if bool_decide (src = 0) || bool_decide (dst = 0)
  then panic "ill-typed store"
  else storeLoop (N.to_nat sizeof) dst src offset.


(** typeAssert creates a typeAssert constraint of the form dst = src.(T). *)
Definition typeAssert (T : types.type) (dst src : nodeid) : M unit :=
  addConstraint (typeAssertConstraint T dst src).

(** *** Helpers on types ([util.go])

    Modelled from the spec: [mustDeref] yields the pointee type of a pointer
    type and [sliceToArray] the backing-array type of a slice type (an
    array of its element type; the generator's comments give it length 1).
    A type of the wrong shape is a failed type assertion. *)
Definition mustDeref (t : types.type) : M types.type :=
  match types.Underlying t with
  | types.Pointer e => ret e
  | _ => panic "cannot dereference type"
  end.

Definition sliceToArray (t : types.type) : M types.type :=
  match types.Underlying t with
  | types.Slice e => ret (types.Array e 1)
  | _ => panic "interface conversion: not a slice"
  end.

(** [tArray.Elem()] on the result of sliceToArray. *)
Definition arrayElem (t : types.type) : M types.type :=
  match t with
  | types.Array e _ => ret e
  | _ => panic "not an array"
  end.

(** [args[i]]. *)
Definition index {A} (l : list A) (i : nat) : M A :=
  match l !! i with
  | Some x => ret x
  | None => panic "index out of range"
  end.

(** *** Tagged objects and function blocks *)

(** taggedValue returns the dynamic type tag, the (first node of the)
    payload, and the indirect flag of the tagged object starting at id.
    It returns tDyn==nil if obj is not a tagged object. *)
Definition taggedValue (id : nodeid)
    : M (option types.type * nodeid * bool) :=
  let! n := nodeAt id in
  match n_obj n with
  | None => panic "nil pointer dereference"
  | Some o =>
      if otTagged (o_flags o)
      then ret (Some (n_typ n), id + 1, otIndirect (o_flags o))
      else ret (None, 0, false)
  end.

(** rtypeValue returns the type of the *reflect.rtype-tagged object obj. *)
Definition rtypeTaggedValue (obj : nodeid) : M types.type :=
  let! (tDyn, t, _) := taggedValue obj in
  let! a := get in
  if decide (tDyn = reflectRtypePtr a)
  then let! n := nodeAt t in ret (n_typ n)
  else panic "not a *reflect.rtype-tagged value".

(** makeRtype returns the canonical tagged object of type *rtype whose
    payload points to the sole rtype object for T. *)
Definition makeRtype (T : types.type) : M nodeid :=
  let! a := get in
  match tm_At (rtypes a) T with
  | Some v => ret v
  | None =>
      let! obj := nextNode in
      do! addOneNode T None in
      do! endObject obj None (DataType T) in
      let! rtypePtr :=
        match reflectRtypePtr a with
        | Some t => ret t
        | None => panic "package reflect is not loaded"
        end in
      let! id := makeTagged rtypePtr None (DataType T) in
      let! n := nodeAt (id + 1) in
      do! setNode (id + 1) (mkNode T (n_subelement n) (n_obj n) (n_pts n)) in
      do! addressOf (id + 1) obj in
      do! modify (set_rtypes (fun m => tm_Set m T id)) in
      ret id
  end.

Definition isFunctionBlock (n : node) : bool :=
  match n_obj n with
  | Some o => otFunction (o_flags o)
  | None => false
  end.

(** funcParams returns the first node of the params block of the
    function whose object node (obj.flags&otFunction) is id. *)
Definition funcParams (id : nodeid) : M nodeid :=
  let! n := nodeAt id in
  if isFunctionBlock n then ret (id + 1)
  else panic "funcParams: not a function object block".

(** funcResults returns the first node of the results block of the
    function whose object node (obj.flags&otFunction) is id. *)
Definition funcResults (id : nodeid) : M nodeid :=
  let! n := nodeAt id in
  if isFunctionBlock n then
    match types.asSignature (n_typ n) with
    | None => panic "interface conversion: not a signature"
    | Some sig =>
        let id := id + (1 + sizeof (types.Tuple (types.Params sig))) in
        match types.Recv sig with
        | Some recv => ret (id + sizeof recv)
        | None => ret id
        end
    end
  else panic "funcResults: not a function object block".

(** *** Value nodes and object nodes

    In the source [valueNode], [setValueNode], [genLoad] and [objectNode]
    call one another.  The cycle is cut where it closes at run time:
    setValueNode has stored [v] in the very map that opens valueNode
    before genLoad asks for the node of [v] again, so that inner call is
    the look-up [valueNodeCached] (see [valueNode_cached] and
    [valueNodeLookup_recorded]). *)

(** [a.m[v] = id] for a map that may be nil. *)
Definition writeLocalval (v : ssa.Value) (id : nodeid) : M unit :=
  fun a => match localval a with
           | Some m => OK tt (set_localval (Some (<[ssa.vid v := id]> m)) a)
           | None => Panic "assignment to entry in nil map"
           end.

Definition writeLocalobj (v : ssa.Value) (id : nodeid) : M unit :=
  fun a => match localobj a with
           | Some m => OK tt (set_localobj (Some (<[ssa.vid v := id]> m)) a)
           | None => Panic "assignment to entry in nil map"
           end.

Definition valueNodeLookup (a : analysis) (v : ssa.Value) : option nodeid :=
  match localval a ≫= (fun m => m !! ssa.vid v) with
  | Some id => Some id
  | None => globalval a !! ssa.vid v
  end.

Definition valueNodeCached (v : ssa.Value) : M nodeid :=
  let! a := get in
  match valueNodeLookup a v with
  | Some id => ret id
  | None => panic "value node not recorded"
  end.

(** The global half of objectNode: [cgn == nil]. *)
Definition objectNodeGlobal (v : ssa.Value) : M nodeid :=
  let! a := get in
  match globalobj a !! ssa.vid v with
  | Some obj => ret obj
  | None =>
      let! obj :=
        match v with
        | ssa.Global id t =>
            let! obj := nextNode in
            let! te := mustDeref t in
            do! addNodes te in
            do! endObject obj None (DataValue id) in
            ret obj
        | ssa.VFunction fn => makeFunctionObject fn None
        | ssa.Const id t isNil =>
            match types.Underlying t with
            | types.Slice _ =>
                if negb isNil then
                  let! obj := nextNode in
                  let! ta := sliceToArray (types.Underlying t) in
                  do! addNodes ta in
                  do! endObject obj None (DataValue id) in
                  ret obj
                else ret 0
            | _ => ret 0
            end
        | _ => ret 0
        end in
      do! modify (set_globalobj (fun m => <[ssa.vid v := obj]> m)) in
      ret obj
  end.

(** genLoad generates constraints for result = *(ptr + val). *)
Definition genLoadWith
    (objectNode : option cgnref -> ssa.Value -> M nodeid)
    (valueNode : ssa.Value -> M nodeid)
    (cgn : option cgnref) (result : nodeid) (ptr : ssa.Value)
    (offset sizeof : N) : M unit :=
  let! obj := objectNode cgn ptr in
  if negb (bool_decide (obj = 0)) then
    (* Pre-apply loadConstraint.solve(). *)
    copy result (wrap32 (obj + offset)) sizeof
  else
    let! p := valueNode ptr in
    load result p offset sizeof.

(** setValueNode associates node id with the value v.
    cgn identifies the context iff v is a local variable. *)
Definition setValueNodeWith
    (genLoad : option cgnref -> nodeid -> ssa.Value -> N -> N -> M unit)
    (v : ssa.Value) (id : nodeid) (cgn : option cgnref) : M unit :=
  do! match cgn with
      | Some _ => writeLocalval v id
      | None => modify (set_globalval (fun m => <[ssa.vid v := id]> m))
      end in
  let! a := get in
  (* Record the (v, id) relation if the client has queried v. *)
  match Queries (config a) !! ssa.vid v with
  | Some indirect =>
      let! id :=
        if (indirect : bool) then
          let! tmp := addNodes (ssa.Type_ v) in
          do! genLoad cgn tmp v 0 (sizeof (ssa.Type_ v)) in
          ret tmp
        else ret id in
      modify (set_resultQueries (fun q =>
        <[ssa.vid v := default [] (q !! ssa.vid v) ++ [mkPtr cgn id]]> q))
  | None => ret tt
  end.

(** valueNode returns the id of the value node for v, creating it (and
    the association) as needed.  It may return zero for uninteresting
    values containing no pointers. *)
Definition valueNode (v : ssa.Value) : M nodeid :=
  let! a := get in
  match valueNodeLookup a v with
  | Some id => ret id
  | None =>
      let! id := addOneNode (ssa.Type_ v) None in
      let! obj := objectNodeGlobal v in
      do! when (negb (bool_decide (obj = 0))) (addressOf id obj) in
      do! setValueNodeWith
            (genLoadWith (fun _ => objectNodeGlobal) valueNodeCached)
            v id None in
      ret id
  end.

(** The local half of objectNode: [cgn != nil]. *)
Fixpoint objectNodeLocal (cgn : cgnref) (v : ssa.Value) {struct v}
    : M nodeid :=
  let! a := get in
  match localobj a ≫= (fun m => m !! ssa.vid v) with
  | Some obj => ret obj
  | None =>
      let! obj :=
        match v with
        | ssa.Alloc id t =>
            let! obj := nextNode in
            let! te := mustDeref t in
            do! addNodes te in
            do! endObject obj (Some cgn) (DataValue id) in
            ret obj
        | ssa.MakeSlice id t =>
            let! obj := nextNode in
            let! ta := sliceToArray t in
            do! addNodes ta in
            do! endObject obj (Some cgn) (DataValue id) in
            ret obj
        | ssa.MakeChan id t =>
            let! obj := nextNode in
            let! te := match types.Underlying t with
                       | types.Chan e => ret e
                       | _ => panic "interface conversion: not a chan"
                       end in
            do! addNodes te in
            do! endObject obj (Some cgn) (DataValue id) in
            ret obj
        | ssa.MakeMap id t =>
            let! obj := nextNode in
            let! (k, e) := match types.Underlying t with
                            | types.Map k e => ret (k, e)
                            | _ => panic "interface conversion: not a map"
                            end in
            do! addNodes k in
            do! addNodes e in
            do! endObject obj (Some cgn) (DataValue id) in
            ret obj
        | ssa.MakeInterface id t X =>
            let tConc := ssa.Type_ X in
            (* Create nodes and constraints for all methods of the type. *)
            do! forEach (methodsOf tConc)
                  (fun m => do! valueNode (ssa.VFunction m) in ret tt) in
            let! obj := makeTagged tConc (Some cgn) (DataValue id) in
            (* Copy the value into it, if nontrivial. *)
            let! x := valueNode X in
            do! when (negb (bool_decide (x = 0)))
                  (copy (obj + 1) x (sizeof tConc)) in
            ret obj
        | ssa.FieldAddr id t X Field =>
            let! xobj := objectNodeLocal cgn X in
            if negb (bool_decide (xobj = 0)) then
              let! tx := mustDeref (ssa.Type_ X) in
              ret (xobj + offsetOf tx Field)
            else ret 0
        | ssa.IndexAddr id t X =>
            let! xobj := objectNodeLocal cgn X in
            if negb (bool_decide (xobj = 0)) then ret (xobj + 1) else ret 0
        | ssa.Slice id t X => objectNodeLocal cgn X
        | _ => ret 0
        end in
      do! writeLocalobj v obj in
      ret obj
  end.

(** objectNode returns the object to which v points, if known.
    In other words, if the points-to set of v is a singleton, it
    returns the sole label, zero otherwise. *)
Definition objectNode (cgn : option cgnref) (v : ssa.Value) : M nodeid :=
  match cgn with
  | None => objectNodeGlobal v
  | Some c => objectNodeLocal c v
  end.

Definition genLoad : option cgnref -> nodeid -> ssa.Value -> N -> N -> M unit :=
  genLoadWith objectNode valueNode.

Definition setValueNode : ssa.Value -> nodeid -> option cgnref -> M unit :=
  setValueNodeWith genLoad.


(** genStore generates constraints for *(ptr + offset) = val. *)
Definition genStore (cgn : option cgnref) (ptr : ssa.Value) (val : nodeid)
    (offset sizeof : N) : M unit :=
  let! obj := objectNode cgn ptr in
  if negb (bool_decide (obj = 0)) then
    (* Pre-apply storeConstraint.solve(). *)
    copy (wrap32 (obj + offset)) val sizeof
  else
    let! p := valueNode ptr in
    store p val offset sizeof.

(** copyElems generates load/store constraints for *dst = *src,
    where src and dst are slices or *arrays. *)
Definition copyElems (cgn : option cgnref) (typ : types.type)
    (dst src : ssa.Value) : M unit :=
  let! tmp := addNodes typ in
  let sz := sizeof typ in
  do! genLoad cgn tmp src 1 sz in
  genStore cgn dst tmp 1 sz.

(** *** Constraint generation *)

(** Modelled from the spec: [warnf] appends a (source position, message)
    pair to the warning list of the result and the analysis continues
    (sections 6 and 7); the function itself is not among the sources. *)
Definition warnf (pos : N) (w : warning) : M unit :=
  modify (set_warnings (fun l => l ++ [(pos, w)])).

(** genConv generates constraints for the conversion operation conv. *)
Definition genConv (conv : ssa.Convert) (cgn : option cgnref) : M unit :=
  let! res := valueNode (ssa.VConvert conv) in
  if bool_decide (res = 0) then ret tt (* result is non-pointerlike *)
  else
    let tSrc := ssa.Type_ (ssa.conv_X conv) in
    let tDst := ssa.conv_typ conv in
    let illegal : M unit := panic "illegal *ssa.Convert" in
    match types.Underlying tSrc with
    | types.Slice _ => ret tt
    | types.Pointer _ =>
        if decide (tDst = tUnsafePtr) then ret tt else illegal
    | types.Basic kSrc =>
        match types.Underlying tDst with
        | types.Pointer _ =>
            (* unsafe.Pointer -> *T?  (currently unsound) *)
            if decide (types.Basic kSrc = tUnsafePtr) then
              let! pkg := match ssa.Pkg (ssa.conv_Parent conv) with
                          | Some pkg => ret pkg
                          | None => panic "nil pointer dereference"
                          end in
              do! when (negb (bool_decide (ssa.Path pkg = "syscall"%string)))
                    (warnf (ssa.conv_Pos conv)
                       (WarnUnsafeConversion
                          (ssa.fn_id (ssa.conv_Parent conv)) tDst)) in
              let! te := mustDeref tDst in
              let! obj := addNodes te in
              do! endObject obj cgn (DataValue (ssa.conv_id conv)) in
              addressOf res obj
            else illegal
        | types.Slice _ =>
            (* string -> []byte/[]rune (or named aliases)? *)
            if types.isString kSrc then
              let! ta := sliceToArray tDst in
              let! obj := addNodes ta in
              do! endObject obj cgn (DataValue (ssa.conv_id conv)) in
              addressOf res obj
            else illegal
        | types.Basic _ => ret tt
        | _ => illegal
        end
    | _ => illegal
    end.

(** genAppend generates constraints for a call to append. *)
Definition genAppend (instr : ssa.Call) (cgn : option cgnref) : M unit :=
  let args := ssa.Args (ssa.call_Call instr) in
  let! x := index args 0 in
  let z := ssa.VCall instr in
  let! zn := valueNode z in
  let! xn := valueNode x in
  do! copy zn xn 1 in                                  (* z = x *)
  if bool_decide (length args = 1%nat) then
    ret tt (* no allocation for z = append(x) or _ = append(x). *)
  else
    let! y := index args 1 in
    let! tArray := sliceToArray (ssa.Type_ x) in
    let! w := nextNode in
    do! addNodes tArray in
    do! endObject w cgn (DataValue (ssa.call_id instr)) in
    let! tElem := arrayElem tArray in
    do! copyElems cgn tElem z y in                     (* *z = *y *)
    let! zn := valueNode z in
    addressOf zn w.                                    (*  z = &w *)

(** genBuiltinCall generates contraints for a call to a built-in. *)
Definition genBuiltinCall (instr : ssa.CallInstruction)
    (cgn : option cgnref) : M unit :=
  let call := ssa.Common instr in
  match ssa.cc_Value call with
  | ssa.Builtin _ _ name =>
      if bool_decide (name = "append"%string) then
        match instr with
        | ssa.ICall c => genAppend c cgn
        | _ => panic "interface conversion: not a *ssa.Call"
        end
      else if bool_decide (name = "copy"%string) then
        let! a0 := index (ssa.Args call) 0 in
        let! tElem := match types.Underlying (ssa.Type_ a0) with
                      | types.Slice e => ret e
                      | _ => panic "interface conversion: not a slice"
                      end in
        let! a1 := index (ssa.Args call) 1 in
        copyElems cgn tElem a0 a1
      else if bool_decide (name = "panic"%string) then
        let! a := get in
        let! a0 := index (ssa.Args call) 0 in
        let! n := valueNode a0 in
        copy (panicNode a) n 1
      else if bool_decide (name = "recover"%string) then
        match ssa.InstrValue_ instr with
        | Some v =>
            let! n := valueNode v in
            let! a := get in
            copy n (panicNode a) 1
        | None => ret tt
        end
      else if bool_decide (name = "print"%string) then
        let! a := get in
        if Print (config a) then
          let probe := default 0 (probes a !! ssa.cc_id call) in
          let! a0 := index (ssa.Args call) 0 in
          let t := ssa.Type_ a0 in
          (* First time?  Create the canonical probe node. *)
          let! probe :=
            if bool_decide (probe = 0) then
              let! probe := addNodes t in
              do! modify (set_probes
                            (fun m => <[ssa.cc_id call := probe]> m)) in
              (* notify client *)
              do! modify (set_printed
                            (fun l => l ++ [(ssa.cc_id call,
                                             mkPtr None probe)])) in
              ret probe
            else ret probe in
          let! n := valueNode a0 in
          copy probe n (sizeof t)
        else ret tt
      else
        (* No-ops: close len cap real imag complex println delete. *)
        ret tt
  | _ => panic "interface conversion: not a *ssa.Builtin"
  end.

Definition isNonBuiltinCall (instr : ssa.Instruction) : bool :=
  match instr with
  | ssa.InstrCall ci =>
      match ssa.cc_Value (ssa.Common ci) with
      | ssa.Builtin _ _ _ => false
      | _ => true
      end
  | _ => false
  end.

(** shouldUseContext defines the context-sensitivity policy.  It
    returns true if we should analyse all static calls to fn anew. *)
Definition shouldUseContext (fn : ssa.Function) : bool :=
  if bool_decide (findIntrinsic fn <> None) then
    true (* treat intrinsics context-sensitively *)
  else match ssa.Blocks fn with
  | [blk] =>
      if Nat.ltb 10 (length (ssa.Instrs blk)) then
        false (* too expensive *)
      else if negb (bool_decide (ssa.Synthetic fn = ""%string))
              && match ssa.Pkg fn with
                 | None => true
                 | Some pkg =>
                     negb (bool_decide
                             (Some (ssa.fn_id fn) = ssa.FuncInit pkg))
                 end
      then true (* treat synthetic wrappers context-sensitively *)
      else
        (* Disallow function calls (except to built-ins)
           because of the danger of unbounded recursion. *)
        negb (existsb isNonBuiltinCall (ssa.Instrs blk))
  | _ => false (* too expensive *)
  end.

(** The loop of genStaticCall that copies the actual parameters into
    the formal params block. *)
Fixpoint copyActuals (sig : types.Signature) (i : nat)
    (args : list ssa.Value) (params : nodeid) : M nodeid :=
  match args with
  | [] => ret params
  | arg :: args' =>
      let! t := index (types.Params sig) i in
      let sz := sizeof t in
      let! n := valueNode arg in
      do! copy params n sz in
      copyActuals sig (S i) args' (params + sz)
  end.

(** [site.targets = targets], a write through the pointer [site]. *)
Definition setTargets (site : siteref) (targets : nodeid) : M unit :=
  modify (set_callsites (fun l =>
    match l !! site with
    | Some cs => <[site := mkCallsite (cs_instr cs) targets]> l
    | None => l
    end)).

(** The contour a static call to [fn] from [site] is bound to: the
    first statement of genStaticCall. *)
Definition staticContour (fn : ssa.Function) (site : siteref) : M nodeid :=
  if shouldUseContext fn then
    makeFunctionObject fn (Some site)       (* new contour *)
  else
    objectNode None (ssa.VFunction fn).     (* shared contour *)

(** genStaticCall generates constraints for a statically dispatched
    function call. *)
Definition genStaticCall (caller : cgnref) (site : siteref)
    (call : ssa.CallCommon) (result : nodeid) : M unit :=
  (* Ascertain the context (contour/CGNode) for a particular call. *)
  let! fn := match ssa.StaticCallee call with
             | Some fn => ret fn
             | None => panic "nil pointer dereference"
             end in
  let! obj := staticContour fn site in
  let sig := ssa.cc_Signature call in
  let! targets := addOneNode (types.sigType sig) None in
  do! addressOf targets obj in (* (a singleton) *)
  (* Copy receiver, if any. *)
  let! params := funcParams obj in
  let args := ssa.Args call in
  let! (params, args) :=
    match types.Recv sig with
    | Some recv =>
        let sz := sizeof recv in
        let! a0 := index args 0 in
        let! n := valueNode a0 in
        do! copy params n sz in
        ret (params + sz, tl args)
    | None => ret (params, args)
    end in
  (* Copy actual parameters into formal params block. *)
  do! copyActuals sig 0 args params in
  (* Copy formal results block to actual result. *)
  do! when (negb (bool_decide (result = 0)))
        (let! r := funcResults obj in
         copy result r (sizeof (types.Tuple (types.Results sig)))) in
  (* pts(targets) will be the (singleton) set of possible call targets. *)
  setTargets site targets.

(** The last statement of generate, run once the queue [genq] is empty:
    the runtime magically allocates os.Args; so should we. *)
Definition generate_osArgs : M unit :=
  let! a := get in
  match osArgs a with
  | Some args =>
      (* In effect:  os.Args = new([1]string)[:] *)
      let! obj := addNodes (types.Array (types.Basic types.String) 1) in
      do! endObject obj None (DataString "<command-line args>") in
      let! o := objectNode None args in
      addressOf o obj
  | None => ret tt
  end.

(** *** The reflection intrinsics [reflect.TypeOf] and [reflect.Zero]

    A complex constraint is solved against a delta, a set of labels
    that the solver walks in some order: a list here. *)

(** Modelled from the spec: [addLabel] inserts a label into the
    points-to set of a node and reports whether the set grew, and
    [addWork] puts a node on the solver's worklist (section 4.5); the
    solver is not among the sources. *)
Definition addLabel (ptr label : nodeid) : M bool :=
  let! n := nodeAt ptr in
  if bool_decide (label ∈ n_pts n) then ret false
  else
    do! setNode ptr (mkNode (n_typ n) (n_subelement n) (n_obj n)
                       ({[label]} ∪ n_pts n)) in
    ret true.

Definition addWork (id : nodeid) : M unit :=
  modify (set_work (fun w => {[id]} ∪ w)).

(** The body of the loop of reflectTypeOfConstraint.solve. *)
Definition reflectTypeOf_step (result : nodeid) (changed : bool)
    (iObj : nodeid) : M bool :=
  let! (tDyn, _, _) := taggedValue iObj in
  match tDyn with
  | None => panic "not a tagged value"
  | Some tDyn =>
      let! id := makeRtype tDyn in
      let! c := addLabel result id in
      ret (c || changed)
  end.

(** [for x := range delta { changed = step changed x }]. *)
Fixpoint foldDelta (step : bool -> nodeid -> M bool) (changed : bool)
    (delta : list nodeid) : M bool :=
  match delta with
  | [] => ret changed
  | x :: delta' =>
      let! changed := step changed x in
      foldDelta step changed delta'
  end.

Definition reflectTypeOf_solve (cgn : cgnref) (i result : nodeid)
    (delta : list nodeid) : M unit :=
  let! changed := foldDelta (reflectTypeOf_step result) false delta in
  when changed (addWork result).

(** The body of the loop of reflectZeroConstraint.solve.  The test of
    the memo table reads [false && z != nil]: the first branch is never
    taken. *)
Definition reflectZero_step (cgn : cgnref) (result : nodeid)
    (changed : bool) (typObj : nodeid) : M bool :=
  let! T := rtypeTaggedValue typObj in
  (* memoize using a.reflectZeros[T] *)
  let! a := get in
  let z := tm_At (reflectZeros a) T in
  let! id :=
    if false && negb (bool_decide (z = None)) then ret (default 0 z)
    else
      let! id := makeTagged T (Some cgn) DataNil in
      do! modify (set_reflectZeros (fun m => tm_Set m T id)) in
      ret id in
  let! c := addLabel result id in
  ret (c || changed).

Definition reflectZero_solve (cgn : cgnref) (typ result : nodeid)
    (delta : list nodeid) : M unit :=
  let! changed := foldDelta (reflectZero_step cgn result) false delta in
  when changed (addWork result).

(** [cgn.obj] through the pointer [cgn]. *)
Definition cgnObj (cgn : cgnref) : M nodeid :=
  fun a => match cgnodes a !! cgn with
           | Some c => OK (cg_obj c) a
           | None => Panic "nil pointer dereference"
           end.

Definition ext_reflect_TypeOf (cgn : cgnref) : M unit :=
  let! o := cgnObj cgn in
  let! p := funcParams o in
  let! r := funcResults o in
  addConstraint (reflectTypeOfConstraint cgn p r).

Definition ext_reflect_Zero (cgn : cgnref) : M unit :=
  let! o := cgnObj cgn in
  let! p := funcParams o in
  let! r := funcResults o in
  addConstraint (reflectZeroConstraint cgn p r).

(** ** What the generator emits: auxiliary definitions *)

(** The constraints that [copy dst src n] adds when it is not trivial. *)
Fixpoint copyList (n : nat) (dst src : nodeid) : list constraint :=
  match n with
  | O => []
  | S n' => copyConstraint dst src
              :: copyList n' (wrap32 (dst + 1)) (wrap32 (src + 1))
  end.

Fixpoint loadList (n : nat) (dst src : nodeid) (offset : N)
    : list constraint :=
  match n with
  | O => []
  | S n' => loadConstraint offset dst src
              :: loadList n' (wrap32 (dst + 1)) src (wrap32 (offset + 1))
  end.

Fixpoint storeList (n : nat) (dst src : nodeid) (offset : N)
    : list constraint :=
  match n with
  | O => []
  | S n' => storeConstraint offset dst src
              :: storeList n' dst (wrap32 (src + 1)) (wrap32 (offset + 1))
  end.

(** Neither end of an [addr] or [copy] constraint is the node 0. *)
Definition endpoints_nonzero (c : constraint) : Prop :=
  match c with
  | addrConstraint dst obj => dst <> 0 /\ obj <> 0
  | copyConstraint dst src => dst <> 0 /\ src <> 0
  | _ => True
  end.

(** The nodes that [addNodes typ] appends. *)
Definition nodeOf (fi : fieldInfo) : node :=
  mkNode (fi_typ fi) (Some fi) None ∅.

Definition newNodes (typ : types.type) : list node :=
  map nodeOf (flatten typ).

Definition addCs (l : list constraint) (a : analysis) : analysis :=
  set_constraints (fun cs => cs ++ l) a.

Definition addNs (l : list node) (a : analysis) : analysis :=
  set_nodes (fun ns => ns ++ l) a.

(** The block of nodes that becomes an object: [endObject] pads an empty
    block with one invalid node and installs the header on the first
    node. *)
Definition setObj (n : node) (o : option object) : node :=
  mkNode (n_typ n) (n_subelement n) o (n_pts n).

Definition padIf (size : N) : list node :=
  if bool_decide (size = 0) then [mkNode tInvalid None None ∅] else [].

Definition install (o : object) (blk : list node) : list node :=
  match blk with
  | hd :: rest => setObj hd (Some o) :: rest
  | [] => []
  end.

Definition objectBlock (fl : objflags) (cgn : option cgnref)
    (data : objdata) (blk : list node) : list node :=
  let size := wrap32 (N.of_nat (length blk)) in
  install (mkObject size fl cgn data) (blk ++ padIf size).

(** The nodes of a tagged object of type [typ] and of the function object
    of [fn], before the header is installed. *)
Definition taggedBlock (typ : types.type) : list node :=
  mkNode typ None None ∅ :: newNodes typ.

Definition fnBlock (fn : ssa.Function) : list node :=
  let sig := ssa.Signature fn in
  mkNode (types.sigType sig) None None ∅
    :: match types.Recv sig with
       | Some recv => newNodes recv
       | None => []
       end
    ++ newNodes (types.Tuple (types.Params sig))
    ++ newNodes (types.Tuple (types.Results sig)).

(** The context-sensitivity policy.  [policy_spec] follows the words of
    the specification: a callee is cloned per call site when it is an
    intrinsic, or a synthetic wrapper, or short and simple.
    [policy_code] is the policy with the size test in front of the last
    two alternatives. *)
Definition isIntrinsic (fn : ssa.Function) : bool :=
  bool_decide (findIntrinsic fn <> None).

Definition isSyntheticWrapper (fn : ssa.Function) : bool :=
  negb (bool_decide (ssa.Synthetic fn = ""%string))
  && match ssa.Pkg fn with
     | None => true
     | Some pkg => negb (bool_decide (Some (ssa.fn_id fn) = ssa.FuncInit pkg))
     end.

Definition singleSmallBlock (fn : ssa.Function) : bool :=
  match ssa.Blocks fn with
  | [blk] => Nat.leb (length (ssa.Instrs blk)) 10
  | _ => false
  end.

Definition callsOnlyBuiltins (fn : ssa.Function) : bool :=
  forallb (fun blk => negb (existsb isNonBuiltinCall (ssa.Instrs blk)))
    (ssa.Blocks fn).

Definition policy_spec (fn : ssa.Function) : bool :=
  isIntrinsic fn || isSyntheticWrapper fn
  || (singleSmallBlock fn && callsOnlyBuiltins fn).

Definition policy_code (fn : ssa.Function) : bool :=
  isIntrinsic fn
  || (singleSmallBlock fn && (isSyntheticWrapper fn || callsOnlyBuiltins fn)).

(** Reading the node table: the dynamic type of a tagged object, the
    points-to set of a node. *)
Definition tagOf (a : analysis) (id : nodeid) : option types.type :=
  match nodes a !! N.to_nat id with
  | Some n =>
      match n_obj n with
      | Some o => if otTagged (o_flags o) then Some (n_typ n) else None
      | None => None
      end
  | None => None
  end.

Definition ptsOf (a : analysis) (id : nodeid) : gset N :=
  match nodes a !! N.to_nat id with
  | Some n => n_pts n
  | None => ∅
  end.

(** The nodes that the first [makeRtype T] appends: the rtype object, a
    single node, and the tagged object whose payload is retyped to [T]. *)
Definition rtypeNodes (T rp : types.type) (fi : fieldInfo)
    (rest : list fieldInfo) : list node :=
  let size2 := wrap32 (N.of_nat (S (S (length rest)))) in
  [mkNode T None (Some (mkObject 1 noFlags None (DataType T))) ∅;
   mkNode rp None
     (Some (mkObject size2 (setTagged noFlags) None (DataType T))) ∅;
   mkNode T (Some fi) None ∅]
  ++ map nodeOf rest ++ padIf size2.

Definition addWs (l : list (N * warning)) (a : analysis) : analysis :=
  set_warnings (fun ws => ws ++ l) a.

(** The object that generate allocates for [os.Args]. *)
Definition tArgsArray : types.type :=
  types.Array (types.Basic types.String) 1.

Definition argsBlock : list node :=
  objectBlock noFlags None (DataString "<command-line args>")
    (newNodes tArgsArray).

(** The object-header invariant: a header at node [i] with size [k]
    covers nodes that exist, and none of the nodes after [i] in
    [[i, i+k)] carries a header of its own. *)
Definition headerless (n : node) : Prop := n_obj n = None.

Definition wf (ns : list node) : Prop :=
  forall i n o,
    ns !! i = Some n -> n_obj n = Some o ->
    (i + N.to_nat (o_size o) <= length ns)%nat /\
    (forall j n', (i < j < i + N.to_nat (o_size o))%nat ->
                  ns !! j = Some n' -> headerless n').

(** [ext a a']: what every operation of the generator other than the
    print probe leaves in place or only extends. *)
Record ext (a a' : analysis) : Prop := mkExt {
  ext_config : config a' = config a;
  ext_probes : probes a' = probes a;
  ext_printed : printed a' = printed a;
  ext_localval : localval a' = localval a;
  ext_localobj : is_Some (localobj a) -> is_Some (localobj a');
  ext_nodes : exists ns, nodes a' = nodes a ++ ns;
  ext_constraints : exists cs, constraints a' = constraints a ++ cs;
  ext_wf : wf (nodes a) -> wf (nodes a')
}.

Definition preserves {A} (m : M A) : Prop :=
  forall a x a', m a = OK x a' -> ext a a'.

Definition keeps_wf {A} (m : M A) : Prop :=
  forall a x a', wf (nodes a) -> m a = OK x a' -> wf (nodes a').


(** A run of the generator as far as the print hook is concerned: a
    sequence of steps, each the generation of a call to [print] in some
    contour, or any other operation that leaves the probes alone. *)
Inductive gstep : Type :=
| GPrint (instr : ssa.CallInstruction) (cgn : option cgnref)
| GOther (m : M unit).

(** The call [print(p)] generated in two contours: genFunc installs the
    local values of the first contour, where [p] is the node 2, and
    later those of the second, where [p] is the node 3. *)
Definition printRun : list gstep :=
  [GOther (modify (set_localval (Some {[63 := 2]})));
   GPrint printExample (Some 0%nat);
   GOther (modify (set_localval (Some {[63 := 3]})));
   GPrint printExample (Some 1%nat)].

Definition runStep (s : gstep) : M unit :=
  match s with
  | GPrint instr cgn => genBuiltinCall instr cgn
  | GOther m => m
  end.

Definition isPrintCall (instr : ssa.CallInstruction) : Prop :=
  exists id t, ssa.cc_Value (ssa.Common instr) = ssa.Builtin id t "print".

(** The first argument exists and its type has at least one node. *)
Definition printArgOk (instr : ssa.CallInstruction) : Prop :=
  exists a0 rest, ssa.Args (ssa.Common instr) = a0 :: rest /\
                  flatten (ssa.Type_ a0) <> [].

(** [m] leaves the configuration, the probes and the record of the hook
    alone and only appends nodes.  Every operation of the generator
    other than [print] does, and so does genFunc when it replaces the
    maps of the local values on entering the next contour. *)
Definition leavesProbes (m : M unit) : Prop :=
  forall a a', m a = OK tt a' ->
    config a' = config a /\ probes a' = probes a /\ printed a' = printed a /\
    exists ns, nodes a' = nodes a ++ ns.

Definition validStep (s : gstep) : Prop :=
  match s with
  | GPrint instr cgn => isPrintCall instr /\ printArgOk instr
  | GOther m => leavesProbes m
  end.

(** The number of times the hook was invoked for the call site [call]. *)
Definition hookCalls (a : analysis) (call : N) : nat :=
  length (filter (fun p => p.1 = call) (printed a)).

Definition encountered (steps : list gstep) (call : N) : bool :=
  existsb (fun s => match s with
                    | GPrint instr _ =>
                        bool_decide (ssa.cc_id (ssa.Common instr) = call)
                    | GOther _ => false
                    end) steps.

Definition hasProbe (a : analysis) (call : N) : bool :=
  bool_decide (is_Some (probes a !! call)).

(** Every recorded probe is a node other than 0 and its call site has
    met the hook once; no other call site has met it. *)
Definition probesInv (a : analysis) : Prop :=
  forall call,
    match probes a !! call with
    | Some p => p <> 0 /\ hookCalls a call = 1%nat
    | None => hookCalls a call = 0%nat
    end.


(** Modelled from the spec: the solution of a set of constraints is the
    least assignment of points-to sets closed under the propagation
    rules of section 4.3.  [addr] inserts the object; [copy] flows all
    labels; [load], [store] and [offsetAddr] act on every label [o] of
    their pointer at the node [o+offset], a sum of node ids and so
    reduced modulo 2^32.  A constraint of another kind ([typeAssert],
    [invoke], a reflection intrinsic) propagates by a rule of its own:
    [complexRule c prem n o] says that the constraint [c], from the
    points-to facts [prem] (pairs of a node and one of its labels), puts
    the label [o] into the set of [n].  The solver is not among the
    sources, and nothing more is assumed of these rules.
    [pointsTo C n o]: the label [o] is in the points-to set of [n]. *)
Variable complexRule :
  constraint -> list (nodeid * nodeid) -> nodeid -> nodeid -> Prop.






(** ** More of the generator and of the reflection intrinsics *)

(** The loop of genDynamicCall that stores the actual parameters into
    the P/R block of the function value; it yields the offset reached. *)
Fixpoint storeActuals (caller : cgnref) (fnv : ssa.Value)
    (sig : types.Signature) (i : nat) (args : list ssa.Value) (offset : N)
    : M N :=
  match args with
  | [] => ret offset
  | arg :: args' =>
      let! t := index (types.Params sig) i in
      let sz := sizeof t in
      let! n := valueNode arg in
      do! genStore (Some caller) fnv n offset sz in
      storeActuals caller fnv sig (S i) args' (wrap32 (offset + sz))
  end.

(** genDynamicCall generates constraints for a dynamic function call. *)
Definition genDynamicCall (caller : cgnref) (site : siteref)
    (call : ssa.CallCommon) (result : nodeid) : M unit :=
  let! fn := valueNode (ssa.cc_Value call) in
  let sig := ssa.cc_Signature call in
  (* P/R block starts at offset 1 *)
  let! offset :=
    storeActuals caller (ssa.cc_Value call) sig 0 (ssa.Args call) 1 in
  do! when (negb (bool_decide (result = 0)))
        (genLoad (Some caller) result (ssa.cc_Value call) offset
           (sizeof (types.Tuple (types.Results sig)))) in
  (* pts(targets) will be the (singleton) set of possible call targets. *)
  setTargets site fn.

(** What the loop of genDynamicCall emits when the function value has
    the value node [f] and no known object, for arguments with the value
    nodes [ns] and parameters of the sizes [szs]; and the offset it
    reaches. *)
Fixpoint actualStores (f : nodeid) (szs : list N) (ns : list nodeid)
    (offset : N) : list constraint :=
  match szs, ns with
  | sz :: szs', n :: ns' =>
      (if bool_decide (n = 0) then []
       else storeList (N.to_nat sz) f n offset)
      ++ actualStores f szs' ns' (wrap32 (offset + sz))
  | _, _ => []
  end.

Definition offsetAfter (szs : list N) (offset : N) : N :=
  fold_left (fun off sz => wrap32 (off + sz)) szs offset.

(** What the loop of genStaticCall emits for arguments with the value
    nodes [ns] and parameters of the sizes [szs], from the node
    [params] of the callee on. *)
Fixpoint actualCopies (params : nodeid) (szs : list N) (ns : list nodeid)
    : list constraint :=
  match szs, ns with
  | sz :: szs', n :: ns' =>
      copyList (N.to_nat sz) params n ++ actualCopies (params + sz) szs' ns'
  | _, _ => []
  end.

(** The intrinsic of [reflect.ValueOf]. *)
Definition ext_reflect_ValueOf (cgn : cgnref) : M unit :=
  let! o := cgnObj cgn in
  let! r := funcResults o in
  let! p := funcParams o in
  copy r p 1.

(** *** Solving the reflection constraints

    As for TypeOf and Zero, the delta is a list of labels and the bodies
    of the loops are the [_step] functions.  [tDyn.Underlying()] on a
    label that is not a tagged object is a method call on a nil
    interface. *)

(** [a.nodes[tObj].obj.data.(types.Type)]: the type that the methods of
    [*reflect.rtype] read off an rtype label. *)
Definition rtypeData (tObj : nodeid) : M types.type :=
  let! n := nodeAt tObj in
  match n_obj n with
  | None => panic "nil pointer dereference"
  | Some o =>
      match o_data o with
      | DataType T => ret T
      | _ => panic "interface conversion: not a types.Type"
      end
  end.

(** result = v.Interface().  The points-to set of the result is taken
    by address before the loop; [nodeset.add] is the insertion that
    [addLabel] performs. *)
Definition rVInterface_step (result : nodeid) (changed : bool)
    (vObj : nodeid) : M bool :=
  let! (tDyn, _, indirect) := taggedValue vObj in
  match tDyn with
  | None => panic "not a tagged object"
  | Some _ =>
      if (indirect : bool) then panic "indirect tagged object"
      else
        let! c := addLabel result vObj in
        ret (c || changed)
  end.

Definition rVInterface_solve (v result : nodeid) (delta : list nodeid)
    : M unit :=
  let! _ := nodeAt result in
  let! changed := foldDelta (rVInterface_step result) false delta in
  when changed (addWork result).

(** result = v.MapIndex(_) *)
Definition rVMapIndex_step (cgn : cgnref) (result : nodeid) (changed : bool)
    (vObj : nodeid) : M bool :=
  let! (tDyn, m, indirect) := taggedValue vObj in
  match tDyn with
  | None => panic "nil pointer dereference"
  | Some t =>
      match types.Underlying t with
      | types.Map tKey tElem =>
          if (indirect : bool) then panic "indirect tagged object"
          else
            let! obj := makeTagged tElem (Some cgn) DataNil in
            do! load (obj + 1) m (sizeof tKey) (sizeof tElem) in
            let! c := addLabel result obj in
            ret (c || changed)
      | _ => ret changed (* not a map *)
      end
  end.

Definition rVMapIndex_solve (cgn : cgnref) (v result : nodeid)
    (delta : list nodeid) : M unit :=
  let! changed := foldDelta (rVMapIndex_step cgn result) false delta in
  when changed (addWork result).

(** result = v.MapKeys() *)
Definition rVMapKeys_step (cgn : cgnref) (result : nodeid) (changed : bool)
    (vObj : nodeid) : M bool :=
  let! (tDyn, m, indirect) := taggedValue vObj in
  match tDyn with
  | None => panic "nil pointer dereference"
  | Some t =>
      match types.Underlying t with
      | types.Map tKey _ =>
          if (indirect : bool) then panic "indirect tagged object"
          else
            let! kObj := makeTagged tKey (Some cgn) DataNil in
            do! load (kObj + 1) m 0 (sizeof tKey) in
            let! c := addLabel result kObj in
            ret (c || changed)
      | _ => ret changed (* not a map *)
      end
  end.

Definition rVMapKeys_solve (cgn : cgnref) (v result : nodeid)
    (delta : list nodeid) : M unit :=
  let! changed := foldDelta (rVMapKeys_step cgn result) false delta in
  when changed (addWork result).

(** result, _ = v.Recv() *)
Definition rVRecv_step (cgn : cgnref) (result : nodeid) (changed : bool)
    (vObj : nodeid) : M bool :=
  let! (tDyn, ch, indirect) := taggedValue vObj in
  match tDyn with
  | None => panic "nil pointer dereference"
  | Some t =>
      match types.Underlying t with
      | types.Chan tElem =>
          if (indirect : bool) then panic "indirect tagged object"
          else
            let! elemObj := makeTagged tElem (Some cgn) DataNil in
            do! load (elemObj + 1) ch 0 (sizeof tElem) in
            let! c := addLabel result elemObj in
            ret (c || changed)
      | _ => ret changed (* not a channel *)
      end
  end.

Definition rVRecv_solve (cgn : cgnref) (v result : nodeid)
    (delta : list nodeid) : M unit :=
  let! changed := foldDelta (rVRecv_step cgn result) false delta in
  when changed (addWork result).

(** v.Send(x) *)
Definition rVSend_step (cgn : cgnref) (x : nodeid) (vObj : nodeid)
    : M unit :=
  let! (tDyn, ch, indirect) := taggedValue vObj in
  match tDyn with
  | None => panic "nil pointer dereference"
  | Some t =>
      match types.Underlying t with
      | types.Chan tElem =>
          if (indirect : bool) then panic "indirect tagged object"
          else
            (* Extract x's payload to xtmp, then store to channel. *)
            let! xtmp := addNodes tElem in
            do! typeAssert tElem xtmp x in
            store ch xtmp 0 (sizeof tElem)
      | _ => ret tt (* not a channel *)
      end
  end.

Definition rVSend_solve (cgn : cgnref) (v x : nodeid) (delta : list nodeid)
    : M unit :=
  forEach delta (rVSend_step cgn x).

(** v.SetMapIndex(key, val) *)
Definition rVSetMapIndex_step (cgn : cgnref) (key val : nodeid)
    (vObj : nodeid) : M unit :=
  let! (tDyn, m, indirect) := taggedValue vObj in
  match tDyn with
  | None => panic "nil pointer dereference"
  | Some t =>
      match types.Underlying t with
      | types.Map tKey tElem =>
          if (indirect : bool) then panic "indirect tagged object"
          else
            let keysize := sizeof tKey in
            (* Extract key's payload to keytmp, then store to map key. *)
            let! keytmp := addNodes tKey in
            do! typeAssert tKey keytmp key in
            do! store m keytmp 0 keysize in
            (* Extract val's payload to vtmp, then store to map value. *)
            let! valtmp := addNodes tElem in
            do! typeAssert tElem valtmp val in
            store m valtmp keysize (sizeof tElem)
      | _ => ret tt (* not a map *)
      end
  end.

Definition rVSetMapIndex_solve (cgn : cgnref) (v key val : nodeid)
    (delta : list nodeid) : M unit :=
  forEach delta (rVSetMapIndex_step cgn key val).

(** result = Indirect(v) *)
Definition reflectIndirect_step (cgn : cgnref) (result : nodeid)
    (changed : bool) (vObj : nodeid) : M bool :=
  let! (tDyn, _, _) := taggedValue vObj in
  match tDyn with
  | None => panic "not a tagged value"
  | Some t =>
      let! res :=
        match types.Underlying t with
        | types.Pointer tElem =>
            (* load the payload of the pointer's tagged object
               into a new tagged object *)
            let! res := makeTagged tElem (Some cgn) DataNil in
            do! load (res + 1) (vObj + 1) 0 (sizeof tElem) in
            ret res
        | _ => ret vObj
        end in
      let! c := addLabel result res in
      ret (c || changed)
  end.

Definition reflectIndirect_solve (cgn : cgnref) (v result : nodeid)
    (delta : list nodeid) : M unit :=
  let! changed := foldDelta (reflectIndirect_step cgn result) false delta in
  when changed (addWork result).

(** result = MakeMap(typ) *)
Definition reflectMakeMap_step (cgn : cgnref) (result : nodeid)
    (changed : bool) (typObj : nodeid) : M bool :=
  let! T := rtypeTaggedValue typObj in
  match types.Underlying T with
  | types.Map tKey tElem =>
      let! mapObj := nextNode in
      do! addNodes tKey in
      do! addNodes tElem in
      do! endObject mapObj (Some cgn) DataNil in
      (* put its address in a new T-tagged object *)
      let! id := makeTagged T (Some cgn) DataNil in
      do! addLabel (id + 1) mapObj in
      (* flow the T-tagged object to the result *)
      let! c := addLabel result id in
      ret (c || changed)
  | _ => ret changed (* not a map type *)
  end.

Definition reflectMakeMap_solve (cgn : cgnref) (typ result : nodeid)
    (delta : list nodeid) : M unit :=
  let! changed := foldDelta (reflectMakeMap_step cgn result) false delta in
  when changed (addWork result).

(** result = New(typ) *)
Definition reflectNew_step (cgn : cgnref) (result : nodeid)
    (changed : bool) (typObj : nodeid) : M bool :=
  let! T := rtypeTaggedValue typObj in
  (* allocate new T object *)
  let! newObj := nextNode in
  do! addNodes T in
  do! endObject newObj (Some cgn) DataNil in
  (* put its address in a new *T-tagged object *)
  let! id := makeTagged (types.Pointer T) (Some cgn) DataNil in
  do! addLabel (id + 1) newObj in
  (* flow the pointer to the result *)
  let! c := addLabel result id in
  ret (c || changed).

Definition reflectNew_solve (cgn : cgnref) (typ result : nodeid)
    (delta : list nodeid) : M unit :=
  let! changed := foldDelta (reflectNew_step cgn result) false delta in
  when changed (addWork result).

(** The types with an [Elem] method: Map, Chan, Array, Slice, Pointer. *)
Definition elemOf (t : types.type) : option types.type :=
  match t with
  | types.Map _ e | types.Chan e | types.Array e _ | types.Slice e
  | types.Pointer e => Some e
  | _ => None
  end.

(** result = Elem(t) *)
Definition rtypeElem_step (result : nodeid) (changed : bool)
    (tObj : nodeid) : M bool :=
  let! T := rtypeData tObj in
  match elemOf (types.Underlying T) with
  | Some e =>
      let! id := makeRtype e in
      let! c := addLabel result id in
      ret (c || changed)
  | None => ret changed
  end.

Definition rtypeElem_solve (cgn : cgnref) (t result : nodeid)
    (delta : list nodeid) : M unit :=
  let! changed := foldDelta (rtypeElem_step result) false delta in
  when changed (addWork result).

(** result = Key(t) *)
Definition rtypeKey_step (result : nodeid) (changed : bool)
    (tObj : nodeid) : M bool :=
  let! T := rtypeData tObj in
  match types.Underlying T with
  | types.Map tKey _ =>
      let! id := makeRtype tKey in
      let! c := addLabel result id in
      ret (c || changed)
  | _ => ret changed
  end.

Definition rtypeKey_solve (cgn : cgnref) (t result : nodeid)
    (delta : list nodeid) : M unit :=
  let! changed := foldDelta (rtypeKey_step result) false delta in
  when changed (addWork result).

(** result = In/Out(t): the inner loop over the tuple. *)
Fixpoint rtypeInOut_tuple (result : nodeid) (changed : bool)
    (tuple : list types.type) : M bool :=
  match tuple with
  | [] => ret changed
  | t :: tuple' =>
      let! id := makeRtype t in
      let! c := addLabel result id in
      rtypeInOut_tuple result (c || changed) tuple'
  end.

Definition rtypeInOut_step (out : bool) (result : nodeid) (changed : bool)
    (tObj : nodeid) : M bool :=
  let! T := rtypeData tObj in
  match types.asSignature (types.Underlying T) with
  | Some sig =>
      rtypeInOut_tuple result changed
        (if out then types.Results sig else types.Params sig)
  | None => ret changed (* not a func type *)
  end.

Definition rtypeInOut_solve (cgn : cgnref) (t result : nodeid) (out : bool)
    (delta : list nodeid) : M unit :=
  let! changed := foldDelta (rtypeInOut_step out result) false delta in
  when changed (addWork result).

(** ** Frames and invariants of the added properties *)

(** [m] leaves the component [f] of the state as it was. *)
Definition keeps {X A} (f : analysis -> X) (m : M A) : Prop :=
  forall a x a', m a = OK x a' -> f a' = f a.

(** Every recorded rtype id denotes its type, for both readings. *)
Definition rtypesOK (a : analysis) : Prop :=
  forall T id, tm_At (rtypes a) T = Some id ->
    rtypeTaggedValue id a = OK T a /\ rtypeData id a = OK T a.

(** [grows a a']: the node table is extended, the nodes that existed
    keep their type and their header, the points-to sets, the
    constraints, the recorded rtypes and the worklist only grow. *)
Record grows (a a' : analysis) : Prop := mkGrows {
  grows_rtypePtr : reflectRtypePtr a' = reflectRtypePtr a;
  grows_nodes :
    forall i n, nodes a !! i = Some n ->
      exists n', nodes a' !! i = Some n' /\ n_typ n' = n_typ n /\
                 n_obj n' = n_obj n /\ n_pts n ⊆ n_pts n';
  grows_constraints : exists cs, constraints a' = constraints a ++ cs;
  grows_rtypes :
    forall T id, tm_At (rtypes a) T = Some id ->
                 tm_At (rtypes a') T = Some id;
  grows_work : work a ⊆ work a'
}.

Definition monotone {A} (m : M A) : Prop :=
  forall a x a', m a = OK x a' -> grows a a'.

(** [m] keeps the property [P] of the state. *)
Definition holds {A} (P : analysis -> Prop) (m : M A) : Prop :=
  forall a x a', P a -> m a = OK x a' -> P a'.

(** The object-header invariant as a property of the state. *)
Definition wfState (a : analysis) : Prop := wf (nodes a).

(** ** Basic facts about the monad and the primitives *)

Lemma bind_OK {A B} (m : M A) (k : A -> M B) a y a2 :
  bind m k a = OK y a2 <-> exists x a1, m a = OK x a1 /\ k x a1 = OK y a2.
Proof.
  unfold bind. destruct (m a) as [x a1|msg]; split.
  - intros H. exists x, a1. auto.
  - intros (x' & a1' & H1 & H2). inversion H1; subst. exact H2.
  - discriminate.
  - intros (x' & a1' & H1 & _). discriminate.
Qed.

Lemma bind_run {A B} (m : M A) (k : A -> M B) a x a1 :
  m a = OK x a1 -> bind m k a = k x a1.
Proof. unfold bind. intros ->. reflexivity. Qed.

Lemma bind_assoc {A B C} (m : M A) (f : A -> M B) (g : B -> M C) a :
  bind (bind m f) g a = bind m (fun x => bind (f x) g) a.
Proof. unfold bind. destruct (m a); reflexivity. Qed.

Lemma bind_ret {A B} (x : A) (k : A -> M B) a : bind (ret x) k a = k x a.
Proof. reflexivity. Qed.

Lemma addNs_nil a : addNs [] a = a.
Proof. destruct a. unfold addNs, set_nodes. simpl. rewrite app_nil_r. reflexivity. Qed.

Lemma addCs_nil a : addCs [] a = a.
Proof. destruct a. unfold addCs, set_constraints. simpl. rewrite app_nil_r. reflexivity. Qed.

Lemma addNs_app l1 l2 a : addNs l2 (addNs l1 a) = addNs (l1 ++ l2) a.
Proof. unfold addNs, set_nodes. simpl. rewrite app_assoc. reflexivity. Qed.

Lemma addCs_app l1 l2 a : addCs l2 (addCs l1 a) = addCs (l1 ++ l2) a.
Proof. unfold addCs, set_constraints. simpl. rewrite app_assoc. reflexivity. Qed.

Lemma addOneNode_run t s a :
  addOneNode t s a
  = OK (N.of_nat (length (nodes a))) (addNs [mkNode t s None ∅] a).
Proof. reflexivity. Qed.

Lemma forEach_addOneNode l a :
  forEach l (fun fi => do! addOneNode (fi_typ fi) (Some fi) in ret tt) a
  = OK tt (addNs (map nodeOf l) a).
Proof.
  revert a. induction l as [|fi l IH]; intros a; simpl.
  - rewrite addNs_nil. reflexivity.
  - unfold bind at 1. simpl. rewrite IH.
    change (set_nodes _ a) with (addNs [nodeOf fi] a).
    rewrite addNs_app. reflexivity.
Qed.

Lemma addNodes_run typ a :
  addNodes typ a
  = OK (if flatten typ is [] then 0 else N.of_nat (length (nodes a)))
       (addNs (newNodes typ) a).
Proof.
  unfold addNodes, bind. simpl. rewrite forEach_addOneNode. simpl.
  unfold newNodes. rewrite length_app, length_map.
  destruct (flatten typ) as [|fi l]; simpl.
  - rewrite Nat.add_0_r. rewrite decide_True by reflexivity. reflexivity.
  - rewrite decide_False by lia. reflexivity.
Qed.

Lemma objectBlock_cons fl cgn data blk :
  exists hd rest,
    blk ++ padIf (wrap32 (N.of_nat (length blk))) = hd :: rest /\
    objectBlock fl cgn data blk
    = setObj hd (Some (mkObject (wrap32 (N.of_nat (length blk))) fl cgn data))
        :: rest.
Proof.
  unfold objectBlock. destruct blk as [|hd rest]; simpl.
  - eexists _, _. split; reflexivity.
  - eexists _, _. split; reflexivity.
Qed.

Lemma endObject_run blk cgn data a :
  endObject (N.of_nat (length (nodes a))) cgn data (addNs blk a)
  = OK (N.of_nat (length (nodes a))) (addNs (objectBlock noFlags cgn data blk) a).
Proof.
  unfold endObject, bind, nextNode. cbn [nodes addNs set_nodes].
  rewrite length_app.
  rewrite decide_False by lia.
  replace (N.of_nat (length (nodes a) + length blk) - N.of_nat (length (nodes a)))
    with (N.of_nat (length blk)) by lia.
  destruct (objectBlock_cons noFlags cgn data blk) as (hd & rest & Hb & Ho).
  rewrite Ho. unfold padIf in Hb. unfold when.
  set (sz := wrap32 (N.of_nat (length blk))) in *.
  destruct (bool_decide (sz = 0)) eqn:E.
  - unfold bind, addOneNode, nextNode, modify, ret, bind, nodeAt, setNode, modify.
    cbn [nodes addNs set_nodes]. rewrite Nat2N.id.
    rewrite <- app_assoc, Hb.
    rewrite list_lookup_middle by reflexivity.
    unfold addNs, set_nodes. cbn.
    f_equal. f_equal.
    rewrite <- app_assoc, Hb.
    rewrite insert_app_r_alt by lia. rewrite Nat.sub_diag. reflexivity.
  - rewrite app_nil_r in Hb. subst blk.
    unfold ret, nodeAt, setNode, modify.
    cbn [nodes addNs set_nodes]. rewrite Nat2N.id.
    rewrite list_lookup_middle by reflexivity.
    unfold addNs, set_nodes. cbn.
    f_equal. f_equal.
    rewrite insert_app_r_alt by lia. rewrite Nat.sub_diag. reflexivity.
Qed.

Lemma orFlags_run f fl cgn data blk a :
  orFlags (N.of_nat (length (nodes a))) f (addNs (objectBlock fl cgn data blk) a)
  = OK tt (addNs (objectBlock (f fl) cgn data blk) a).
Proof.
  destruct (objectBlock_cons fl cgn data blk) as (hd & rest & Hb & Ho).
  destruct (objectBlock_cons (f fl) cgn data blk) as (hd' & rest' & Hb' & Ho').
  rewrite Hb in Hb'. inversion Hb'; subst hd' rest'. clear Hb'.
  rewrite Ho, Ho'.
  unfold orFlags, bind, nodeAt. cbn [nodes addNs set_nodes].
  rewrite Nat2N.id. rewrite list_lookup_middle by reflexivity.
  cbn. unfold setNode, modify, addNs, set_nodes. cbn.
  f_equal. f_equal. rewrite Nat2N.id.
  rewrite insert_app_r_alt by lia. rewrite Nat.sub_diag. reflexivity.
Qed.

Ltac run_with L := erewrite bind_run by (apply L).
Ltac run_refl := erewrite bind_run by reflexivity.
Ltac hrun_with L H := erewrite bind_run in H by (apply L).
Ltac hrun_refl H := erewrite bind_run in H by reflexivity.

Lemma makeTagged_run typ cgn data a :
  makeTagged typ cgn data a
  = OK (N.of_nat (length (nodes a)))
       (addNs (objectBlock (setTagged noFlags) cgn data (taggedBlock typ)) a).
Proof.
  unfold makeTagged.
  run_with addOneNode_run. run_with addNodes_run.
  rewrite addNs_app.
  run_with endObject_run. run_with orFlags_run.
  reflexivity.
Qed.

Lemma makeFunctionObject_run fn cs a :
  makeFunctionObject fn cs a
  = OK (N.of_nat (length (nodes a)))
       (set_genq (fun q => q ++ [length (cgnodes a)])
          (addNs (objectBlock (setFunction noFlags)
                    (Some (length (cgnodes a)))
                    (DataValue (ssa.fn_id fn)) (fnBlock fn))
             (set_cgnodes
                (fun l => l ++ [mkCgnode fn (N.of_nat (length (nodes a))) cs []])
                a))).
Proof.
  unfold makeFunctionObject.
  run_refl. run_refl. run_with addOneNode_run.
  set (a1 := set_cgnodes _ a).
  assert (Hrecv :
    (match types.Recv (ssa.Signature fn) with
     | Some recv => do! addNodes recv in ret tt
     | None => ret tt
     end) (addNs [mkNode (types.sigType (ssa.Signature fn)) None None ∅] a1)
    = OK tt (addNs (mkNode (types.sigType (ssa.Signature fn)) None None ∅
                      :: match types.Recv (ssa.Signature fn) with
                         | Some recv => newNodes recv
                         | None => []
                         end) a1)).
  { destruct (types.Recv (ssa.Signature fn)) as [recv|].
    - run_with addNodes_run. rewrite addNs_app. reflexivity.
    - reflexivity. }
  run_with Hrecv. run_with addNodes_run. rewrite addNs_app.
  run_with addNodes_run. rewrite addNs_app.
  change (N.of_nat (length (nodes a))) with (N.of_nat (length (nodes a1))).
  run_with endObject_run. run_with orFlags_run.
  unfold fnBlock. simpl. rewrite <- !app_assoc. reflexivity.
Qed.

Lemma copyLoop_run n dst src a :
  copyLoop n dst src a = OK tt (addCs (copyList n dst src) a).
Proof.
  revert dst src a. induction n as [|n IH]; intros dst src a; simpl.
  - rewrite addCs_nil. reflexivity.
  - unfold bind. simpl. rewrite IH.
    change (set_constraints _ a) with (addCs [copyConstraint dst src] a).
    rewrite addCs_app. reflexivity.
Qed.

Lemma loadLoop_run n dst src off a :
  loadLoop n dst src off a = OK tt (addCs (loadList n dst src off) a).
Proof.
  revert dst off a. induction n as [|n IH]; intros dst off a; simpl.
  - rewrite addCs_nil. reflexivity.
  - unfold bind. simpl. rewrite IH.
    change (set_constraints _ a) with (addCs [loadConstraint off dst src] a).
    rewrite addCs_app. reflexivity.
Qed.

Lemma storeLoop_run n dst src off a :
  storeLoop n dst src off a = OK tt (addCs (storeList n dst src off) a).
Proof.
  revert src off a. induction n as [|n IH]; intros src off a; simpl.
  - rewrite addCs_nil. reflexivity.
  - unfold bind. simpl. rewrite IH.
    change (set_constraints _ a) with (addCs [storeConstraint off dst src] a).
    rewrite addCs_app. reflexivity.
Qed.

Lemma wrap32_small x : x < 2 ^ 32 -> wrap32 x = x.
Proof. intros H. unfold wrap32. apply N.mod_small. exact H. Qed.

Lemma wrap32_bound x : wrap32 x < 2 ^ 32.
Proof. unfold wrap32. apply N.mod_lt. discriminate. Qed.

Lemma wrap32_step x i : wrap32 (wrap32 (x + 1) + i) = wrap32 (x + (1 + i)).
Proof.
  unfold wrap32. rewrite N.Div0.add_mod_idemp_l. f_equal. lia.
Qed.

(** The [i]-th constraint of a copy: both ends have advanced [i] times
    in [uint32]. *)
Lemma lookup_copyList n : forall dst src i,
  dst < 2 ^ 32 -> src < 2 ^ 32 -> (i < n)%nat ->
  copyList n dst src !! i
  = Some (copyConstraint (wrap32 (dst + N.of_nat i))
            (wrap32 (src + N.of_nat i))).
Proof.
  induction n as [|n IH]; intros dst src i Hd Hs Hi; [lia|].
  destruct i as [|i]; cbn [copyList]; rewrite ?lookup_cons.
  - change (N.of_nat 0) with 0. rewrite !N.add_0_r.
    rewrite !wrap32_small by assumption. reflexivity.
  - rewrite IH by (try apply wrap32_bound; lia).
    rewrite !wrap32_step.
    replace (1 + N.of_nat i) with (N.of_nat (S i)) by lia. reflexivity.
Qed.

Lemma copyList_nonzero n dst src :
  dst <> 0 -> src <> 0 ->
  dst + N.of_nat n <= 2 ^ 32 -> src + N.of_nat n <= 2 ^ 32 ->
  Forall endpoints_nonzero (copyList n dst src).
Proof.
  revert dst src. induction n as [|n IH]; intros dst src Hd Hs Hdn Hsn; simpl.
  - constructor.
  - constructor; [split; assumption|].
    destruct n as [|n']; [constructor|].
    rewrite !wrap32_small by lia. apply IH; lia.
Qed.

(** ** Node 0 as an endpoint (claim C5) *)

(** C5.  [addressOf] panics exactly when its destination or its object
    is 0 and otherwise adds the one constraint [addr{id, obj}], so no
    emitted [addr] constraint has the node 0 at either end.  [copy]
    adds nothing when [src = dst] or [sizeof = 0], panics when it is not
    trivial and [src] or [dst] is 0, and otherwise adds [sizeof]
    constraints, the [i]-th being [copy{dst+i, src+i}] with both ids
    reduced modulo 2^32.  The first of them has no end at the node 0;
    none has when neither block runs past the last node id
    ([dst+sizeof <= 2^32] and [src+sizeof <= 2^32]); and a block
    that reaches the id 2^32 has the node 0 as an endpoint. *)
Theorem zero_is_never_an_endpoint :
  (forall id obj a,
      match addressOf id obj a with
      | OK _ a' => id <> 0 /\ obj <> 0 /\
                   a' = addCs [addrConstraint id obj] a /\
                   endpoints_nonzero (addrConstraint id obj)
      | Panic _ => id = 0 \/ obj = 0
      end) /\
  (forall dst src sizeof a,
      match copy dst src sizeof a with
      | OK _ a' =>
          if bool_decide (src = dst) || bool_decide (sizeof = 0)
          then a' = a
          else src <> 0 /\ dst <> 0 /\
               a' = addCs (copyList (N.to_nat sizeof) dst src) a /\
               copyList (N.to_nat sizeof) dst src !! 0%nat
               = Some (copyConstraint dst src) /\
               (dst + sizeof <= 2 ^ 32 -> src + sizeof <= 2 ^ 32 ->
                Forall endpoints_nonzero
                  (copyList (N.to_nat sizeof) dst src))
      | Panic _ => src <> dst /\ sizeof <> 0 /\ (src = 0 \/ dst = 0)
      end) /\
  (forall dst src sizeof i,
      dst < 2 ^ 32 -> src < 2 ^ 32 -> i < sizeof ->
      copyList (N.to_nat sizeof) dst src !! N.to_nat i
      = Some (copyConstraint (wrap32 (dst + i)) (wrap32 (src + i)))) /\
  (forall dst src sizeof i,
      dst < 2 ^ 32 -> src < 2 ^ 32 -> i < sizeof ->
      dst + i = 2 ^ 32 \/ src + i = 2 ^ 32 ->
      ~ Forall endpoints_nonzero (copyList (N.to_nat sizeof) dst src)).
Proof.
  assert (Hith : forall dst src sizeof i,
      dst < 2 ^ 32 -> src < 2 ^ 32 -> i < sizeof ->
      copyList (N.to_nat sizeof) dst src !! N.to_nat i
      = Some (copyConstraint (wrap32 (dst + i)) (wrap32 (src + i)))).
  { intros dst src sz i Hd Hs Hi.
    rewrite lookup_copyList by (try assumption; lia).
    rewrite N2Nat.id. reflexivity. }
  split; [|split; [|split; [exact Hith|]]].
  - intros id obj a. unfold addressOf.
    repeat case_bool_decide; simpl; auto.
  - intros dst src sz a. unfold copy.
    destruct (bool_decide (src = dst)) eqn:E1; simpl; [reflexivity|].
    destruct (bool_decide (sz = 0)) eqn:E2; simpl; [reflexivity|].
    apply bool_decide_eq_false in E1, E2.
    destruct (bool_decide (src = 0)) eqn:E3;
      [apply bool_decide_eq_true in E3; simpl; auto|].
    destruct (bool_decide (dst = 0)) eqn:E4;
      [apply bool_decide_eq_true in E4; simpl; auto|].
    apply bool_decide_eq_false in E3, E4. simpl.
    rewrite copyLoop_run. repeat split; auto.
    + destruct (N.to_nat sz) as [|k] eqn:Ek; [lia|reflexivity].
    + intros Hd Hs. apply copyList_nonzero; try assumption; lia.
  - intros dst src sz i Hd Hs Hi Hz Hall.
    rewrite Forall_lookup in Hall.
    specialize (Hall _ _ (Hith dst src sz i Hd Hs Hi)).
    destruct Hall as [Hdz Hsz]. unfold wrap32 in Hdz, Hsz.
    destruct Hz as [Hz|Hz]; rewrite Hz in *;
      [apply Hdz|apply Hsz]; reflexivity.
Qed.

(** ** The object-header invariant and the frame of the generator *)

Lemma wrap32_le x : wrap32 x <= x.
Proof. unfold wrap32. apply N.Div0.mod_le. Qed.

Lemma headerless_newNodes typ : Forall headerless (newNodes typ).
Proof.
  unfold newNodes. apply Forall_forall. intros n Hn.
  apply list_elem_of_fmap in Hn as (fi & -> & _). reflexivity.
Qed.

Lemma headerless_padIf k : Forall headerless (padIf k).
Proof.
  unfold padIf. destruct (bool_decide _); repeat constructor.
Qed.

Lemma wf_app_plain ns l : wf ns -> Forall headerless l -> wf (ns ++ l).
Proof.
  intros Hwf Hl i n o Hi Ho.
  destruct (decide (i < length ns)%nat) as [Hlt|Hge].
  - rewrite lookup_app_l in Hi by exact Hlt.
    destruct (Hwf i n o Hi Ho) as [Hb Hr]. split.
    + rewrite length_app. lia.
    + intros j n' Hj Hn'. rewrite lookup_app_l in Hn' by lia.
      eapply Hr; eauto.
  - rewrite lookup_app_r in Hi by lia.
    apply list_elem_of_lookup_2 in Hi.
    rewrite Forall_forall in Hl. specialize (Hl n Hi).
    unfold headerless in Hl. congruence.
Qed.

Lemma wf_app_block ns blk fl cgn data :
  wf ns -> Forall headerless blk ->
  wf (ns ++ objectBlock fl cgn data blk).
Proof.
  intros Hwf Hblk i n o Hi Ho.
  destruct (objectBlock_cons fl cgn data blk) as (hd & rest & Hb & Hob).
  assert (Hrest : Forall headerless rest).
  { assert (H : Forall headerless (hd :: rest)).
    { rewrite <- Hb. apply Forall_app. split; [exact Hblk|].
      apply headerless_padIf. }
    inversion H; assumption. }
  assert (Hlen : (length blk <= S (length rest))%nat).
  { apply (f_equal length) in Hb. rewrite length_app in Hb. simpl in Hb. lia. }
  rewrite Hob in *.
  destruct (decide (i < length ns)%nat) as [Hlt|Hge].
  - rewrite lookup_app_l in Hi by exact Hlt.
    destruct (Hwf i n o Hi Ho) as [Hbd Hr]. split.
    + rewrite length_app. lia.
    + intros j n' Hj Hn'. rewrite lookup_app_l in Hn' by lia.
      eapply Hr; eauto.
  - rewrite lookup_app_r in Hi by lia.
    destruct (i - length ns)%nat as [|k] eqn:Ek; simpl in Hi.
    + inversion Hi; subst n. simpl in Ho. inversion Ho; subst o. simpl.
      pose proof (wrap32_le (N.of_nat (length blk))) as Hw.
      split.
      * rewrite length_app. simpl. lia.
      * intros j n' Hj Hn'. rewrite lookup_app_r in Hn' by lia.
        destruct (j - length ns)%nat as [|k'] eqn:Ek'; [lia|].
        simpl in Hn'. apply list_elem_of_lookup_2 in Hn'.
        rewrite Forall_forall in Hrest. apply Hrest. exact Hn'.
    + apply list_elem_of_lookup_2 in Hi.
      rewrite Forall_forall in Hrest. specialize (Hrest n Hi).
      unfold headerless in Hrest. congruence.
Qed.

Lemma ext_refl a : ext a a.
Proof.
  split; auto.
  - exists []. rewrite app_nil_r. reflexivity.
  - exists []. rewrite app_nil_r. reflexivity.
Qed.

Lemma ext_trans a b c : ext a b -> ext b c -> ext a c.
Proof.
  intros [] []. split; try congruence; auto.
  - destruct ext_nodes0 as [n1 H1], ext_nodes1 as [n2 H2].
    exists (n1 ++ n2). rewrite H2, H1, app_assoc. reflexivity.
  - destruct ext_constraints0 as [c1 H1], ext_constraints1 as [c2 H2].
    exists (c1 ++ c2). rewrite H2, H1, app_assoc. reflexivity.
Qed.

Lemma ext_addNs_plain l a : Forall headerless l -> ext a (addNs l a).
Proof.
  intros Hl. split; auto.
  - exists l. reflexivity.
  - exists []. cbn. rewrite app_nil_r. reflexivity.
  - intros Hwf. apply wf_app_plain; assumption.
Qed.

Lemma ext_addNs_block fl cgn data blk a :
  Forall headerless blk -> ext a (addNs (objectBlock fl cgn data blk) a).
Proof.
  intros Hl. split; auto.
  - eexists. reflexivity.
  - exists []. cbn. rewrite app_nil_r. reflexivity.
  - intros Hwf. apply wf_app_block; assumption.
Qed.

Lemma ext_addCs l a : ext a (addCs l a).
Proof.
  split; auto.
  - exists []. cbn. rewrite app_nil_r. reflexivity.
  - exists l. reflexivity.
Qed.

(** The frame rules of the monad. *)
Lemma preserves_ret {A} (x : A) : preserves (ret x).
Proof. intros a y a' H. inversion H; subst. apply ext_refl. Qed.

Lemma preserves_panic {A} msg : preserves (@panic A msg).
Proof. intros a y a' H. discriminate H. Qed.

Lemma preserves_bind_panic {A B} msg (k : A -> M B) :
  preserves (bind (panic msg) k).
Proof. intros a y a' H. discriminate H. Qed.

Lemma preserves_get : preserves get.
Proof. intros a y a' H. inversion H; subst. apply ext_refl. Qed.

Lemma preserves_bind {A B} (m : M A) (k : A -> M B) :
  preserves m -> (forall x, preserves (k x)) -> preserves (bind m k).
Proof.
  intros Hm Hk a y a' H. apply bind_OK in H as (x & a1 & H1 & H2).
  eapply ext_trans; [eapply Hm | eapply Hk]; eassumption.
Qed.

Lemma preserves_when c m : preserves m -> preserves (when c m).
Proof. intros Hm. destruct c; [exact Hm | apply preserves_ret]. Qed.

Lemma preserves_forEach {A} (l : list A) f :
  (forall x, preserves (f x)) -> preserves (forEach l f).
Proof.
  intros Hf. induction l as [|x l IH]; simpl.
  - apply preserves_ret.
  - apply preserves_bind; [apply Hf | intros _; exact IH].
Qed.

Lemma preserves_state {A} (m : M A) :
  (forall a x a', m a = OK x a' -> a' = a) -> preserves m.
Proof. intros H a x a' Hm. rewrite (H a x a' Hm). apply ext_refl. Qed.

Lemma preserves_nextNode : preserves nextNode.
Proof. apply preserves_state. intros a x a' H. inversion H; auto. Qed.

Lemma preserves_nodeAt id : preserves (nodeAt id).
Proof.
  apply preserves_state. intros a x a'. unfold nodeAt.
  destruct (_ !! _); intros H; inversion H; auto.
Qed.

Lemma preserves_index {A} (l : list A) i : preserves (index l i).
Proof.
  unfold index. destruct (l !! i); [apply preserves_ret | apply preserves_panic].
Qed.

Lemma preserves_addOneNode t s : preserves (addOneNode t s).
Proof.
  intros a x a' H. rewrite addOneNode_run in H. inversion H; subst.
  apply ext_addNs_plain. repeat constructor.
Qed.

Lemma preserves_addNodes t : preserves (addNodes t).
Proof.
  intros a x a' H. rewrite addNodes_run in H. inversion H; subst.
  apply ext_addNs_plain. apply headerless_newNodes.
Qed.

Lemma preserves_addConstraint c : preserves (addConstraint c).
Proof.
  intros a x a' H. inversion H; subst. apply (ext_addCs [c]).
Qed.

Lemma preserves_copy dst src n : preserves (copy dst src n).
Proof.
  intros a x a'. unfold copy.
  destruct (_ || _); [intros H; inversion H; apply ext_refl|].
  destruct (_ || _); [discriminate|].
  rewrite copyLoop_run. intros H. inversion H. apply ext_addCs.
Qed.

Lemma preserves_load dst src off n : preserves (load dst src off n).
Proof.
  intros a x a'. unfold load.
  destruct (bool_decide (dst = 0)); [intros H; inversion H; apply ext_refl|].
  destruct (_ && _); [intros H; inversion H; apply ext_refl|].
  destruct (_ || _); [discriminate|].
  rewrite loadLoop_run. intros H. inversion H. apply ext_addCs.
Qed.

Lemma preserves_store dst src off n : preserves (store dst src off n).
Proof.
  intros a x a'. unfold store.
  destruct (bool_decide (src = 0)); [intros H; inversion H; apply ext_refl|].
  destruct (_ && _); [intros H; inversion H; apply ext_refl|].
  destruct (_ || _); [discriminate|].
  rewrite storeLoop_run. intros H. inversion H. apply ext_addCs.
Qed.

Lemma preserves_addressOf id obj : preserves (addressOf id obj).
Proof.
  unfold addressOf. repeat case_bool_decide; try apply preserves_panic.
  apply preserves_addConstraint.
Qed.

Lemma preserves_makeTagged typ cgn data : preserves (makeTagged typ cgn data).
Proof.
  intros a x a' H. rewrite makeTagged_run in H. inversion H; subst.
  apply ext_addNs_block. constructor; [reflexivity|].
  apply headerless_newNodes.
Qed.

Lemma headerless_fnBlock fn : Forall headerless (fnBlock fn).
Proof.
  unfold fnBlock. constructor; [reflexivity|].
  repeat (apply Forall_app; split); try apply headerless_newNodes.
  destruct (types.Recv _); [apply headerless_newNodes | constructor].
Qed.

Lemma ext_same a a' :
  config a' = config a -> probes a' = probes a -> printed a' = printed a ->
  localval a' = localval a -> (is_Some (localobj a) -> is_Some (localobj a')) ->
  nodes a' = nodes a -> constraints a' = constraints a -> ext a a'.
Proof.
  intros H1 H2 H3 H4 H5 H6 H7. split; auto.
  - exists []. rewrite app_nil_r. exact H6.
  - exists []. rewrite app_nil_r. exact H7.
  - rewrite H6. auto.
Qed.

Lemma preserves_makeFunctionObject fn cs :
  preserves (makeFunctionObject fn cs).
Proof.
  intros a x a' H. rewrite makeFunctionObject_run in H.
  inversion H; subst; clear H.
  set (a1 := set_cgnodes _ a). set (a2 := addNs _ a1).
  apply (ext_trans a a1); [apply ext_same; auto|].
  apply (ext_trans a1 a2);
    [apply ext_addNs_block, headerless_fnBlock | apply ext_same; auto].
Qed.

Lemma preserves_modify_same f :
  (forall a, config (f a) = config a /\ probes (f a) = probes a /\
             printed (f a) = printed a /\ localval (f a) = localval a /\
             (is_Some (localobj a) -> is_Some (localobj (f a))) /\
             nodes (f a) = nodes a /\ constraints (f a) = constraints a) ->
  preserves (modify f).
Proof.
  intros Hf a x a' H. inversion H; subst.
  destruct (Hf a) as (?&?&?&?&?&?&?). apply ext_same; auto.
Qed.

Lemma preserves_writeLocalobj v id : preserves (writeLocalobj v id).
Proof.
  intros a x a'. unfold writeLocalobj.
  destruct (localobj a) eqn:E; [|discriminate].
  intros H. inversion H; subst. apply ext_same; auto.
Qed.

(** The allocation idiom: take the next node, add the nodes of a type,
    close the object. *)
Lemma alloc_run {B} t cgn data (k : nodeid -> M B) a :
  (let! obj := nextNode in
   do! addNodes t in
   do! endObject obj cgn data in
   k obj) a
  = k (N.of_nat (length (nodes a)))
      (addNs (objectBlock noFlags cgn data (newNodes t)) a).
Proof.
  run_refl. run_with addNodes_run. run_with endObject_run. reflexivity.
Qed.

Lemma preserves_alloc {B} t cgn data (k : nodeid -> M B) :
  (forall o, preserves (k o)) ->
  preserves (let! obj := nextNode in
             do! addNodes t in
             do! endObject obj cgn data in
             k obj).
Proof.
  intros Hk a x a' H. rewrite alloc_run in H.
  eapply ext_trans; [|eapply Hk; exact H].
  apply ext_addNs_block, headerless_newNodes.
Qed.

Lemma preserves_alloc2 {B} t1 t2 cgn data (k : nodeid -> M B) :
  (forall o, preserves (k o)) ->
  preserves (let! obj := nextNode in
             do! addNodes t1 in
             do! addNodes t2 in
             do! endObject obj cgn data in
             k obj).
Proof.
  intros Hk a x a' H.
  hrun_refl H. hrun_with addNodes_run H. hrun_with addNodes_run H.
  rewrite addNs_app in H. hrun_with endObject_run H.
  eapply ext_trans; [|eapply Hk; exact H].
  apply ext_addNs_block, Forall_app. split; apply headerless_newNodes.
Qed.

Lemma preserves_objectNodeGlobal v : preserves (objectNodeGlobal v).
Proof.
  unfold objectNodeGlobal.
  apply preserves_bind; [apply preserves_get|]. intros a.
  destruct (globalobj a !! ssa.vid v); [apply preserves_ret|].
  apply preserves_bind.
  2:{ intros o. apply preserves_bind; [|intros; apply preserves_ret].
      apply preserves_modify_same. intros a0. repeat split; auto. }
  destruct v as [fn | id t name | id t | id t isNil | id t | id t | id t
                 | id t | id t | id t | id t f | id t X | id t X F | id t X
                 | id t X | c | c | id t]; try apply preserves_ret.
  - apply preserves_makeFunctionObject.
  - unfold mustDeref.
    destruct (types.Underlying t) as [| te | | | | | | | | |];
      try (intros s x s' H; hrun_refl H; discriminate H).
    apply (preserves_alloc te None (DataValue id) ret).
    intros o. apply preserves_ret.
  - destruct (types.Underlying t) as [| | te | | | | | | | |];
      try apply preserves_ret.
    destruct (negb isNil); [|apply preserves_ret].
    unfold sliceToArray. simpl types.Underlying.
    apply (preserves_alloc (types.Array te 1) None (DataValue id) ret).
    intros o. apply preserves_ret.
Qed.

Lemma preserves_valueNodeCached v : preserves (valueNodeCached v).
Proof.
  unfold valueNodeCached.
  apply preserves_bind; [apply preserves_get|]. intros a.
  destruct (valueNodeLookup a v); [apply preserves_ret|apply preserves_panic].
Qed.

Lemma preserves_genLoadWith objectNode' valueNode' cgn result ptr off sz :
  (forall c v, preserves (objectNode' c v)) ->
  (forall v, preserves (valueNode' v)) ->
  preserves (genLoadWith objectNode' valueNode' cgn result ptr off sz).
Proof.
  intros Ho Hv. unfold genLoadWith.
  apply preserves_bind; [apply Ho|]. intros obj.
  destruct (negb _); [apply preserves_copy|].
  apply preserves_bind; [apply Hv|]. intros p. apply preserves_load.
Qed.

Lemma preserves_setValueNode_global genLoad' v id :
  (forall c r p o z, preserves (genLoad' c r p o z)) ->
  preserves (setValueNodeWith genLoad' v id None).
Proof.
  intros Hg. unfold setValueNodeWith.
  apply preserves_bind.
  { apply preserves_modify_same. intros a. repeat split; auto. }
  intros _. apply preserves_bind; [apply preserves_get|]. intros a.
  destruct (Queries (config a) !! ssa.vid v) as [indirect|];
    [|apply preserves_ret].
  apply preserves_bind.
  - destruct indirect; [|apply preserves_ret].
    apply preserves_bind; [apply preserves_addNodes|]. intros tmp.
    apply preserves_bind; [apply Hg|]. intros _. apply preserves_ret.
  - intros id'. apply preserves_modify_same. intros a0. repeat split; auto.
Qed.

Lemma preserves_valueNode v : preserves (valueNode v).
Proof.
  unfold valueNode.
  apply preserves_bind; [apply preserves_get|]. intros a.
  destruct (valueNodeLookup a v); [apply preserves_ret|].
  apply preserves_bind; [apply preserves_addOneNode|]. intros id.
  apply preserves_bind; [apply preserves_objectNodeGlobal|]. intros obj.
  apply preserves_bind;
    [apply preserves_when, preserves_addressOf|]. intros _.
  apply preserves_bind; [|intros _; apply preserves_ret].
  apply preserves_setValueNode_global. intros c r p o z.
  apply preserves_genLoadWith.
  - intros _ w. apply preserves_objectNodeGlobal.
  - apply preserves_valueNodeCached.
Qed.

Lemma preserves_objectNodeLocal cgn v : preserves (objectNodeLocal cgn v).
Proof.
  induction v as [fn | id t name | id t | id t isNil | id t | id t | id t
                 | id t | id t | id t | id t f | id t X IHX | id t X IHX F
                 | id t X IHX | id t X IHX | c | c | id t];
    simpl objectNodeLocal;
    (apply preserves_bind; [apply preserves_get|]); intros a;
    (match goal with
     | |- preserves (match ?o with _ => _ end) =>
         destruct o; [apply preserves_ret|]
     end);
    (apply preserves_bind;
       [|intros o; apply preserves_bind;
                     [apply preserves_writeLocalobj
                     |intros _; apply preserves_ret]]);
    try apply preserves_ret.
  - (* Alloc *)
    unfold mustDeref.
    destruct (types.Underlying t) as [| te | | | | | | | | |];
      try (intros s x s' H; hrun_refl H; discriminate H).
    apply (preserves_alloc te (Some cgn) (DataValue id) ret).
    intros o. apply preserves_ret.
  - (* MakeSlice *)
    unfold sliceToArray.
    destruct (types.Underlying t) as [| | te | | | | | | | |];
      try (intros s x s' H; hrun_refl H; discriminate H).
    apply (preserves_alloc (types.Array te 1) (Some cgn) (DataValue id) ret).
    intros o. apply preserves_ret.
  - (* MakeChan *)
    destruct (types.Underlying t) as [| | | | | | | | | te |];
      try (intros s x s' H; hrun_refl H; discriminate H).
    apply (preserves_alloc te (Some cgn) (DataValue id) ret).
    intros o. apply preserves_ret.
  - (* MakeMap *)
    destruct (types.Underlying t) as [| | | | | | | | tk te | |];
      try (intros s x s' H; hrun_refl H; discriminate H).
    apply (preserves_alloc2 tk te (Some cgn) (DataValue id) ret).
    intros o. apply preserves_ret.
  - (* MakeInterface *)
    apply preserves_bind.
    { apply preserves_forEach. intros m.
      apply preserves_bind; [apply preserves_valueNode|].
      intros _. apply preserves_ret. }
    intros _. apply preserves_bind; [apply preserves_makeTagged|].
    intros obj. apply preserves_bind; [apply preserves_valueNode|].
    intros x. apply preserves_bind; [|intros _; apply preserves_ret].
    apply preserves_when, preserves_copy.
  - (* FieldAddr *)
    apply preserves_bind; [exact IHX|]. intros xobj.
    destruct (negb _); [|apply preserves_ret].
    unfold mustDeref. destruct (types.Underlying _);
      first [apply preserves_ret
            |apply preserves_bind;
               [apply preserves_panic|intros; apply preserves_ret]
            |apply preserves_bind;
               [apply preserves_ret|intros; apply preserves_ret]].
  - (* IndexAddr *)
    apply preserves_bind; [exact IHX|]. intros xobj.
    destruct (negb _); apply preserves_ret.
  - (* Slice *)
    exact IHX.
Qed.

Lemma preserves_objectNode cgn v : preserves (objectNode cgn v).
Proof.
  destruct cgn; [apply preserves_objectNodeLocal
                |apply preserves_objectNodeGlobal].
Qed.

Lemma preserves_genLoad cgn result ptr off sz :
  preserves (genLoad cgn result ptr off sz).
Proof.
  apply preserves_genLoadWith;
    [apply preserves_objectNode | apply preserves_valueNode].
Qed.

Lemma preserves_genStore cgn ptr val off sz :
  preserves (genStore cgn ptr val off sz).
Proof.
  unfold genStore.
  apply preserves_bind; [apply preserves_objectNode|]. intros obj.
  destruct (negb _); [apply preserves_copy|].
  apply preserves_bind; [apply preserves_valueNode|]. intros p.
  apply preserves_store.
Qed.

Lemma preserves_copyElems cgn t dst src :
  preserves (copyElems cgn t dst src).
Proof.
  unfold copyElems.
  apply preserves_bind; [apply preserves_addNodes|]. intros tmp.
  apply preserves_bind; [apply preserves_genLoad|]. intros _.
  apply preserves_genStore.
Qed.

Lemma preserves_genAppend instr cgn : preserves (genAppend instr cgn).
Proof.
  unfold genAppend.
  apply preserves_bind; [apply preserves_index|]. intros x.
  apply preserves_bind; [apply preserves_valueNode|]. intros zn.
  apply preserves_bind; [apply preserves_valueNode|]. intros xn.
  apply preserves_bind; [apply preserves_copy|]. intros _.
  destruct (bool_decide _); [apply preserves_ret|].
  apply preserves_bind; [apply preserves_index|]. intros y.
  unfold sliceToArray.
  destruct (types.Underlying (ssa.Type_ x)) as [| | te | | | | | | | |];
    try apply preserves_bind_panic.
  apply (preserves_alloc (types.Array te 1) cgn
           (DataValue (ssa.call_id instr))).
  intros w. simpl arrayElem.
  apply preserves_bind; [apply preserves_ret|]. intros tElem.
  apply preserves_bind; [apply preserves_copyElems|]. intros _.
  apply preserves_bind; [apply preserves_valueNode|]. intros zn'.
  apply preserves_addressOf.
Qed.

Lemma preserves_funcParams id : preserves (funcParams id).
Proof.
  unfold funcParams. apply preserves_bind; [apply preserves_nodeAt|].
  intros n. destruct (isFunctionBlock n);
    [apply preserves_ret|apply preserves_panic].
Qed.

Lemma preserves_funcResults id : preserves (funcResults id).
Proof.
  unfold funcResults. apply preserves_bind; [apply preserves_nodeAt|].
  intros n. destruct (isFunctionBlock n); [|apply preserves_panic].
  destruct (types.asSignature _) as [sig|]; [|apply preserves_panic].
  destruct (types.Recv sig); apply preserves_ret.
Qed.

Lemma preserves_copyActuals sig args : forall i params,
  preserves (copyActuals sig i args params).
Proof.
  induction args as [|arg args IH]; intros i params; simpl.
  - apply preserves_ret.
  - apply preserves_bind; [apply preserves_index|]. intros t.
    apply preserves_bind; [apply preserves_valueNode|]. intros n.
    apply preserves_bind; [apply preserves_copy|]. intros _. apply IH.
Qed.

Lemma preserves_staticContour fn site : preserves (staticContour fn site).
Proof.
  unfold staticContour. destruct (shouldUseContext fn).
  - apply preserves_makeFunctionObject.
  - apply preserves_objectNode.
Qed.

Lemma preserves_genStaticCall caller site call result :
  preserves (genStaticCall caller site call result).
Proof.
  unfold genStaticCall.
  apply preserves_bind.
  { destruct (ssa.StaticCallee call);
      [apply preserves_ret|apply preserves_panic]. }
  intros fn. apply preserves_bind; [apply preserves_staticContour|].
  intros obj. apply preserves_bind; [apply preserves_addOneNode|].
  intros targets. apply preserves_bind; [apply preserves_addressOf|].
  intros _. apply preserves_bind; [apply preserves_funcParams|].
  intros params. apply preserves_bind.
  { destruct (types.Recv _); [|apply preserves_ret].
    apply preserves_bind; [apply preserves_index|]. intros a0.
    apply preserves_bind; [apply preserves_valueNode|]. intros n.
    apply preserves_bind; [apply preserves_copy|]. intros _.
    apply preserves_ret. }
  intros [params' args'].
  apply preserves_bind; [apply preserves_copyActuals|]. intros _.
  apply preserves_bind.
  { apply preserves_when. apply preserves_bind; [apply preserves_funcResults|].
    intros r. apply preserves_copy. }
  intros _. unfold setTargets.
  apply preserves_modify_same. intros a. repeat split; auto.
Qed.

Lemma preserves_keeps_wf {A} (m : M A) : preserves m -> keeps_wf m.
Proof. intros Hm a x a' Hwf H. exact (ext_wf _ _ (Hm a x a' H) Hwf). Qed.

Lemma keeps_wf_bind {A B} (m : M A) (k : A -> M B) :
  keeps_wf m -> (forall x, keeps_wf (k x)) -> keeps_wf (bind m k).
Proof.
  intros Hm Hk a y a' Hwf H. apply bind_OK in H as (x & a1 & H1 & H2).
  eapply Hk; [|exact H2]. eapply Hm; eassumption.
Qed.

Lemma wf_nil : wf [].
Proof. intros i n o Hi. rewrite lookup_nil in Hi. discriminate. Qed.

Lemma wf_same_headers ns ns' :
  length ns' = length ns ->
  (forall i n', ns' !! i = Some n' ->
                exists n, ns !! i = Some n /\ n_obj n' = n_obj n) ->
  wf ns -> wf ns'.
Proof.
  intros Hlen Hsame Hwf i n' o Hi Ho.
  destruct (Hsame i n' Hi) as (n & Hn & Hobj).
  rewrite Hobj in Ho. destruct (Hwf i n o Hn Ho) as [Hb Hr].
  split; [lia|]. intros j m' Hj Hm'.
  destruct (Hsame j m' Hm') as (m & Hm & Hobj').
  unfold headerless. rewrite Hobj'. eapply Hr; eauto.
Qed.

(** ** The canonical rtype object (claim C7) *)

Lemma makeRtype_hit T id a :
  tm_At (rtypes a) T = Some id -> makeRtype T a = OK id a.
Proof. intros H. unfold makeRtype. run_refl. rewrite H. reflexivity. Qed.

Lemma makeRtype_first T rp fi rest a :
  tm_At (rtypes a) T = None ->
  reflectRtypePtr a = Some rp ->
  flatten rp = fi :: rest ->
  nodes a <> [] ->
  makeRtype T a
  = OK (N.of_nat (length (nodes a)) + 1)
       (set_rtypes (fun m => tm_Set m T (N.of_nat (length (nodes a)) + 1))
          (addCs [addrConstraint (N.of_nat (length (nodes a)) + 1 + 1)
                    (N.of_nat (length (nodes a)))]
             (addNs (rtypeNodes T rp fi rest) a))).
Proof.
  intros Hm Hrp Hfl Hne. unfold makeRtype.
  run_refl. rewrite Hm. run_refl. run_with addOneNode_run.
  run_with endObject_run. rewrite Hrp. run_refl.
  run_with makeTagged_run. rewrite addNs_app.
  assert (Hlen : length (nodes a) <> 0%nat)
    by (destruct (nodes a); [congruence | simpl; lia]).
  assert (Hblk :
    objectBlock noFlags None (DataType T) [mkNode T None None ∅]
    ++ objectBlock (setTagged noFlags) None (DataType T) (taggedBlock rp)
    = [mkNode T None (Some (mkObject 1 noFlags None (DataType T))) ∅;
       mkNode rp None
         (Some (mkObject (wrap32 (N.of_nat (S (S (length rest)))))
                  (setTagged noFlags) None (DataType T))) ∅;
       nodeOf fi]
      ++ map nodeOf rest
      ++ padIf (wrap32 (N.of_nat (S (S (length rest)))))).
  { unfold objectBlock, taggedBlock, newNodes. rewrite Hfl.
    simpl. rewrite length_map. reflexivity. }
  rewrite Hblk.
  replace (N.of_nat (length (nodes (addNs
             (objectBlock noFlags None (DataType T) [mkNode T None None ∅]) a))))
    with (N.of_nat (length (nodes a)) + 1)
    by (cbn [nodes addNs set_nodes]; rewrite length_app; simpl; lia).
  unfold bind at 1. unfold nodeAt. cbn [nodes addNs set_nodes].
  replace (N.to_nat (N.of_nat (length (nodes a)) + 1 + 1))
    with (length (nodes a) + 2)%nat by lia.
  rewrite lookup_app_r by lia.
  replace (length (nodes a) + 2 - length (nodes a))%nat with 2%nat by lia.
  cbn [lookup list_lookup app].
  unfold bind, setNode, modify, addressOf.
  rewrite bool_decide_eq_false_2 by lia.
  rewrite bool_decide_eq_false_2 by lia.
  unfold addConstraint, modify, ret, addCs, addNs, set_rtypes, set_nodes,
    set_constraints, rtypeNodes. cbn.
  f_equal. f_equal.
  replace (N.to_nat (N.of_nat (length (nodes a)) + 1 + 1))
    with (length (nodes a) + 2)%nat by lia.
  rewrite insert_app_r. reflexivity.
Qed.

Lemma makeRtype_inv T a id a' :
  makeRtype T a = OK id a' ->
  (tm_At (rtypes a) T = Some id /\ a' = a) \/
  (exists rp fi rest,
      tm_At (rtypes a) T = None /\ reflectRtypePtr a = Some rp /\
      flatten rp = fi :: rest /\ nodes a <> [] /\
      id = N.of_nat (length (nodes a)) + 1 /\
      a' = set_rtypes (fun m => tm_Set m T id)
             (addCs [addrConstraint (id + 1) (N.of_nat (length (nodes a)))]
                (addNs (rtypeNodes T rp fi rest) a))).
Proof.
  intros H. destruct (tm_At (rtypes a) T) as [v|] eqn:Hm.
  - rewrite (makeRtype_hit _ _ _ Hm) in H. inversion H; subst. left. auto.
  - right. destruct (reflectRtypePtr a) as [rp|] eqn:Hrp.
    2:{ exfalso. unfold makeRtype in H. hrun_refl H. rewrite Hm in H.
        hrun_refl H. hrun_with addOneNode_run H. hrun_with endObject_run H.
        rewrite Hrp in H. unfold bind at 1 in H. discriminate H. }
    destruct (flatten rp) as [|fi rest] eqn:Hfl.
    { exfalso. unfold makeRtype in H. hrun_refl H. rewrite Hm in H.
      hrun_refl H. hrun_with addOneNode_run H. hrun_with endObject_run H.
      rewrite Hrp in H. hrun_refl H. hrun_with makeTagged_run H.
      unfold bind at 1 in H. unfold nodeAt in H.
      unfold taggedBlock, newNodes in H. rewrite Hfl in H.
      cbn [nodes addNs set_nodes map] in H.
      rewrite lookup_ge_None_2 in H; [discriminate H|].
      rewrite !length_app. simpl. lia. }
    destruct (nodes a) as [|n0 ns] eqn:Hn.
    { exfalso. unfold makeRtype in H. hrun_refl H. rewrite Hm in H.
      hrun_refl H. hrun_with addOneNode_run H. hrun_with endObject_run H.
      rewrite Hrp in H. hrun_refl H. hrun_with makeTagged_run H.
      unfold bind at 1 in H. unfold nodeAt in H.
      destruct (_ !! _) in H; [|discriminate H].
      unfold bind at 1 in H. unfold setNode, modify in H.
      unfold bind at 1 in H. unfold addressOf in H.
      rewrite Hn in H. simpl in H.
      destruct (bool_decide _) in H; discriminate H. }
    assert (Hne : nodes a <> []) by (rewrite Hn; discriminate).
    rewrite (makeRtype_first T rp fi rest a Hm Hrp Hfl Hne) in H.
    rewrite <- Hn. inversion H; subst.
    exists rp, fi, rest. repeat split; auto.
Qed.

Lemma rtypeNodes_pts T rp fi rest n :
  n ∈ rtypeNodes T rp fi rest -> n_pts n = ∅.
Proof.
  unfold rtypeNodes, padIf. intros H.
  rewrite !elem_of_app, !elem_of_cons, list_elem_of_fmap in H.
  destruct H as [[->|[->|[->|H]]]|[(x & -> & _)|H]]; try reflexivity.
  - inversion H.
  - destruct (bool_decide _); [|inversion H].
    apply list_elem_of_singleton in H. subst. reflexivity.
Qed.

Lemma ptsOf_addNs l a i :
  (forall n, n ∈ l -> n_pts n = ∅) -> ptsOf (addNs l a) i = ptsOf a i.
Proof.
  intros Hl. unfold ptsOf. cbn [nodes addNs set_nodes].
  destruct (nodes a !! N.to_nat i) as [n|] eqn:E.
  - rewrite (lookup_app_l_Some _ _ _ _ E). reflexivity.
  - apply lookup_ge_None in E. rewrite lookup_app_r by exact E.
    destruct (l !! _) as [n|] eqn:E2; [|reflexivity].
    apply Hl. eapply list_elem_of_lookup_2. exact E2.
Qed.

Lemma tagOf_addNs l a i :
  (N.to_nat i < length (nodes a))%nat -> tagOf (addNs l a) i = tagOf a i.
Proof.
  intros Hi. unfold tagOf. cbn [nodes addNs set_nodes].
  rewrite lookup_app_l by exact Hi. reflexivity.
Qed.

Lemma makeRtype_effect T a id a' :
  makeRtype T a = OK id a' ->
  tm_At (rtypes a') T = Some id /\
  (forall U v, tm_At (rtypes a) U = Some v -> tm_At (rtypes a') U = Some v) /\
  (forall i, ptsOf a' i = ptsOf a i) /\
  (forall i, (N.to_nat i < length (nodes a))%nat -> tagOf a' i = tagOf a i) /\
  (length (nodes a) <= length (nodes a'))%nat.
Proof.
  intros H. apply makeRtype_inv in H.
  destruct H as [[Hm ->]|(rp & fi & rest & Hm & Hrp & Hfl & Hne & Hid & ->)].
  - repeat split; auto.
  - repeat split.
    + simpl. rewrite decide_True by reflexivity. reflexivity.
    + intros U v HU. simpl. destruct (decide (T = U)) as [->|]; [congruence|].
      exact HU.
    + intros i.
      change (ptsOf (addNs (rtypeNodes T rp fi rest) a) i = ptsOf a i).
      apply ptsOf_addNs. apply rtypeNodes_pts.
    + intros i Hi.
      change (tagOf (addNs (rtypeNodes T rp fi rest) a) i = tagOf a i).
      apply tagOf_addNs. exact Hi.
    + cbn. rewrite length_app. lia.
Qed.

Lemma addLabel_effect p l a c a' :
  addLabel p l a = OK c a' ->
  ptsOf a' p = {[l]} ∪ ptsOf a p /\
  (forall i, i <> p -> ptsOf a' i = ptsOf a i) /\
  (forall i, tagOf a' i = tagOf a i) /\
  rtypes a' = rtypes a /\
  length (nodes a') = length (nodes a).
Proof.
  unfold addLabel, bind, nodeAt.
  destruct (nodes a !! N.to_nat p) as [n|] eqn:E; [|discriminate].
  assert (Hlt : (N.to_nat p < length (nodes a))%nat)
    by (eapply lookup_lt_Some; exact E).
  case_bool_decide as Hin.
  - intros H. inversion H; subst. repeat split; auto.
    unfold ptsOf. rewrite E. set_solver.
  - unfold setNode, modify, ret. intros H. inversion H; subst. clear H.
    repeat split.
    + unfold ptsOf. cbn [nodes set_nodes]. rewrite E.
      rewrite list_lookup_insert_eq by exact Hlt. reflexivity.
    + intros i Hi. unfold ptsOf. cbn [nodes set_nodes].
      rewrite list_lookup_insert_ne by lia. reflexivity.
    + intros i. unfold tagOf. cbn [nodes set_nodes].
      destruct (decide (N.to_nat p = N.to_nat i)) as [Heq|Hne].
      * rewrite <- Heq, E, list_lookup_insert_eq by exact Hlt. reflexivity.
      * rewrite list_lookup_insert_ne by exact Hne. reflexivity.
    + cbn. apply length_insert.
Qed.

Lemma taggedValue_inv id a tDyn v ind a' :
  taggedValue id a = OK (tDyn, v, ind) a' -> a' = a /\ tDyn = tagOf a id.
Proof.
  unfold taggedValue, bind, nodeAt, tagOf.
  destruct (nodes a !! N.to_nat id) as [n|]; [|discriminate].
  destruct (n_obj n) as [o|]; [|discriminate].
  destruct (otTagged (o_flags o)); unfold ret; intros H; inversion H; auto.
Qed.

Lemma reflectTypeOf_step_effect result ch iObj a ch' a' :
  (N.to_nat iObj < length (nodes a))%nat ->
  reflectTypeOf_step result ch iObj a = OK ch' a' ->
  exists T id,
    tagOf a iObj = Some T /\ tm_At (rtypes a') T = Some id /\
    ptsOf a' result = {[id]} ∪ ptsOf a result /\
    (forall U v, tm_At (rtypes a) U = Some v -> tm_At (rtypes a') U = Some v) /\
    (forall i, (N.to_nat i < length (nodes a))%nat -> tagOf a' i = tagOf a i) /\
    (length (nodes a) <= length (nodes a'))%nat.
Proof.
  intros Hlt H. unfold reflectTypeOf_step in H.
  apply bind_OK in H as ([[tDyn pv] ind] & a1 & Htv & H).
  apply taggedValue_inv in Htv as [-> Htag].
  destruct tDyn as [T|]; [|discriminate].
  apply bind_OK in H as (id & a2 & Hmk & H).
  apply bind_OK in H as (c & a3 & Hadd & H).
  inversion H; subst ch' a3. clear H.
  apply makeRtype_effect in Hmk as (Hid & Hmono & Hpts & Htags & Hlen).
  apply addLabel_effect in Hadd as (Hp & Hother & Htag' & Hrt & Hlen').
  exists T, id. repeat split.
  - symmetry. exact Htag.
  - rewrite Hrt. exact Hid.
  - rewrite Hp, Hpts. reflexivity.
  - intros U v HU. rewrite Hrt. apply Hmono. exact HU.
  - intros i Hi. rewrite Htag'. apply Htags. exact Hi.
  - lia.
Qed.

Lemma foldDelta_TypeOf result delta : forall ch a ch' a',
  (forall iObj, iObj ∈ delta -> (N.to_nat iObj < length (nodes a))%nat) ->
  foldDelta (reflectTypeOf_step result) ch delta a = OK ch' a' ->
  (forall U v, tm_At (rtypes a) U = Some v -> tm_At (rtypes a') U = Some v) /\
  (forall i, (N.to_nat i < length (nodes a))%nat -> tagOf a' i = tagOf a i) /\
  (length (nodes a) <= length (nodes a'))%nat /\
  ptsOf a result ⊆ ptsOf a' result /\
  (forall iObj, iObj ∈ delta ->
     exists T id, tagOf a iObj = Some T /\ tm_At (rtypes a') T = Some id /\
                  id ∈ ptsOf a' result) /\
  (forall l, l ∈ ptsOf a' result ->
     l ∈ ptsOf a result \/
     exists iObj T, iObj ∈ delta /\ tagOf a iObj = Some T /\
                    tm_At (rtypes a') T = Some l).
Proof.
  induction delta as [|x delta IH]; intros ch a ch' a' Hd H; simpl in H.
  - inversion H; subst. repeat split; auto.
    intros iObj Hin. inversion Hin.
  - apply bind_OK in H as (ch1 & a1 & Hstep & H).
    apply reflectTypeOf_step_effect in Hstep
      as (T & id & Htag & Hid & Hp & Hmono & Htags & Hlen);
      [|apply Hd; left].
    apply IH in H as (Hmono' & Htags' & Hlen' & Hsub & Hall & Hnew).
    2:{ intros iObj Hin. specialize (Hd iObj (list_elem_of_further _ _ _ Hin)).
        lia. }
    repeat split.
    + auto.
    + intros i Hi. rewrite Htags' by lia. apply Htags. exact Hi.
    + lia.
    + rewrite Hp in Hsub. set_solver.
    + intros iObj Hin. apply elem_of_cons in Hin as [->|Hin].
      * exists T, id. repeat split; auto. apply Hsub. rewrite Hp. set_solver.
      * destruct (Hall iObj Hin) as (T' & id' & Ht' & Hi' & Hin').
        exists T', id'. repeat split; auto.
        rewrite <- Htags; [exact Ht'|].
        apply Hd. right. exact Hin.
    + intros l Hl. destruct (Hnew l Hl) as [Hold|(iObj & T' & Hin & Ht' & Hl')].
      * rewrite Hp in Hold. apply elem_of_union in Hold as [Hl1|Hold]; [|auto].
        apply elem_of_singleton in Hl1. subst l.
        right. exists x, T. repeat split; auto. left.
      * right. exists iObj, T'. repeat split; auto.
        { right. exact Hin. }
        rewrite <- Htags; [exact Ht'|]. apply Hd. right. exact Hin.
Qed.

(** C7.  The first [makeRtype T] appends the rtype object (one node,
    data [T]) and the tagged object (tag pointer-to-rtype, data [T],
    payload retyped to [T]), emits [addr{id+1, obj}] so that the payload
    points to the rtype object, and records [id] under [T] in [a.rtypes];
    a call that finds [T] recorded returns that id and changes nothing,
    and no call of makeRtype displaces a recorded id.  Solving a TypeOf
    constraint adds to its result, for every label of the delta, the
    recorded canonical object of the label's dynamic type, and adds
    nothing else. *)
Theorem makeRtype_is_memoized :
  (forall T rp fi rest a,
      tm_At (rtypes a) T = None -> reflectRtypePtr a = Some rp ->
      flatten rp = fi :: rest -> nodes a <> [] ->
      let obj := N.of_nat (length (nodes a)) in
      let id := obj + 1 in
      makeRtype T a
      = OK id (set_rtypes (fun m => tm_Set m T id)
                 (addCs [addrConstraint (id + 1) obj]
                    (addNs (rtypeNodes T rp fi rest) a)))) /\
  (forall T id a, tm_At (rtypes a) T = Some id -> makeRtype T a = OK id a) /\
  (forall T U id idU a a',
      makeRtype U a = OK idU a' ->
      (U = T -> tm_At (rtypes a') T = Some idU) /\
      (tm_At (rtypes a) T = Some id -> tm_At (rtypes a') T = Some id)) /\
  (forall cgn i result delta a a',
      (forall iObj, iObj ∈ delta -> (N.to_nat iObj < length (nodes a))%nat) ->
      reflectTypeOf_solve cgn i result delta a = OK tt a' ->
      (forall iObj, iObj ∈ delta ->
         exists T id, tagOf a iObj = Some T /\
                      tm_At (rtypes a') T = Some id /\
                      id ∈ ptsOf a' result) /\
      (forall l, l ∈ ptsOf a' result ->
         l ∈ ptsOf a result \/
         exists iObj T, iObj ∈ delta /\ tagOf a iObj = Some T /\
                        tm_At (rtypes a') T = Some l)).
Proof.
  split; [|split; [|split]].
  - intros T rp fi rest a Hm Hrp Hfl Hne obj id.
    apply makeRtype_first; assumption.
  - intros T id a. apply makeRtype_hit.
  - intros T U id idU a a' H.
    apply makeRtype_effect in H as (Hid & Hmono & _). split.
    + intros ->. exact Hid.
    + apply Hmono.
  - intros cgn i result delta a a' Hd H. unfold reflectTypeOf_solve in H.
    apply bind_OK in H as (ch & a1 & Hfold & H).
    apply foldDelta_TypeOf in Hfold as (_ & _ & _ & _ & Hall & Hnew);
      [|exact Hd].
    assert (Ha : nodes a' = nodes a1 /\ rtypes a' = rtypes a1).
    { destruct ch; simpl in H; inversion H; subst; auto. }
    destruct Ha as [Hn Hr]. unfold ptsOf in *. rewrite Hn, Hr. auto.
Qed.

Lemma rtypeNodes_blocks T rp fi rest :
  rtypeNodes T rp fi rest
  = objectBlock noFlags None (DataType T) [mkNode T None None ∅]
    ++ objectBlock (setTagged noFlags) None (DataType T)
         (mkNode rp None None ∅ :: mkNode T (Some fi) None ∅
            :: map nodeOf rest).
Proof.
  unfold rtypeNodes, objectBlock. simpl. rewrite length_map. reflexivity.
Qed.

Lemma keeps_wf_makeRtype T : keeps_wf (makeRtype T).
Proof.
  intros a x a' Hwf H. apply makeRtype_inv in H.
  destruct H as [[_ ->]|(rp & fi & rest & _ & _ & _ & _ & _ & ->)];
    [exact Hwf|].
  cbn [nodes set_rtypes addCs set_constraints addNs set_nodes].
  rewrite rtypeNodes_blocks, app_assoc.
  apply wf_app_block; [apply wf_app_block; [exact Hwf|]|].
  - repeat constructor.
  - constructor; [reflexivity|]. constructor; [reflexivity|].
    apply Forall_forall. intros n Hn.
    apply list_elem_of_fmap in Hn as (f & -> & _). reflexivity.
Qed.

Lemma keeps_wf_addLabel p l : keeps_wf (addLabel p l).
Proof.
  intros a c a' Hwf. unfold addLabel, bind, nodeAt.
  destruct (nodes a !! N.to_nat p) as [n|] eqn:E; [|discriminate].
  case_bool_decide as Hin.
  - intros Hr. inversion Hr; subst. exact Hwf.
  - unfold setNode, modify, ret. intros Hr. inversion Hr; subst. clear Hr.
    cbn [nodes set_nodes]. eapply wf_same_headers; [| |exact Hwf].
    + apply length_insert.
    + intros i n' Hi.
      destruct (decide (N.to_nat p = i)) as [<-|Hne].
      * rewrite list_lookup_insert_eq in Hi
          by (eapply lookup_lt_Some; exact E).
        inversion Hi; subst. exists n. split; [exact E|reflexivity].
      * rewrite list_lookup_insert_ne in Hi by exact Hne.
        exists n'. split; [exact Hi|reflexivity].
Qed.

Lemma keeps_wf_foldDelta step delta :
  (forall ch x, keeps_wf (step ch x)) ->
  forall ch, keeps_wf (foldDelta step ch delta).
Proof.
  intros Hs. induction delta as [|x delta IH]; intros ch; simpl.
  - intros a y a' Hwf H. inversion H; subst. exact Hwf.
  - apply keeps_wf_bind; [apply Hs|]. intros ch'. apply IH.
Qed.

Lemma keeps_wf_state {A} (m : M A) :
  (forall a x a', m a = OK x a' -> nodes a' = nodes a) -> keeps_wf m.
Proof. intros H a x a' Hwf Hm. rewrite (H a x a' Hm). exact Hwf. Qed.

Lemma keeps_wf_reflectTypeOf_solve cgn i result delta :
  keeps_wf (reflectTypeOf_solve cgn i result delta).
Proof.
  unfold reflectTypeOf_solve. apply keeps_wf_bind.
  - apply keeps_wf_foldDelta. intros ch x. unfold reflectTypeOf_step.
    apply keeps_wf_bind.
    { apply keeps_wf_state. intros a [[t v] b] a' H.
      apply taggedValue_inv in H as [-> _]. reflexivity. }
    intros [[tDyn v] ind]. destruct tDyn as [T|].
    + apply keeps_wf_bind; [apply keeps_wf_makeRtype|]. intros id.
      apply keeps_wf_bind; [apply keeps_wf_addLabel|]. intros c.
      apply preserves_keeps_wf, preserves_ret.
    + apply preserves_keeps_wf, preserves_panic.
  - intros ch. apply keeps_wf_state. intros a x a' H.
    destruct ch; inversion H; reflexivity.
Qed.

Lemma keeps_wf_reflectZero_solve cgn typ result delta :
  keeps_wf (reflectZero_solve cgn typ result delta).
Proof.
  unfold reflectZero_solve. apply keeps_wf_bind.
  - apply keeps_wf_foldDelta. intros ch x. unfold reflectZero_step.
    apply keeps_wf_bind.
    { apply keeps_wf_state. intros a T a' H. unfold rtypeTaggedValue in H.
      apply bind_OK in H as ([[t v] b] & a1 & Htv & H).
      apply taggedValue_inv in Htv as [-> _].
      apply bind_OK in H as (a2 & a3 & Hget & H). inversion Hget; subst.
      destruct (decide _); [|discriminate H].
      apply bind_OK in H as (n & a4 & Hn & H).
      unfold nodeAt in Hn. destruct (_ !! _); [|discriminate Hn].
      inversion Hn; subst. inversion H; subst. reflexivity. }
    intros T. apply keeps_wf_bind; [apply preserves_keeps_wf, preserves_get|].
    intros a. simpl. apply keeps_wf_bind.
    { apply keeps_wf_bind;
        [apply preserves_keeps_wf, preserves_makeTagged|].
      intros id. apply keeps_wf_bind.
      - apply keeps_wf_state. intros s y s' H. inversion H; reflexivity.
      - intros _. apply preserves_keeps_wf, preserves_ret. }
    intros id. apply keeps_wf_bind; [apply keeps_wf_addLabel|]. intros c.
    apply preserves_keeps_wf, preserves_ret.
  - intros ch. apply keeps_wf_state. intros a x a' H.
    destruct ch; inversion H; reflexivity.
Qed.

(** ** The object-header invariant (claim C8) *)

Lemma endObject_header obj cgn data a o a' :
  endObject obj cgn data a = OK o a' ->
  o = obj /\
  (exists n, nodes a' !! N.to_nat obj = Some n /\
             n_obj n = Some (mkObject
                               (wrap32 (N.of_nat (length (nodes a)) - obj))
                               noFlags cgn data)) /\
  (forall i, i <> N.to_nat obj ->
             nodes a' !! i ≫= n_obj = nodes a !! i ≫= n_obj).
Proof.
  unfold endObject. intros H. hrun_refl H.
  destruct (decide (N.of_nat (length (nodes a)) < obj)); [discriminate H|].
  apply bind_OK in H as ([] & a1 & Hpad & H).
  apply bind_OK in H as (objNode & a2 & Hn & H).
  unfold nodeAt in Hn.
  destruct (nodes a1 !! N.to_nat obj) as [n1|] eqn:E; [|discriminate Hn].
  inversion Hn; subst objNode a2. clear Hn.
  apply bind_OK in H as ([] & a3 & Hset & H).
  inversion H; subst o a3. clear H.
  unfold setNode, modify in Hset. inversion Hset; subst a'. clear Hset.
  cbn [nodes set_nodes].
  assert (Hlt : (N.to_nat obj < length (nodes a1))%nat)
    by (eapply lookup_lt_Some; exact E).
  split; [reflexivity|]. split.
  - eexists. rewrite list_lookup_insert_eq by exact Hlt.
    split; reflexivity.
  - intros i Hi. rewrite list_lookup_insert_ne by lia.
    unfold when in Hpad.
    destruct (bool_decide _); [|inversion Hpad; reflexivity].
    hrun_with addOneNode_run Hpad. inversion Hpad; subst a1.
    cbn [nodes addNs set_nodes].
    destruct (decide (i < length (nodes a))%nat).
    + rewrite lookup_app_l by lia. reflexivity.
    + rewrite lookup_app_r by lia.
      rewrite (lookup_ge_None_2 (nodes a)) by lia.
      destruct (i - length (nodes a))%nat as [|k]; reflexivity.
Qed.

Lemma keeps_wf_addNodes_endObject {B} t cgn data (k : nodeid -> M B) :
  flatten t <> [] -> (forall o, keeps_wf (k o)) ->
  keeps_wf (let! obj := addNodes t in
            do! endObject obj cgn data in
            k obj).
Proof.
  intros Hfl Hk a x a' Hwf H. hrun_with addNodes_run H.
  destruct (flatten t) as [|fi rest] eqn:E; [congruence|].
  hrun_with endObject_run H.
  eapply Hk; [|exact H]. cbn [nodes addNs set_nodes].
  apply wf_app_block; [exact Hwf|apply headerless_newNodes].
Qed.

Lemma keeps_wf_genConv conv cgn :
  (forall te, types.Underlying (ssa.conv_typ conv) = types.Pointer te ->
              flatten te <> []) ->
  (forall e, types.Underlying (ssa.conv_typ conv) = types.Slice e ->
             flatten (types.Array e 1) <> []) ->
  keeps_wf (genConv conv cgn).
Proof.
  intros Hp Hs. unfold genConv.
  apply keeps_wf_bind; [apply preserves_keeps_wf, preserves_valueNode|].
  intros res. destruct (bool_decide (res = 0));
    [apply preserves_keeps_wf, preserves_ret|].
  destruct (types.Underlying (ssa.Type_ (ssa.conv_X conv))) as [kSrc| | | | | | | | | |];
    try (apply preserves_keeps_wf; first [apply preserves_ret|apply preserves_panic]).
  2:{ destruct (decide _); apply preserves_keeps_wf;
        [apply preserves_ret|apply preserves_panic]. }
  destruct (types.Underlying (ssa.conv_typ conv)) as [| te | e | | | | | | | |] eqn:Ed;
    try (apply preserves_keeps_wf; first [apply preserves_ret|apply preserves_panic]).
  - destruct (decide _); [|apply preserves_keeps_wf, preserves_panic].
    apply keeps_wf_bind.
    { destruct (ssa.Pkg _); apply preserves_keeps_wf;
        [apply preserves_ret|apply preserves_panic]. }
    intros pkg. apply keeps_wf_bind.
    { apply keeps_wf_state. intros a x a' H.
      destruct (negb _); inversion H; reflexivity. }
    intros _. unfold mustDeref. rewrite Ed.
    apply (keeps_wf_addNodes_endObject te cgn
             (DataValue (ssa.conv_id conv)) (fun obj => addressOf res obj)).
    + apply Hp. reflexivity.
    + intros o. apply preserves_keeps_wf, preserves_addressOf.
  - destruct (types.isString kSrc); [|apply preserves_keeps_wf, preserves_panic].
    unfold sliceToArray. rewrite Ed.
    apply (keeps_wf_addNodes_endObject (types.Array e 1) cgn
             (DataValue (ssa.conv_id conv)) (fun obj => addressOf res obj)).
    + apply Hs. reflexivity.
    + intros o. apply preserves_keeps_wf, preserves_addressOf.
Qed.

Lemma keeps_wf_generate_osArgs :
  flatten tArgsArray <> [] -> keeps_wf generate_osArgs.
Proof.
  intros Hfl. unfold generate_osArgs.
  apply keeps_wf_bind; [apply preserves_keeps_wf, preserves_get|].
  intros a. destruct (osArgs a) as [args|];
    [|apply preserves_keeps_wf, preserves_ret].
  apply (keeps_wf_addNodes_endObject tArgsArray None
           (DataString "<command-line args>")
           (fun obj => let! o := objectNode None args in addressOf o obj)).
  - exact Hfl.
  - intros obj. apply preserves_keeps_wf.
    apply preserves_bind; [apply preserves_objectNode|].
    intros o. apply preserves_addressOf.
Qed.

(** C8.  The table starts without objects; addOneNode appends a node
    without a header; endObject writes one header, on the node it is
    given, and leaves every other header as it was; and the invariant
    [wf] (the nodes after the head of an object, within its size, carry
    no header) is kept by the node- and object-creating operations of
    the generator and of the two reflection constraints, and by their
    sequencing.  The two places that take the head of the block from
    the result of addNodes, genConv and the allocation of [os.Args],
    keep it when the allocated type has at least one node. *)
Theorem object_header_invariant :
  wf [] /\
  (forall t s a,
      addOneNode t s a
      = OK (N.of_nat (length (nodes a))) (addNs [mkNode t s None ∅] a)) /\
  (forall obj cgn data a o a',
      endObject obj cgn data a = OK o a' ->
      o = obj /\
      (exists n, nodes a' !! N.to_nat obj = Some n /\
                 n_obj n = Some (mkObject
                                   (wrap32 (N.of_nat (length (nodes a)) - obj))
                                   noFlags cgn data)) /\
      (forall i, i <> N.to_nat obj ->
                 nodes a' !! i ≫= n_obj = nodes a !! i ≫= n_obj)) /\
  (forall t s, keeps_wf (addOneNode t s)) /\
  (forall t, keeps_wf (addNodes t)) /\
  (forall t cgn data,
      keeps_wf (let! obj := nextNode in
                do! addNodes t in
                do! endObject obj cgn data in
                ret obj)) /\
  (forall typ cgn data, keeps_wf (makeTagged typ cgn data)) /\
  (forall fn cs, keeps_wf (makeFunctionObject fn cs)) /\
  (forall T, keeps_wf (makeRtype T)) /\
  (forall v, keeps_wf (valueNode v)) /\
  (forall cgn v, keeps_wf (objectNode cgn v)) /\
  (forall cgn r p off sz, keeps_wf (genLoad cgn r p off sz)) /\
  (forall cgn p v off sz, keeps_wf (genStore cgn p v off sz)) /\
  (forall cgn t dst src, keeps_wf (copyElems cgn t dst src)) /\
  (forall instr cgn, keeps_wf (genAppend instr cgn)) /\
  (forall caller site call result,
      keeps_wf (genStaticCall caller site call result)) /\
  (forall conv cgn,
      (forall te, types.Underlying (ssa.conv_typ conv) = types.Pointer te ->
                  flatten te <> []) ->
      (forall e, types.Underlying (ssa.conv_typ conv) = types.Slice e ->
                 flatten (types.Array e 1) <> []) ->
      keeps_wf (genConv conv cgn)) /\
  (flatten tArgsArray <> [] -> keeps_wf generate_osArgs) /\
  (forall cgn i result delta,
      keeps_wf (reflectTypeOf_solve cgn i result delta)) /\
  (forall cgn typ result delta,
      keeps_wf (reflectZero_solve cgn typ result delta)) /\
  (forall A B (m : M A) (k : A -> M B),
      keeps_wf m -> (forall x, keeps_wf (k x)) -> keeps_wf (bind m k)).
Proof.
  split; [exact wf_nil|].
  split; [exact addOneNode_run|].
  split; [exact endObject_header|].
  split; [intros; apply preserves_keeps_wf, preserves_addOneNode|].
  split; [intros; apply preserves_keeps_wf, preserves_addNodes|].
  split; [intros; apply preserves_keeps_wf, preserves_alloc;
          intros; apply preserves_ret|].
  split; [intros; apply preserves_keeps_wf, preserves_makeTagged|].
  split; [intros; apply preserves_keeps_wf, preserves_makeFunctionObject|].
  split; [exact keeps_wf_makeRtype|].
  split; [intros; apply preserves_keeps_wf, preserves_valueNode|].
  split; [intros; apply preserves_keeps_wf, preserves_objectNode|].
  split; [intros; apply preserves_keeps_wf, preserves_genLoad|].
  split; [intros; apply preserves_keeps_wf, preserves_genStore|].
  split; [intros; apply preserves_keeps_wf, preserves_copyElems|].
  split; [intros; apply preserves_keeps_wf, preserves_genAppend|].
  split; [intros; apply preserves_keeps_wf, preserves_genStaticCall|].
  split; [exact keeps_wf_genConv|].
  split; [exact keeps_wf_generate_osArgs|].
  split; [exact keeps_wf_reflectTypeOf_solve|].
  split; [exact keeps_wf_reflectZero_solve|].
  intros A B m k. apply keeps_wf_bind.
Qed.

(** ** The contour of a static call (claim C2) *)

Lemma shouldUseContext_policy fn : shouldUseContext fn = policy_code fn.
Proof.
  unfold shouldUseContext, policy_code, isIntrinsic, singleSmallBlock,
    callsOnlyBuiltins, isSyntheticWrapper.
  destruct (bool_decide (findIntrinsic fn <> None)); [reflexivity|].
  destruct (ssa.Blocks fn) as [|blk [|blk' bs]]; simpl; try reflexivity.
  rewrite Nat.leb_antisym.
  destruct (Nat.ltb 10 (length (ssa.Instrs blk))); simpl; [reflexivity|].
  rewrite andb_true_r.
  destruct (negb (bool_decide (ssa.Synthetic fn = ""%string))); simpl;
    [|reflexivity].
  destruct (ssa.Pkg fn) as [pkg|]; simpl; [|reflexivity].
  destruct (negb (bool_decide (Some (ssa.fn_id fn) = ssa.FuncInit pkg)));
    reflexivity.
Qed.

Lemma objectNodeGlobal_hit v obj a :
  globalobj a !! ssa.vid v = Some obj -> objectNodeGlobal v a = OK obj a.
Proof.
  intros H. unfold objectNodeGlobal. run_refl. rewrite H. reflexivity.
Qed.

Lemma objectNodeGlobal_function fn a :
  globalobj a !! ssa.fn_id fn = None ->
  objectNodeGlobal (ssa.VFunction fn) a
  = match makeFunctionObject fn None a with
    | OK obj a' =>
        OK obj (set_globalobj (fun m => <[ssa.fn_id fn := obj]> m) a')
    | Panic msg => Panic msg
    end.
Proof.
  intros H. unfold objectNodeGlobal. run_refl.
  change (ssa.vid (ssa.VFunction fn)) with (ssa.fn_id fn). rewrite H.
  unfold bind. destruct (makeFunctionObject fn None a); reflexivity.
Qed.

(** C2, as amended.  A static call binds its callee to a fresh contour,
    created for this call site, exactly when the callee is an intrinsic,
    or has a single block of at most 10 instructions and is a synthetic
    wrapper or calls nothing but built-ins.  Every other callee is bound
    to its one shared contour: the first call creates it, with no call
    site, and records it, and later calls find it and create nothing. *)
Theorem static_call_contour :
  (forall fn, shouldUseContext fn = policy_code fn) /\
  (forall fn site a,
      policy_code fn = true ->
      exists a',
        staticContour fn site a = OK (N.of_nat (length (nodes a))) a' /\
        cgnodes a'
        = cgnodes a
            ++ [mkCgnode fn (N.of_nat (length (nodes a))) (Some site) []] /\
        genq a' = genq a ++ [length (cgnodes a)] /\
        nodes a'
        = nodes a
            ++ objectBlock (setFunction noFlags) (Some (length (cgnodes a)))
                 (DataValue (ssa.fn_id fn)) (fnBlock fn) /\
        globalobj a' = globalobj a) /\
  (forall fn site a,
      policy_code fn = false ->
      match globalobj a !! ssa.fn_id fn with
      | Some obj => staticContour fn site a = OK obj a
      | None =>
          exists a',
            staticContour fn site a = OK (N.of_nat (length (nodes a))) a' /\
            cgnodes a'
            = cgnodes a ++ [mkCgnode fn (N.of_nat (length (nodes a))) None []] /\
            globalobj a'
            = <[ssa.fn_id fn := N.of_nat (length (nodes a))]> (globalobj a) /\
            forall site', staticContour fn site' a'
                          = OK (N.of_nat (length (nodes a))) a'
      end).
Proof.
  split; [exact shouldUseContext_policy|]. split.
  - intros fn site a Hp. unfold staticContour.
    rewrite shouldUseContext_policy, Hp, makeFunctionObject_run.
    eexists. split; [reflexivity|]. repeat split.
  - intros fn site a Hp. unfold staticContour.
    rewrite shouldUseContext_policy, Hp. simpl objectNode.
    destruct (globalobj a !! ssa.fn_id fn) as [obj|] eqn:Hg.
    + apply objectNodeGlobal_hit. exact Hg.
    + rewrite (objectNodeGlobal_function _ _ Hg), makeFunctionObject_run.
      eexists. split; [reflexivity|]. repeat split.
      intros site'. apply objectNodeGlobal_hit. simpl.
      apply lookup_insert_eq.
Qed.

(** ** Conversions from [unsafe.Pointer] (claim C9) *)

Lemma addWs_nil a : addWs [] a = a.
Proof. destruct a. unfold addWs, set_warnings. simpl. rewrite app_nil_r. reflexivity. Qed.

Lemma valueNode_hit v id a :
  valueNodeLookup a v = Some id -> valueNode v a = OK id a.
Proof. intros H. unfold valueNode. run_refl. rewrite H. reflexivity. Qed.

(** Where the value is recorded, the look-up is valueNode; and it is
    recorded once setValueNode has written the global map. *)
Lemma valueNode_cached v a :
  is_Some (valueNodeLookup a v) -> valueNodeCached v a = valueNode v a.
Proof.
  intros [id H]. rewrite (valueNode_hit _ _ _ H).
  unfold valueNodeCached. run_refl. rewrite H. reflexivity.
Qed.

Lemma valueNodeLookup_recorded v id a :
  is_Some
    (valueNodeLookup (set_globalval (fun m => <[ssa.vid v := id]> m) a) v).
Proof.
  unfold valueNodeLookup. cbn [localval globalval set_globalval].
  destruct (localval a ≫= _) as [x|]; [eauto|].
  rewrite lookup_insert_eq. eauto.
Qed.

(** C9.  For a conversion from [unsafe.Pointer] to a pointer type whose
    pointee type is [te], with the value node [res] of the conversion in
    place, genConv appends a fresh object of type [te] owned by the
    current contour, with the conversion as its data, emits
    [addr{res, obj}], and records one warning with the position of the
    conversion unless the package of the enclosing function is
    [syscall]; the generation goes on (the result is not a panic). *)
Theorem unsafe_pointer_conversion conv cgn a res te pkg :
  valueNodeLookup a (ssa.VConvert conv) = Some res -> res <> 0 ->
  types.Underlying (ssa.Type_ (ssa.conv_X conv)) = tUnsafePtr ->
  types.Underlying (ssa.conv_typ conv) = types.Pointer te ->
  ssa.Pkg (ssa.conv_Parent conv) = Some pkg ->
  flatten te <> [] -> nodes a <> [] ->
  let obj := N.of_nat (length (nodes a)) in
  let w := if bool_decide (ssa.Path pkg = "syscall"%string) then []
           else [(ssa.conv_Pos conv,
                  WarnUnsafeConversion (ssa.fn_id (ssa.conv_Parent conv))
                    (ssa.conv_typ conv))] in
  genConv conv cgn a
  = OK tt (addCs [addrConstraint res obj]
             (addNs (objectBlock noFlags cgn (DataValue (ssa.conv_id conv))
                       (newNodes te))
                (addWs w a))).
Proof.
  intros Hres Hnz Hsrc Hdst Hpkg Hfl Hne obj w.
  unfold genConv. run_with (valueNode_hit _ _ _ Hres).
  rewrite bool_decide_eq_false_2 by exact Hnz.
  rewrite Hsrc. unfold tUnsafePtr at 1. rewrite Hdst.
  rewrite decide_True by reflexivity.
  rewrite Hpkg. run_refl.
  assert (Hwarn :
    when (negb (bool_decide (ssa.Path pkg = "syscall"%string)))
      (warnf (ssa.conv_Pos conv)
         (WarnUnsafeConversion (ssa.fn_id (ssa.conv_Parent conv))
            (ssa.conv_typ conv))) a
    = OK tt (addWs w a)).
  { subst w. destruct (bool_decide (ssa.Path pkg = "syscall"%string)); simpl.
    - rewrite addWs_nil. reflexivity.
    - reflexivity. }
  run_with Hwarn.
  unfold mustDeref. rewrite Hdst. run_refl.
  run_with addNodes_run.
  assert (Hlen : length (nodes a) <> 0%nat)
    by (destruct (nodes a); [congruence | simpl; lia]).
  destruct (flatten te) as [|fi rest] eqn:Efl; [congruence|].
  change (N.of_nat (length (nodes (addWs w a)))) with obj.
  change obj with (N.of_nat (length (nodes (addWs w a)))) at 1.
  run_with endObject_run.
  unfold addressOf.
  rewrite bool_decide_eq_false_2 by exact Hnz.
  rewrite bool_decide_eq_false_2 by (cbn; lia).
  reflexivity.
Qed.

(** ** The command-line arguments (claim C10) *)

Lemma objectNodeGlobal_global id t te a :
  globalobj a !! id = None ->
  types.Underlying t = types.Pointer te ->
  objectNodeGlobal (ssa.Global id t) a
  = OK (N.of_nat (length (nodes a)))
       (set_globalobj (fun m => <[id := N.of_nat (length (nodes a))]> m)
          (addNs (objectBlock noFlags None (DataValue id) (newNodes te)) a)).
Proof.
  intros Hg Ht. unfold objectNodeGlobal. run_refl.
  change (ssa.vid (ssa.Global id t)) with id. rewrite Hg.
  rewrite bind_assoc. run_refl. unfold mustDeref. rewrite Ht.
  rewrite bind_assoc. run_refl. rewrite bind_assoc.
  run_with addNodes_run. rewrite bind_assoc. run_with endObject_run.
  reflexivity.
Qed.

(** C10.  Once the queue is empty, generate does nothing more when
    package [os] is not imported.  When it is, generate appends one
    object with the nodes of [[1]string], the data
    ["<command-line args>"] and no call-graph node, and emits exactly one
    constraint, [addr{o, obj}], where [o] is the object node of the
    global [os.Args]: the recorded one, or the one created on the spot
    when the program never mentioned [os.Args]. *)
Theorem command_line_args :
  (forall a, osArgs a = None -> generate_osArgs a = OK tt a) /\
  (forall a args o,
      osArgs a = Some args -> globalobj a !! ssa.vid args = Some o ->
      o <> 0 -> nodes a <> [] -> flatten tArgsArray <> [] ->
      generate_osArgs a
      = OK tt (addCs [addrConstraint o (N.of_nat (length (nodes a)))]
                 (addNs argsBlock a))) /\
  (forall a id t te,
      osArgs a = Some (ssa.Global id t) -> globalobj a !! id = None ->
      types.Underlying t = types.Pointer te ->
      nodes a <> [] -> flatten tArgsArray <> [] ->
      let o := N.of_nat (length (nodes a) + length argsBlock) in
      generate_osArgs a
      = OK tt (addCs [addrConstraint o (N.of_nat (length (nodes a)))]
                 (set_globalobj (fun m => <[id := o]> m)
                    (addNs (argsBlock
                              ++ objectBlock noFlags None (DataValue id)
                                   (newNodes te)) a)))).
Proof.
  split; [|split].
  - intros a H. unfold generate_osArgs. run_refl. rewrite H. reflexivity.
  - intros a args o Hos Hg Ho Hne Hfl.
    unfold generate_osArgs. run_refl. rewrite Hos.
    run_with addNodes_run.
    destruct (flatten tArgsArray) as [|fi rest] eqn:Efl; [congruence|].
    change (types.Array (types.Basic types.String) 1) with tArgsArray.
    rewrite Efl.
    run_with endObject_run.
    simpl objectNode. erewrite bind_run by (apply objectNodeGlobal_hit, Hg).
    unfold addressOf.
    rewrite bool_decide_eq_false_2 by exact Ho.
    rewrite bool_decide_eq_false_2
      by (destruct (nodes a); [congruence | simpl; lia]).
    reflexivity.
  - intros a id t te Hos Hg Ht Hne Hfl o.
    unfold generate_osArgs. run_refl. rewrite Hos.
    run_with addNodes_run.
    destruct (flatten tArgsArray) as [|fi rest] eqn:Efl; [congruence|].
    change (types.Array (types.Basic types.String) 1) with tArgsArray.
    rewrite Efl.
    run_with endObject_run.
    simpl objectNode.
    erewrite bind_run by (apply objectNodeGlobal_global; [exact Hg|exact Ht]).
    unfold addressOf.
    rewrite bool_decide_eq_false_2
      by (cbn [nodes addNs set_nodes]; rewrite length_app;
          destruct (nodes a); [congruence | simpl; lia]).
    rewrite bool_decide_eq_false_2
      by (destruct (nodes a); [congruence | simpl; lia]).
    rewrite addNs_app.
    cbn [nodes addNs set_nodes]. rewrite length_app. reflexivity.
Qed.

(** ** The constraints of [append] (claim C6) *)

Lemma valueNodeLookup_local a lv v id :
  localval a = Some lv -> lv !! ssa.vid v = Some id ->
  valueNodeLookup a v = Some id.
Proof.
  intros Hl Hv. unfold valueNodeLookup. rewrite Hl. simpl. rewrite Hv.
  reflexivity.
Qed.

Lemma copy_run dst src sz a :
  src <> dst -> src <> 0 -> dst <> 0 ->
  copy dst src sz a = OK tt (addCs (copyList (N.to_nat sz) dst src) a).
Proof.
  intros Hne Hs Hd. unfold copy.
  rewrite (bool_decide_eq_false_2 _ Hne). simpl.
  destruct (bool_decide (sz = 0)) eqn:E.
  - apply bool_decide_eq_true in E. subst sz. simpl.
    rewrite addCs_nil. reflexivity.
  - rewrite (bool_decide_eq_false_2 _ Hs), (bool_decide_eq_false_2 _ Hd).
    simpl. apply copyLoop_run.
Qed.

Lemma load_run dst src off sz a :
  src <> 0 -> dst <> 0 ->
  load dst src off sz a
  = OK tt (addCs (loadList (N.to_nat sz) dst src off) a).
Proof.
  intros Hs Hd. unfold load.
  rewrite (bool_decide_eq_false_2 _ Hs), (bool_decide_eq_false_2 _ Hd).
  simpl. apply loadLoop_run.
Qed.

Lemma store_run dst src off sz a :
  src <> 0 -> dst <> 0 ->
  store dst src off sz a
  = OK tt (addCs (storeList (N.to_nat sz) dst src off) a).
Proof.
  intros Hs Hd. unfold store.
  rewrite (bool_decide_eq_false_2 _ Hs), (bool_decide_eq_false_2 _ Hd).
  simpl. apply storeLoop_run.
Qed.



(** ** The print hook (claim C3) *)

Lemma genBuiltinCall_print instr cgn a id t a0 rest :
  ssa.cc_Value (ssa.Common instr) = ssa.Builtin id t "print" ->
  ssa.Args (ssa.Common instr) = a0 :: rest ->
  Print (config a) = true ->
  genBuiltinCall instr cgn a
  = (let probe := default 0 (probes a !! ssa.cc_id (ssa.Common instr)) in
     let! probe :=
       if bool_decide (probe = 0) then
         let! probe := addNodes (ssa.Type_ a0) in
         do! modify (set_probes
                       (fun m => <[ssa.cc_id (ssa.Common instr) := probe]> m)) in
         do! modify (set_printed
                       (fun l => l ++ [(ssa.cc_id (ssa.Common instr),
                                        mkPtr None probe)])) in
         ret probe
       else ret probe in
     let! n := valueNode a0 in
     copy probe n (sizeof (ssa.Type_ a0))) a.
Proof.
  intros Hv Hargs Hp. unfold genBuiltinCall. rewrite Hv. simpl.
  run_refl. rewrite Hp, Hargs. reflexivity.
Qed.

Lemma print_later instr cgn a id t a0 rest (p : nodeid) :
  ssa.cc_Value (ssa.Common instr) = ssa.Builtin id t "print" ->
  ssa.Args (ssa.Common instr) = a0 :: rest ->
  Print (config a) = true ->
  probes a !! ssa.cc_id (ssa.Common instr) = Some p -> p <> 0 ->
  genBuiltinCall instr cgn a
  = (let! n := valueNode a0 in copy p n (sizeof (ssa.Type_ a0))) a.
Proof.
  intros Hv Hargs Hp Hprobe Hnz.
  rewrite (genBuiltinCall_print _ _ _ _ _ _ _ Hv Hargs Hp).
  rewrite Hprobe. simpl.
  rewrite bool_decide_eq_false_2 by exact Hnz. reflexivity.
Qed.

Lemma print_first instr cgn a id t a0 rest :
  ssa.cc_Value (ssa.Common instr) = ssa.Builtin id t "print" ->
  ssa.Args (ssa.Common instr) = a0 :: rest ->
  Print (config a) = true ->
  probes a !! ssa.cc_id (ssa.Common instr) = None ->
  flatten (ssa.Type_ a0) <> [] ->
  let call := ssa.cc_id (ssa.Common instr) in
  let probe := N.of_nat (length (nodes a)) in
  genBuiltinCall instr cgn a
  = (let! n := valueNode a0 in copy probe n (sizeof (ssa.Type_ a0)))
      (set_printed (fun l => l ++ [(call, mkPtr None probe)])
         (set_probes (fun m => <[call := probe]> m)
            (addNs (newNodes (ssa.Type_ a0)) a))).
Proof.
  intros Hv Hargs Hp Hprobe Hfl call probe.
  rewrite (genBuiltinCall_print _ _ _ _ _ _ _ Hv Hargs Hp).
  rewrite Hprobe. simpl.
  rewrite bind_assoc. run_with addNodes_run.
  destruct (flatten (ssa.Type_ a0)) as [|fi fl] eqn:E; [congruence|].
  reflexivity.
Qed.

Lemma hookCalls_ext a a' call : ext a a' -> hookCalls a' call = hookCalls a call.
Proof. intros H. unfold hookCalls. rewrite (ext_printed _ _ H). reflexivity. Qed.

Lemma probesInv_ext a a' : ext a a' -> probesInv a -> probesInv a'.
Proof.
  intros H Hinv call. specialize (Hinv call).
  rewrite (ext_probes _ _ H), (hookCalls_ext _ _ _ H). exact Hinv.
Qed.

Lemma nodes_nonempty_ext a a' : ext a a' -> nodes a <> [] -> nodes a' <> [].
Proof.
  intros H Hne. destruct (ext_nodes _ _ H) as [ns ->].
  destruct (nodes a); [congruence|discriminate].
Qed.

Lemma preserves_print_tail a0 p :
  preserves (let! n := valueNode a0 in copy p n (sizeof (ssa.Type_ a0))).
Proof.
  apply preserves_bind; [apply preserves_valueNode|].
  intros n. apply preserves_copy.
Qed.

Lemma preserves_leavesProbes m : preserves m -> leavesProbes m.
Proof.
  intros H a a' Hrun. apply H in Hrun.
  repeat split; [apply Hrun..|apply (ext_nodes _ _ Hrun)].
Qed.

Lemma leavesProbes_set_localval lv :
  leavesProbes (modify (set_localval lv)).
Proof.
  intros a a' H. inversion H; subst. repeat split. exists [].
  symmetry. apply app_nil_r.
Qed.

(** One step of the run. *)
Lemma runStep_effect s a a' :
  validStep s -> Print (config a) = true -> nodes a <> [] -> probesInv a ->
  runStep s a = OK tt a' ->
  Print (config a') = true /\ nodes a' <> [] /\ probesInv a' /\
  forall call,
    hasProbe a' call = encountered [s] call || hasProbe a call.
Proof.
  intros Hvalid Hp Hne Hinv Hrun. destruct s as [instr cgn|m]; simpl in *.
  - destruct Hvalid as [(id & t & Hv) (a0 & rest & Hargs & Hfl)].
    destruct (probes a !! ssa.cc_id (ssa.Common instr)) as [p|] eqn:Hprobe.
    + pose proof (Hinv (ssa.cc_id (ssa.Common instr))) as Hc.
      rewrite Hprobe in Hc. destruct Hc as [Hnz Hone].
      rewrite (print_later _ _ _ _ _ _ _ _ Hv Hargs Hp Hprobe Hnz) in Hrun.
      apply preserves_print_tail in Hrun.
      split; [rewrite (ext_config _ _ Hrun); exact Hp|].
      split; [eapply nodes_nonempty_ext; eassumption|].
      split; [eapply probesInv_ext; eassumption|].
      intros call. unfold hasProbe. rewrite (ext_probes _ _ Hrun).
      simpl encountered. rewrite orb_false_r.
      destruct (decide (ssa.cc_id (ssa.Common instr) = call)) as [<-|Hneq].
      * rewrite Hprobe. rewrite !bool_decide_eq_true_2 by eauto. reflexivity.
      * rewrite (bool_decide_eq_false_2 _ Hneq). reflexivity.
    + rewrite (print_first _ _ _ _ _ _ _ Hv Hargs Hp Hprobe Hfl) in Hrun.
      apply preserves_print_tail in Hrun.
      set (call0 := ssa.cc_id (ssa.Common instr)) in *.
      set (probe := N.of_nat (length (nodes a))) in *.
      assert (Hprobe0 : probe <> 0).
      { subst probe. destruct (nodes a); [congruence|simpl; lia]. }
      split; [rewrite (ext_config _ _ Hrun); exact Hp|].
      split.
      { eapply nodes_nonempty_ext; [exact Hrun|]. cbn.
        destruct (nodes a); [congruence|discriminate]. }
      split.
      * intros call. rewrite (ext_probes _ _ Hrun), (hookCalls_ext _ _ _ Hrun).
        cbn [probes set_printed set_probes addNs set_nodes].
        unfold hookCalls. cbn [printed set_printed set_probes addNs set_nodes].
        rewrite filter_app, length_app.
        specialize (Hinv call). unfold hookCalls in Hinv.
        destruct (decide (call0 = call)) as [<-|Hneq].
        -- rewrite lookup_insert_eq. split; [exact Hprobe0|].
           rewrite Hprobe in Hinv. rewrite Hinv.
           rewrite filter_cons_True by reflexivity. reflexivity.
        -- rewrite lookup_insert_ne by exact Hneq.
           rewrite filter_cons_False by (simpl; congruence).
           simpl. rewrite Nat.add_0_r. exact Hinv.
      * intros call. unfold hasProbe. rewrite (ext_probes _ _ Hrun).
        cbn [probes set_printed set_probes addNs set_nodes].
        simpl encountered. rewrite orb_false_r. fold call0.
        destruct (decide (call0 = call)) as [<-|Hneq].
        -- rewrite lookup_insert_eq.
           rewrite !bool_decide_eq_true_2 by eauto. reflexivity.
        -- rewrite lookup_insert_ne by exact Hneq.
           rewrite (bool_decide_eq_false_2 (call0 = call)) by exact Hneq.
           reflexivity.
  - apply Hvalid in Hrun. destruct Hrun as (Hc & Hpr & Hpd & ns & Hns).
    split; [rewrite Hc; exact Hp|].
    split; [rewrite Hns; destruct (nodes a); [congruence|discriminate]|].
    split.
    + intros call. specialize (Hinv call). unfold hookCalls in *.
      rewrite Hpr, Hpd. exact Hinv.
    + intros call. unfold hasProbe. rewrite Hpr. reflexivity.
Qed.

Lemma run_effect steps : forall a a',
  Forall validStep steps ->
  Print (config a) = true -> nodes a <> [] -> probesInv a ->
  forEach steps runStep a = OK tt a' ->
  probesInv a' /\
  forall call, hasProbe a' call = encountered steps call || hasProbe a call.
Proof.
  induction steps as [|s steps IH]; intros a a' Hvalid Hp Hne Hinv Hrun.
  - inversion Hrun; subst. split; [exact Hinv|]. reflexivity.
  - simpl in Hrun. apply bind_OK in Hrun as ([] & a1 & Hs & Hrest).
    inversion Hvalid as [|? ? Hv Hvs]; subst.
    destruct (runStep_effect s a a1 Hv Hp Hne Hinv Hs)
      as (Hp1 & Hne1 & Hinv1 & Hhas1).
    destruct (IH a1 a' Hvs Hp1 Hne1 Hinv1 Hrest) as (Hinv' & Hhas').
    split; [exact Hinv'|].
    intros call. rewrite Hhas', Hhas1. simpl encountered.
    rewrite orb_false_r. rewrite orb_assoc.
    f_equal. apply orb_comm.
Qed.

(** C3, as amended.  With a print hook supplied: the first generation of
    a [print] call site whose first argument has at least one node
    creates the probe, records it under the call site and invokes the
    hook once; every later generation of that call site copies the
    first argument into the recorded probe and does not invoke the hook;
    and over a whole run (calls to [print] in any contours, interleaved
    with any operations that leave the probes alone) the hook is invoked
    exactly once for every call site met and never for another. *)
Theorem print_hook_fires_once :
  (forall instr cgn a id t a0 rest,
      ssa.cc_Value (ssa.Common instr) = ssa.Builtin id t "print" ->
      ssa.Args (ssa.Common instr) = a0 :: rest ->
      Print (config a) = true ->
      probes a !! ssa.cc_id (ssa.Common instr) = None ->
      flatten (ssa.Type_ a0) <> [] ->
      let call := ssa.cc_id (ssa.Common instr) in
      let probe := N.of_nat (length (nodes a)) in
      genBuiltinCall instr cgn a
      = (let! n := valueNode a0 in copy probe n (sizeof (ssa.Type_ a0)))
          (set_printed (fun l => l ++ [(call, mkPtr None probe)])
             (set_probes (fun m => <[call := probe]> m)
                (addNs (newNodes (ssa.Type_ a0)) a)))) /\
  (forall instr cgn a id t a0 rest (p : nodeid),
      ssa.cc_Value (ssa.Common instr) = ssa.Builtin id t "print" ->
      ssa.Args (ssa.Common instr) = a0 :: rest ->
      Print (config a) = true ->
      probes a !! ssa.cc_id (ssa.Common instr) = Some p -> p <> 0 ->
      genBuiltinCall instr cgn a
      = (let! n := valueNode a0 in copy p n (sizeof (ssa.Type_ a0))) a) /\
  (forall a0 p, preserves
                  (let! n := valueNode a0 in
                   copy p n (sizeof (ssa.Type_ a0)))) /\
  (forall steps a a',
      Forall validStep steps ->
      Print (config a) = true -> nodes a <> [] ->
      probes a = ∅ -> printed a = [] ->
      forEach steps runStep a = OK tt a' ->
      forall call,
        hookCalls a' call = if encountered steps call then 1%nat else 0%nat).
Proof.
  split; [exact print_first|]. split; [exact print_later|].
  split; [exact preserves_print_tail|].
  intros steps a a' Hvalid Hp Hne Hprobes Hprinted Hrun call.
  assert (Hinv : probesInv a).
  { intros c. rewrite Hprobes, lookup_empty. unfold hookCalls.
    rewrite Hprinted. reflexivity. }
  destruct (run_effect steps a a' Hvalid Hp Hne Hinv Hrun) as (Hinv' & Hhas).
  specialize (Hinv' call). specialize (Hhas call).
  unfold hasProbe in Hhas. rewrite Hprobes, lookup_empty in Hhas.
  rewrite (bool_decide_eq_false_2 (is_Some None)) in Hhas
    by (intros [? ?]; discriminate).
  rewrite orb_false_r in Hhas. rewrite <- Hhas.
  destruct (probes a' !! call) as [p|].
  - rewrite bool_decide_eq_true_2 by eauto. apply Hinv'.
  - rewrite bool_decide_eq_false_2 by (intros [? ?]; discriminate).
    exact Hinv'.
Qed.

(** ** Pre-applied propagation (claim C4) *)








Lemma copy_inv dst src sz a a' :
  copy dst src sz a = OK tt a' ->
  ((src = dst \/ sz = 0) /\ a' = a) \/
  (src <> dst /\ sz <> 0 /\ src <> 0 /\ dst <> 0 /\
   a' = addCs (copyList (N.to_nat sz) dst src) a).
Proof.
  unfold copy. intros H.
  destruct (decide (src = dst)) as [He|He].
  { rewrite (bool_decide_eq_true_2 _ He) in H. inversion H. auto. }
  rewrite (bool_decide_eq_false_2 _ He) in H.
  destruct (decide (sz = 0)) as [Hz|Hz].
  { rewrite (bool_decide_eq_true_2 _ Hz) in H. inversion H. auto. }
  rewrite (bool_decide_eq_false_2 _ Hz) in H. simpl in H.
  destruct (decide (src = 0)) as [Hs|Hs].
  { rewrite (bool_decide_eq_true_2 _ Hs) in H. discriminate H. }
  rewrite (bool_decide_eq_false_2 _ Hs) in H.
  destruct (decide (dst = 0)) as [Hd|Hd].
  { rewrite (bool_decide_eq_true_2 _ Hd) in H. discriminate H. }
  rewrite (bool_decide_eq_false_2 _ Hd) in H. simpl in H.
  rewrite copyLoop_run in H. inversion H. right. auto.
Qed.

Lemma load_inv dst src off sz a a' :
  load dst src off sz a = OK tt a' ->
  (dst = 0 /\ a' = a) \/
  (dst <> 0 /\ src <> 0 /\
   a' = addCs (loadList (N.to_nat sz) dst src off) a).
Proof.
  unfold load. intros H.
  destruct (decide (dst = 0)) as [Hd|Hd].
  { rewrite (bool_decide_eq_true_2 _ Hd) in H. inversion H. auto. }
  rewrite (bool_decide_eq_false_2 _ Hd) in H.
  rewrite andb_false_r in H.
  destruct (decide (src = 0)) as [Hs|Hs].
  { rewrite (bool_decide_eq_true_2 _ Hs) in H. discriminate H. }
  rewrite (bool_decide_eq_false_2 _ Hs) in H. simpl in H.
  rewrite loadLoop_run in H. inversion H. right. auto.
Qed.

Lemma store_inv dst src off sz a a' :
  store dst src off sz a = OK tt a' ->
  (src = 0 /\ a' = a) \/
  (dst <> 0 /\ src <> 0 /\
   a' = addCs (storeList (N.to_nat sz) dst src off) a).
Proof.
  unfold store. intros H.
  destruct (decide (src = 0)) as [Hs|Hs].
  { rewrite (bool_decide_eq_true_2 _ Hs) in H. inversion H. auto. }
  rewrite (bool_decide_eq_false_2 _ Hs) in H. simpl in H.
  destruct (decide (dst = 0)) as [Hd|Hd].
  { rewrite (bool_decide_eq_true_2 _ Hd) in H. discriminate H. }
  rewrite (bool_decide_eq_false_2 _ Hd) in H. simpl in H.
  rewrite storeLoop_run in H. inversion H. right. auto.
Qed.







(** ** Further properties of the generator *)

(** *** The constraint constructors [load] and [store] *)

Lemma length_loadList n : forall dst src off,
  length (loadList n dst src off) = n.
Proof. induction n as [|n IH]; intros; simpl; [|rewrite IH]; reflexivity. Qed.

Lemma length_storeList n : forall dst src off,
  length (storeList n dst src off) = n.
Proof. induction n as [|n IH]; intros; simpl; [|rewrite IH]; reflexivity. Qed.

Lemma wrap32_succ off i :
  wrap32 (wrap32 (off + 1) + N.of_nat i) = wrap32 (off + N.of_nat (S i)).
Proof.
  unfold wrap32. rewrite N.Div0.add_mod_idemp_l. f_equal. lia.
Qed.

Lemma lookup_loadList n : forall dst src off i,
  dst < 2 ^ 32 -> off < 2 ^ 32 -> (i < n)%nat ->
  loadList n dst src off !! i
  = Some (loadConstraint (wrap32 (off + N.of_nat i))
            (wrap32 (dst + N.of_nat i)) src).
Proof.
  induction n as [|n IH]; intros dst src off i Hdst Hoff Hi; [lia|].
  destruct i as [|i]; cbn [loadList]; rewrite lookup_cons.
  - change (N.of_nat 0) with 0.
    rewrite !N.add_0_r, !wrap32_small by assumption. reflexivity.
  - rewrite IH by (try apply wrap32_bound; lia).
    rewrite !wrap32_succ. reflexivity.
Qed.

Lemma lookup_storeList n : forall dst src off i,
  src < 2 ^ 32 -> off < 2 ^ 32 -> (i < n)%nat ->
  storeList n dst src off !! i
  = Some (storeConstraint (wrap32 (off + N.of_nat i)) dst
            (wrap32 (src + N.of_nat i))).
Proof.
  induction n as [|n IH]; intros dst src off i Hsrc Hoff Hi; [lia|].
  destruct i as [|i]; cbn [storeList]; rewrite lookup_cons.
  - change (N.of_nat 0) with 0.
    rewrite !N.add_0_r, !wrap32_small by assumption. reflexivity.
  - rewrite IH by (try apply wrap32_bound; lia).
    rewrite !wrap32_succ. reflexivity.
Qed.

(** X1.  [load] does nothing when the destination is the node 0,
    whatever the source; it panics when the destination is a node and
    the source is 0; otherwise it adds exactly [sizeof] constraints, the
    [i]-th being [load{offset+i, dst+i, src}] with the offset and the
    destination reduced modulo 2^32, as [uint32]s are: the destination
    and the offset advance together and the source stays.  As long as
    the destination block does not run past the last node id, the
    destination of the [i]-th constraint is [dst+i] itself. *)
Theorem load_behaviour :
  (forall src offset sizeof a, load 0 src offset sizeof a = OK tt a) /\
  (forall dst offset sizeof a,
      dst <> 0 -> load dst 0 offset sizeof a = Panic "ill-typed load") /\
  (forall dst src offset sizeof a,
      dst <> 0 -> src <> 0 ->
      load dst src offset sizeof a
      = OK tt (addCs (loadList (N.to_nat sizeof) dst src offset) a)) /\
  (forall dst src offset sizeof,
      length (loadList (N.to_nat sizeof) dst src offset) = N.to_nat sizeof) /\
  (forall dst src offset sizeof i,
      dst < 2 ^ 32 -> offset < 2 ^ 32 -> i < sizeof ->
      loadList (N.to_nat sizeof) dst src offset !! N.to_nat i
      = Some (loadConstraint (wrap32 (offset + i)) (wrap32 (dst + i)) src)) /\
  (forall dst src offset sizeof i,
      offset < 2 ^ 32 -> i < sizeof -> dst + i < 2 ^ 32 ->
      loadList (N.to_nat sizeof) dst src offset !! N.to_nat i
      = Some (loadConstraint (wrap32 (offset + i)) (dst + i) src)).
Proof.
  split; [|split; [|split; [|split; [|split]]]].
  - intros. reflexivity.
  - intros dst offset sizeof a Hd. unfold load.
    rewrite (bool_decide_eq_false_2 _ Hd). reflexivity.
  - intros dst src offset sizeof a Hd Hs. apply load_run; assumption.
  - intros. apply length_loadList.
  - intros dst src offset sizeof i Hdst Hoff Hi.
    rewrite lookup_loadList by (try assumption; lia).
    rewrite N2Nat.id. reflexivity.
  - intros dst src offset sizeof i Hoff Hi Hd.
    rewrite lookup_loadList by (try assumption; lia).
    rewrite N2Nat.id. rewrite (wrap32_small (dst + i)) by exact Hd.
    reflexivity.
Qed.

(** X2.  [store] does nothing when the source is the node 0, whatever
    the destination; it panics when the source is a node and the
    destination is 0; otherwise it adds exactly [sizeof] constraints,
    the [i]-th being [store{offset+i, dst, src+i}] with the offset and
    the source reduced modulo 2^32, as [uint32]s are: here the source
    and the offset advance and the destination stays.  As long as the
    source block does not run past the last node id, the source of the
    [i]-th constraint is [src+i] itself. *)
Theorem store_behaviour :
  (forall dst offset sizeof a, store dst 0 offset sizeof a = OK tt a) /\
  (forall src offset sizeof a,
      src <> 0 -> store 0 src offset sizeof a = Panic "ill-typed store") /\
  (forall dst src offset sizeof a,
      dst <> 0 -> src <> 0 ->
      store dst src offset sizeof a
      = OK tt (addCs (storeList (N.to_nat sizeof) dst src offset) a)) /\
  (forall dst src offset sizeof,
      length (storeList (N.to_nat sizeof) dst src offset) = N.to_nat sizeof) /\
  (forall dst src offset sizeof i,
      src < 2 ^ 32 -> offset < 2 ^ 32 -> i < sizeof ->
      storeList (N.to_nat sizeof) dst src offset !! N.to_nat i
      = Some (storeConstraint (wrap32 (offset + i)) dst
                (wrap32 (src + i)))) /\
  (forall dst src offset sizeof i,
      offset < 2 ^ 32 -> i < sizeof -> src + i < 2 ^ 32 ->
      storeList (N.to_nat sizeof) dst src offset !! N.to_nat i
      = Some (storeConstraint (wrap32 (offset + i)) dst (src + i))).
Proof.
  split; [|split; [|split; [|split; [|split]]]].
  - intros. reflexivity.
  - intros src offset sizeof a Hs. unfold store.
    rewrite (bool_decide_eq_false_2 _ Hs). reflexivity.
  - intros dst src offset sizeof a Hd Hs. apply store_run; assumption.
  - intros. apply length_storeList.
  - intros dst src offset sizeof i Hsrc Hoff Hi.
    rewrite lookup_storeList by (try assumption; lia).
    rewrite N2Nat.id. reflexivity.
  - intros dst src offset sizeof i Hoff Hi Hs.
    rewrite lookup_storeList by (try assumption; lia).
    rewrite N2Nat.id. rewrite (wrap32_small (src + i)) by exact Hs.
    reflexivity.
Qed.

(** *** Node and object creation *)

Lemma newNodes_plain typ :
  Forall (fun n => n_obj n = None /\ n_pts n = ∅) (newNodes typ).
Proof.
  unfold newNodes. apply Forall_forall. intros n Hn.
  apply list_elem_of_fmap in Hn as (fi & -> & _). split; reflexivity.
Qed.

(** X3.  [addNodes] appends one node per entry of the flattening of the
    type, each without object header and with an empty points-to set,
    and changes nothing else.  Its result is the id of the first new
    node, or 0 when the type has no entry; so the result is 0 exactly
    when nothing was created or the table was empty (the node created
    first of all is the node 0 itself). *)
Theorem addNodes_result typ a :
  let id := if flatten typ is [] then 0 else N.of_nat (length (nodes a)) in
  addNodes typ a = OK id (addNs (newNodes typ) a) /\
  length (newNodes typ) = length (flatten typ) /\
  Forall (fun n => n_obj n = None /\ n_pts n = ∅) (newNodes typ) /\
  (id = 0 <-> flatten typ = [] \/ nodes a = []).
Proof.
  split; [apply addNodes_run|]. split; [apply length_map|].
  split; [apply newNodes_plain|].
  destruct (flatten typ) as [|fi l]; simpl.
  - split; auto.
  - split.
    + intros H. right. destruct (nodes a); [reflexivity|simpl in H; lia].
    + intros [H| ->]; [discriminate H|reflexivity].
Qed.

(** X4.  [endObject] panics when the start node lies beyond the table.
    Otherwise it returns the start node, after writing on it a header
    without flags whose size is the number of nodes from the start to
    the end of the table; exactly when that size is 0 it first appends
    one invalid node as padding, which then carries the header, so that
    every object occupies at least one node while its recorded size
    excludes the padding. *)
Theorem endObject_cases obj cgn data a :
  let n := N.of_nat (length (nodes a)) in
  let size := wrap32 (n - obj) in
  (n < obj -> endObject obj cgn data a = Panic "index out of range") /\
  (obj <= n ->
   exists nd,
     (nodes a ++ padIf size) !! N.to_nat obj = Some nd /\
     endObject obj cgn data a
     = OK obj
         (set_nodes
            (fun ns => <[N.to_nat obj :=
                           setObj nd (Some (mkObject size noFlags cgn data))]> ns)
            (addNs (padIf size) a))) /\
  (obj = n -> size = 0 /\ padIf size = [mkNode tInvalid None None ∅]) /\
  (obj < n -> n - obj < 2 ^ 32 -> size = n - obj /\ padIf size = []).
Proof.
  intros n size. split; [|split; [|split]].
  - intros Hlt. unfold endObject, bind, nextNode. fold n.
    rewrite decide_True by exact Hlt. reflexivity.
  - intros Hle.
    assert (Hex : exists nd, (nodes a ++ padIf size) !! N.to_nat obj = Some nd).
    { apply lookup_lt_is_Some. rewrite length_app.
      destruct (decide (obj = n)) as [->|Hne].
      - unfold size. rewrite N.sub_diag. subst n. simpl. lia.
      - subst n. lia. }
    destruct Hex as [nd Hnd]. exists nd. split; [exact Hnd|].
    unfold endObject, bind, nextNode. fold n.
    rewrite decide_False by lia. fold size.
    unfold when, padIf in *.
    destruct (bool_decide (size = 0)).
    + unfold bind, addOneNode, nextNode, modify, ret, bind, nodeAt.
      cbn [nodes set_nodes]. rewrite Hnd. reflexivity.
    + unfold ret, nodeAt. rewrite app_nil_r in Hnd. rewrite Hnd.
      rewrite addNs_nil. reflexivity.
  - intros ->. unfold size. rewrite N.sub_diag. split; reflexivity.
  - intros Hlt Hsmall. unfold size. rewrite wrap32_small by exact Hsmall.
    split; [reflexivity|]. unfold padIf.
    rewrite bool_decide_eq_false_2 by lia. reflexivity.
Qed.

Lemma nodeAt_block a ns hd rest :
  nodes a = ns ++ hd :: rest -> nodeAt (N.of_nat (length ns)) a = OK hd a.
Proof.
  intros H. unfold nodeAt. rewrite Nat2N.id, H.
  rewrite list_lookup_middle by reflexivity. reflexivity.
Qed.

Lemma sizeof_small T :
  N.of_nat (length (flatten T)) < 2 ^ 32 ->
  sizeof T = N.of_nat (length (flatten T)).
Proof. intros H. unfold sizeof. apply wrap32_small. exact H. Qed.

Lemma length_newNodes T : length (newNodes T) = length (flatten T).
Proof. apply length_map. Qed.

Lemma length_objectBlock fl cgn data blk :
  blk <> [] -> N.of_nat (length blk) < 2 ^ 32 ->
  length (objectBlock fl cgn data blk) = length blk.
Proof.
  intros Hne Hsmall. unfold objectBlock.
  rewrite wrap32_small by exact Hsmall.
  unfold padIf. rewrite bool_decide_eq_false_2
    by (destruct blk; [congruence|simpl; lia]).
  rewrite app_nil_r. destruct blk; [congruence|reflexivity].
Qed.

(** X5.  [makeFunctionObject] never panics.  It appends the block
    identity, receiver, parameters, results of the function, with a
    header flagged as a function on the identity node, a new call-graph
    node, and queues that node.  On the result, [funcParams] is the node
    after the identity and [funcResults] is the node after the receiver
    and the parameters; when the block has fewer than 2^32 nodes the
    results end exactly where the object ends.  The object is not a
    tagged object. *)
Theorem function_object_layout fn cs a :
  let obj := N.of_nat (length (nodes a)) in
  let sig := ssa.Signature fn in
  let recvSize := match types.Recv sig with
                  | Some recv => sizeof recv
                  | None => 0
                  end in
  let r := obj + (1 + sizeof (types.Tuple (types.Params sig))) + recvSize in
  exists a',
    makeFunctionObject fn cs a = OK obj a' /\
    nodes a'
    = nodes a ++ objectBlock (setFunction noFlags) (Some (length (cgnodes a)))
                   (DataValue (ssa.fn_id fn)) (fnBlock fn) /\
    cgnodes a' = cgnodes a ++ [mkCgnode fn obj cs []] /\
    genq a' = genq a ++ [length (cgnodes a)] /\
    funcParams obj a' = OK (obj + 1) a' /\
    funcResults obj a' = OK r a' /\
    taggedValue obj a' = OK (None, 0, false) a' /\
    (N.of_nat (length (fnBlock fn)) < 2 ^ 32 ->
     r + sizeof (types.Tuple (types.Results sig))
     = N.of_nat (length (nodes a'))).
Proof.
  intros obj sig recvSize r. eexists.
  split; [apply makeFunctionObject_run|].
  cbn [nodes cgnodes genq set_genq addNs set_nodes set_cgnodes].
  split; [reflexivity|]. split; [reflexivity|]. split; [reflexivity|].
  set (a' := set_genq _ _).
  assert (Hn : exists hdr rest,
             nodes a'
             = nodes a ++ mkNode (types.sigType sig) None
                            (Some (mkObject hdr (setFunction noFlags)
                                     (Some (length (cgnodes a)))
                                     (DataValue (ssa.fn_id fn)))) ∅ :: rest).
  { subst a'. cbn [nodes set_genq addNs set_nodes set_cgnodes].
    unfold objectBlock, fnBlock. cbn [app install setObj n_typ n_subelement n_pts].
    eexists _, _. reflexivity. }
  destruct Hn as (hdr & rest & Hn).
  split; [|split; [|split]].
  - unfold funcParams. erewrite bind_run by (eapply nodeAt_block; exact Hn).
    reflexivity.
  - unfold funcResults. erewrite bind_run by (eapply nodeAt_block; exact Hn).
    cbn [isFunctionBlock n_obj o_flags setFunction otFunction n_typ].
    unfold types.sigType, types.asSignature.
    subst r recvSize. cbn [types.Params types.Recv].
    destruct (types.Recv sig); [reflexivity|].
    rewrite N.add_0_r. reflexivity.
  - unfold taggedValue. erewrite bind_run by (eapply nodeAt_block; exact Hn).
    reflexivity.
  - intros Hsmall. subst a'.
    cbn [nodes set_genq addNs set_nodes set_cgnodes].
    rewrite length_app, length_objectBlock
      by (try exact Hsmall; unfold fnBlock; discriminate).
    unfold fnBlock in *. cbn [length] in *.
    rewrite !length_app, !length_newNodes in *.
    subst r recvSize obj. fold sig in Hsmall |- *.
    rewrite !sizeof_small by lia.
    destruct (types.Recv sig) as [recv|].
    + rewrite length_newNodes in *. rewrite sizeof_small by lia. lia.
    + simpl in *. lia.
Qed.

Lemma tagged_round_trip_aux typ cgn data a :
  makeTagged typ cgn data a
  = OK (N.of_nat (length (nodes a)))
       (addNs (objectBlock (setTagged noFlags) cgn data (taggedBlock typ)) a) /\
  taggedValue (N.of_nat (length (nodes a)))
    (addNs (objectBlock (setTagged noFlags) cgn data (taggedBlock typ)) a)
  = OK (Some typ, N.of_nat (length (nodes a)) + 1, false)
       (addNs (objectBlock (setTagged noFlags) cgn data (taggedBlock typ)) a).
Proof.
  split; [apply makeTagged_run|].
  unfold taggedValue.
  erewrite bind_run.
  2:{ eapply (nodeAt_block _ (nodes a)). cbn [nodes addNs set_nodes].
      unfold objectBlock, taggedBlock.
      cbn [app install setObj n_typ n_subelement n_pts]. reflexivity. }
  reflexivity.
Qed.

(** X6.  [makeTagged] never panics and [taggedValue] reads back what it
    wrote: the tag is the type given, the payload starts at the next
    node and the object is not indirect.  The payload is one node per
    entry of the flattening of the type, and the nodes that existed
    before are untouched.  A tagged object is not a function object:
    [funcParams] and [funcResults] panic on it. *)
Theorem tagged_round_trip typ cgn data a :
  let obj := N.of_nat (length (nodes a)) in
  exists a',
    makeTagged typ cgn data a = OK obj a' /\
    taggedValue obj a' = OK (Some typ, obj + 1, false) a' /\
    (forall i fi, flatten typ !! i = Some fi ->
                  nodes a' !! (S (length (nodes a)) + i)%nat
                  = Some (nodeOf fi)) /\
    (forall i, (i < length (nodes a))%nat -> nodes a' !! i = nodes a !! i) /\
    funcParams obj a' = Panic "funcParams: not a function object block" /\
    funcResults obj a' = Panic "funcResults: not a function object block".
Proof.
  intros obj. eexists. split; [apply makeTagged_run|].
  set (a' := addNs _ a).
  assert (Hn : exists hdr pad,
             nodes a'
             = nodes a ++ mkNode typ None
                            (Some (mkObject hdr (setTagged noFlags) cgn data)) ∅
                          :: (newNodes typ ++ pad)).
  { subst a'. cbn [nodes addNs set_nodes].
    unfold objectBlock, taggedBlock.
    cbn [app install setObj n_typ n_subelement n_pts].
    eexists _, _. reflexivity. }
  destruct Hn as (hdr & pad & Hn).
  split; [|split; [|split; [|split]]].
  - unfold taggedValue. erewrite bind_run by (eapply nodeAt_block; exact Hn).
    reflexivity.
  - intros i fi Hi. rewrite Hn.
    rewrite lookup_app_r by lia.
    replace (S (length (nodes a)) + i - length (nodes a))%nat with (S i) by lia.
    simpl. rewrite lookup_app_l
      by (rewrite length_newNodes; eapply lookup_lt_Some; exact Hi).
    unfold newNodes. rewrite list_lookup_fmap, Hi. reflexivity.
  - intros i Hi. rewrite Hn. apply lookup_app_l. exact Hi.
  - unfold funcParams. erewrite bind_run by (eapply nodeAt_block; exact Hn).
    reflexivity.
  - unfold funcResults. erewrite bind_run by (eapply nodeAt_block; exact Hn).
    reflexivity.
Qed.

(** *** Frames: what the operations leave alone *)

Section Keeps.

Context {R : Type} (f : analysis -> R).
Hypothesis f_nodes : forall g a, f (set_nodes g a) = f a.
Hypothesis f_constraints : forall g a, f (set_constraints g a) = f a.
Hypothesis f_cgnodes : forall g a, f (set_cgnodes g a) = f a.
Hypothesis f_genq : forall g a, f (set_genq g a) = f a.
Hypothesis f_globalobj : forall g a, f (set_globalobj g a) = f a.
Hypothesis f_resultQueries : forall g a, f (set_resultQueries g a) = f a.

Lemma keeps_ret {A} (x : A) : keeps f (ret x).
Proof. intros a y a' H. inversion H. reflexivity. Qed.

Lemma keeps_panic {A} msg : keeps f (@panic A msg).
Proof. intros a y a' H. discriminate H. Qed.

Lemma keeps_get : keeps f get.
Proof. intros a y a' H. inversion H. reflexivity. Qed.

Lemma keeps_bind {A B} (m : M A) (k : A -> M B) :
  keeps f m -> (forall x, keeps f (k x)) -> keeps f (bind m k).
Proof.
  intros Hm Hk a y a' H. apply bind_OK in H as (x & a1 & H1 & H2).
  rewrite (Hk _ _ _ _ H2). apply (Hm _ _ _ H1).
Qed.

Lemma keeps_when c m : keeps f m -> keeps f (when c m).
Proof. intros H. destruct c; [exact H|apply keeps_ret]. Qed.

Lemma keeps_forEach {A} (l : list A) k :
  (forall x, keeps f (k x)) -> keeps f (forEach l k).
Proof.
  intros Hk. induction l as [|x l IH]; simpl; [apply keeps_ret|].
  apply keeps_bind; [apply Hk|]. intros _. exact IH.
Qed.

Lemma keeps_read {A} (m : M A) :
  (forall a x a', m a = OK x a' -> a' = a) -> keeps f m.
Proof. intros Hm a x a' H. rewrite (Hm _ _ _ H). reflexivity. Qed.

Lemma keeps_nodeAt id : keeps f (nodeAt id).
Proof.
  apply keeps_read. intros a x a' H. unfold nodeAt in H.
  destruct (nodes a !! N.to_nat id); inversion H. reflexivity.
Qed.

Lemma keeps_nextNode : keeps f nextNode.
Proof. apply keeps_read. intros a x a' H. inversion H. reflexivity. Qed.

Lemma keeps_addOneNode t s : keeps f (addOneNode t s).
Proof. intros a x a' H. inversion H. apply f_nodes. Qed.

Lemma keeps_addNodes t : keeps f (addNodes t).
Proof.
  intros a x a' H. rewrite addNodes_run in H. inversion H. apply f_nodes.
Qed.

Lemma keeps_setNode id n : keeps f (setNode id n).
Proof. intros a x a' H. inversion H. apply f_nodes. Qed.

Lemma keeps_endObject obj cgn data : keeps f (endObject obj cgn data).
Proof.
  unfold endObject. apply keeps_bind; [apply keeps_nextNode|]. intros n.
  destruct (decide _); [apply keeps_panic|].
  apply keeps_bind.
  { apply keeps_when, keeps_bind; [apply keeps_addOneNode|].
    intros _. apply keeps_ret. }
  intros _. apply keeps_bind; [apply keeps_nodeAt|]. intros nd.
  apply keeps_bind; [apply keeps_setNode|]. intros _. apply keeps_ret.
Qed.

Lemma keeps_makeFunctionObject fn cs : keeps f (makeFunctionObject fn cs).
Proof.
  intros a x a' H. rewrite makeFunctionObject_run in H. inversion H.
  rewrite f_genq. unfold addNs. rewrite f_nodes. apply f_cgnodes.
Qed.

Lemma keeps_addConstraint c : keeps f (addConstraint c).
Proof. intros a x a' H. inversion H. apply f_constraints. Qed.

Lemma keeps_copy dst src sz : keeps f (copy dst src sz).
Proof.
  intros a [] a' H.
  apply copy_inv in H as [[_ ->]|(_ & _ & _ & _ & ->)];
    [reflexivity|apply f_constraints].
Qed.

Lemma keeps_load dst src off sz : keeps f (load dst src off sz).
Proof.
  intros a [] a' H.
  apply load_inv in H as [[_ ->]|(_ & _ & ->)];
    [reflexivity|apply f_constraints].
Qed.

Lemma keeps_addressOf id obj : keeps f (addressOf id obj).
Proof.
  unfold addressOf. destruct (bool_decide _); [apply keeps_panic|].
  destruct (bool_decide _); [apply keeps_panic|]. apply keeps_addConstraint.
Qed.

Lemma keeps_alloc t cgn data :
  keeps f (let! obj := nextNode in
           do! addNodes t in
           do! endObject obj cgn data in
           ret obj).
Proof.
  apply keeps_bind; [apply keeps_nextNode|]. intros obj.
  apply keeps_bind; [apply keeps_addNodes|]. intros _.
  apply keeps_bind; [apply keeps_endObject|]. intros _. apply keeps_ret.
Qed.

Lemma keeps_objectNodeGlobal v : keeps f (objectNodeGlobal v).
Proof.
  unfold objectNodeGlobal.
  apply keeps_bind; [apply keeps_get|]. intros a.
  destruct (globalobj a !! ssa.vid v); [apply keeps_ret|].
  apply keeps_bind.
  2:{ intros o. apply keeps_bind; [|intros; apply keeps_ret].
      intros a0 x a0' H. inversion H. apply f_globalobj. }
  destruct v as [fn | id t name | id t | id t isNil | id t | id t | id t
                 | id t | id t | id t | id t fn | id t X | id t X F | id t X
                 | id t X | c | c | id t]; try apply keeps_ret.
  - apply keeps_makeFunctionObject.
  - apply keeps_bind; [apply keeps_nextNode|]. intros obj.
    apply keeps_bind.
    { unfold mustDeref. destruct (types.Underlying t);
        first [apply keeps_ret|apply keeps_panic]. }
    intros te. apply keeps_bind; [apply keeps_addNodes|]. intros _.
    apply keeps_bind; [apply keeps_endObject|]. intros _. apply keeps_ret.
  - destruct (types.Underlying t); try apply keeps_ret.
    destruct (negb isNil); [|apply keeps_ret].
    apply keeps_bind; [apply keeps_nextNode|]. intros obj.
    apply keeps_bind.
    { unfold sliceToArray. destruct (types.Underlying _);
        first [apply keeps_ret|apply keeps_panic]. }
    intros ta. apply keeps_bind; [apply keeps_addNodes|]. intros _.
    apply keeps_bind; [apply keeps_endObject|]. intros _. apply keeps_ret.
Qed.

Lemma keeps_valueNodeCached v : keeps f (valueNodeCached v).
Proof.
  unfold valueNodeCached. apply keeps_bind; [apply keeps_get|]. intros a.
  destruct (valueNodeLookup a v); [apply keeps_ret|apply keeps_panic].
Qed.

Lemma keeps_genLoadGlobal cgn result ptr off sz :
  keeps f (genLoadWith (fun _ => objectNodeGlobal) valueNodeCached
             cgn result ptr off sz).
Proof.
  unfold genLoadWith.
  apply keeps_bind; [apply keeps_objectNodeGlobal|]. intros obj.
  destruct (negb _); [apply keeps_copy|].
  apply keeps_bind; [apply keeps_valueNodeCached|]. intros p.
  apply keeps_load.
Qed.

(** What setValueNode does after it has written the map. *)
Lemma keeps_setValueNode_tail v id cgn :
  keeps f
    (let! a := get in
     match Queries (config a) !! ssa.vid v with
     | Some indirect =>
         let! id :=
           if (indirect : bool) then
             let! tmp := addNodes (ssa.Type_ v) in
             do! genLoadWith (fun _ => objectNodeGlobal) valueNodeCached
                   cgn tmp v 0 (sizeof (ssa.Type_ v)) in
             ret tmp
           else ret id in
         modify (set_resultQueries (fun q =>
           <[ssa.vid v := default [] (q !! ssa.vid v) ++ [mkPtr cgn id]]> q))
     | None => ret tt
     end).
Proof.
  apply keeps_bind; [apply keeps_get|]. intros a.
  destruct (Queries (config a) !! ssa.vid v) as [indirect|];
    [|apply keeps_ret].
  apply keeps_bind.
  - destruct indirect; [|apply keeps_ret].
    apply keeps_bind; [apply keeps_addNodes|]. intros tmp.
    apply keeps_bind; [apply keeps_genLoadGlobal|]. intros _.
    apply keeps_ret.
  - intros id'. intros a0 x a0' H. inversion H. apply f_resultQueries.
Qed.

End Keeps.

(** *** Value nodes and object nodes are recorded *)

Lemma objectNodeLocal_unfold c v :
  exists body : M nodeid,
    forall a,
      objectNodeLocal c v a
      = match localobj a ≫= (fun m => m !! ssa.vid v) with
        | Some obj => OK obj a
        | None =>
            (let! obj := body in
             do! writeLocalobj v obj in
             ret obj) a
        end.
Proof.
  destruct v; eexists; intros a; simpl objectNodeLocal;
    unfold bind at 1; unfold get;
    (destruct (localobj a ≫= _); reflexivity).
Qed.

(** X7.  [objectNode] is idempotent: once it has returned an object
    for a value in a contour (or globally), every later call for that
    value in the state it left returns the same object, zero included,
    and changes nothing. *)
Theorem objectNode_idempotent cgn v a obj a' :
  objectNode cgn v a = OK obj a' -> objectNode cgn v a' = OK obj a'.
Proof.
  destruct cgn as [c|]; simpl.
  - destruct (objectNodeLocal_unfold c v) as [body Hu].
    rewrite !Hu. clear Hu.
    destruct (localobj a ≫= _) as [o|] eqn:E.
    + intros H. inversion H; subst. rewrite E. reflexivity.
    + intros H. apply bind_OK in H as (x & a1 & _ & H).
      apply bind_OK in H as ([] & a2 & Hw & H). inversion H; subst.
      unfold writeLocalobj in Hw.
      destruct (localobj a1) as [m|]; [|discriminate Hw].
      inversion Hw; subst. cbn [localobj set_localobj].
      simpl. rewrite lookup_insert_eq. reflexivity.
  - unfold objectNodeGlobal. intros H.
    erewrite bind_run in H by reflexivity.
    destruct (globalobj a !! ssa.vid v) as [o|] eqn:E.
    + inversion H; subst. erewrite bind_run by reflexivity.
      rewrite E. reflexivity.
    + apply bind_OK in H as (x & a1 & _ & H).
      apply bind_OK in H as ([] & a2 & Hw & H). inversion H; subst.
      inversion Hw; subst.
      erewrite bind_run by reflexivity.
      cbn [globalobj set_globalobj]. rewrite lookup_insert_eq. reflexivity.
Qed.

(** X8.  [valueNode] is idempotent: the node it returns for a value is
    recorded, and every later call in the state it left returns the
    same node and changes nothing; this holds as well when the value is
    queried and setValueNode has generated the load of an indirect
    query. *)
Theorem valueNode_idempotent v a id a' :
  valueNode v a = OK id a' -> valueNode v a' = OK id a'.
Proof.
  intros H. unfold valueNode in H. erewrite bind_run in H by reflexivity.
  destruct (valueNodeLookup a v) as [x|] eqn:E.
  - inversion H; subst. apply valueNode_hit. exact E.
  - apply valueNode_hit.
    apply bind_OK in H as (id0 & a1 & H1 & H).
    apply bind_OK in H as (obj & a2 & H2 & H).
    apply bind_OK in H as ([] & a3 & H3 & H).
    apply bind_OK in H as ([] & a4 & H4 & H). inversion H; subst id0 a4.
    unfold setValueNodeWith in H4.
    apply bind_OK in H4 as ([] & a3' & H40 & H4).
    inversion H40; subst a3'. clear H40.
    set (a3' := set_globalval (fun m => <[ssa.vid v := id]> m) a3) in H4.
    assert (Hl : localval a' = localval a3').
    { eapply (keeps_setValueNode_tail localval);
        first [exact H4|intros; reflexivity]. }
    assert (Hg : globalval a' = globalval a3').
    { eapply (keeps_setValueNode_tail globalval);
        first [exact H4|intros; reflexivity]. }
    subst a3'. cbn [localval globalval set_globalval] in Hl, Hg.
    assert (Hl3 : localval a3 = localval a).
    { transitivity (localval a2).
      { eapply (keeps_when localval); [|exact H3].
        apply keeps_addressOf. intros; reflexivity. }
      transitivity (localval a1).
      { eapply (keeps_objectNodeGlobal localval);
          first [exact H2|intros; reflexivity]. }
      inversion H1. reflexivity. }
    unfold valueNodeLookup in *. rewrite Hl, Hg, Hl3.
    destruct (localval a ≫= _); [discriminate E|].
    rewrite lookup_insert_eq. reflexivity.
Qed.

(** *** Addresses of fields and elements *)

Lemma objectNodeLocal_hit c v a lo o :
  localobj a = Some lo -> lo !! ssa.vid v = Some o ->
  objectNodeLocal c v a = OK o a.
Proof.
  intros Hlo Ho. destruct (objectNodeLocal_unfold c v) as [body Hu].
  rewrite Hu, Hlo. simpl. rewrite Ho. reflexivity.
Qed.


(** *** Built-ins and conversions that generate nothing *)

(** X10.  A call to a built-in other than [append], [copy], [panic],
    [recover] and [print] generates nothing and never panics, whatever
    its arguments; so does [print] when the client supplied no hook and
    [recover] in an instruction without a value; a callee that is not a
    built-in is a failed type assertion. *)
Theorem genBuiltinCall_noops :
  (forall instr cgn a id t name,
      ssa.cc_Value (ssa.Common instr) = ssa.Builtin id t name ->
      name ∉ ["append"; "copy"; "panic"; "recover"; "print"]%string ->
      genBuiltinCall instr cgn a = OK tt a) /\
  (forall instr cgn a id t,
      ssa.cc_Value (ssa.Common instr) = ssa.Builtin id t "print" ->
      Print (config a) = false ->
      genBuiltinCall instr cgn a = OK tt a) /\
  (forall instr cgn a id t,
      ssa.cc_Value (ssa.Common instr) = ssa.Builtin id t "recover" ->
      ssa.InstrValue_ instr = None ->
      genBuiltinCall instr cgn a = OK tt a) /\
  (forall instr cgn a,
      (forall id t name,
          ssa.cc_Value (ssa.Common instr) <> ssa.Builtin id t name) ->
      genBuiltinCall instr cgn a
      = Panic "interface conversion: not a *ssa.Builtin").
Proof.
  split; [|split; [|split]].
  - intros instr cgn a id t name Hv Hn. unfold genBuiltinCall. rewrite Hv.
    rewrite !bool_decide_eq_false_2; [reflexivity|..];
      intros ->; apply Hn; set_solver.
  - intros instr cgn a id t Hv Hp. unfold genBuiltinCall. rewrite Hv.
    simpl. run_refl. rewrite Hp. reflexivity.
  - intros instr cgn a id t Hv Hi. unfold genBuiltinCall. rewrite Hv.
    simpl. rewrite Hi. reflexivity.
  - intros instr cgn a Hv. unfold genBuiltinCall.
    destruct (ssa.cc_Value (ssa.Common instr)) eqn:E; try reflexivity.
    exfalso. eapply Hv. reflexivity.
Qed.

(** X11.  [genConv] generates nothing when the result of the
    conversion is the node 0, when the operand is a slice, when a
    pointer is converted to [unsafe.Pointer], and when both types are
    basic.  With a result node it panics on every conversion it has no
    case for: a pointer to anything but the type [unsafe.Pointer]
    itself (a named type over it included), a basic type other than
    [unsafe.Pointer] to a pointer, a basic type that is not a string to
    a slice, a basic type to any other kind of type. *)
Theorem genConv_ignored_or_illegal :
  (forall conv cgn a,
      valueNodeLookup a (ssa.VConvert conv) = Some 0 ->
      genConv conv cgn a = OK tt a) /\
  (forall conv cgn a res,
      valueNodeLookup a (ssa.VConvert conv) = Some res -> res <> 0 ->
      let uSrc := types.Underlying (ssa.Type_ (ssa.conv_X conv)) in
      let tDst := ssa.conv_typ conv in
      ((exists e, uSrc = types.Slice e) \/
       ((exists e, uSrc = types.Pointer e) /\ tDst = tUnsafePtr) \/
       ((exists k, uSrc = types.Basic k) /\
        exists k', types.Underlying tDst = types.Basic k')) ->
      genConv conv cgn a = OK tt a) /\
  (forall conv cgn a res,
      valueNodeLookup a (ssa.VConvert conv) = Some res -> res <> 0 ->
      let uSrc := types.Underlying (ssa.Type_ (ssa.conv_X conv)) in
      let tDst := ssa.conv_typ conv in
      (((exists e, uSrc = types.Pointer e) /\ tDst <> tUnsafePtr) \/
       (exists k e, uSrc = types.Basic k /\ k <> types.UnsafePointer /\
                    types.Underlying tDst = types.Pointer e) \/
       (exists k e, uSrc = types.Basic k /\ types.isString k = false /\
                    types.Underlying tDst = types.Slice e) \/
       (exists k, uSrc = types.Basic k /\
                  (forall e, types.Underlying tDst <> types.Pointer e) /\
                  (forall e, types.Underlying tDst <> types.Slice e) /\
                  (forall k', types.Underlying tDst <> types.Basic k'))) ->
      genConv conv cgn a = Panic "illegal *ssa.Convert").
Proof.
  split; [|split].
  - intros conv cgn a Hv. unfold genConv.
    run_with (valueNode_hit _ _ _ Hv). reflexivity.
  - intros conv cgn a res Hv Hnz uSrc tDst Hc. unfold genConv.
    run_with (valueNode_hit _ _ _ Hv).
    rewrite bool_decide_eq_false_2 by exact Hnz.
    fold uSrc tDst.
    destruct Hc as [[e ->]|[[[e ->] ->]|[[k ->] [k' ->]]]].
    + reflexivity.
    + rewrite decide_True by reflexivity. reflexivity.
    + reflexivity.
  - intros conv cgn a res Hv Hnz uSrc tDst Hc. unfold genConv.
    run_with (valueNode_hit _ _ _ Hv).
    rewrite bool_decide_eq_false_2 by exact Hnz.
    fold uSrc tDst.
    destruct Hc as [[[e ->] Hd]|[(k & e & -> & Hk & ->)
                   |[(k & e & -> & Hk & ->)|(k & -> & Hp & Hs & Hb)]]].
    + rewrite decide_False by exact Hd. reflexivity.
    + rewrite decide_False; [reflexivity|].
      unfold tUnsafePtr. intros E. injection E as ->. apply Hk. reflexivity.
    + rewrite Hk. reflexivity.
    + destruct (types.Underlying tDst) eqn:E;
        first [reflexivity
              |exfalso; eapply Hp; reflexivity
              |exfalso; eapply Hs; reflexivity
              |exfalso; eapply Hb; reflexivity].
Qed.

(** X12.  For a conversion of a string to a slice type [[]e] whose
    backing array has at least one node, with the value node [res] of
    the conversion in place, [genConv] appends a fresh object of type
    [[1]e] owned by the current contour, with the conversion as its
    data, and emits [addr{res, obj}]; it raises no warning. *)
Theorem string_to_slice_conversion conv cgn a res k e :
  valueNodeLookup a (ssa.VConvert conv) = Some res -> res <> 0 ->
  types.Underlying (ssa.Type_ (ssa.conv_X conv)) = types.Basic k ->
  types.isString k = true ->
  types.Underlying (ssa.conv_typ conv) = types.Slice e ->
  flatten (types.Array e 1) <> [] -> nodes a <> [] ->
  genConv conv cgn a
  = OK tt (addCs [addrConstraint res (N.of_nat (length (nodes a)))]
             (addNs (objectBlock noFlags cgn (DataValue (ssa.conv_id conv))
                       (newNodes (types.Array e 1)))
                a)).
Proof.
  intros Hres Hnz Hsrc Hstr Hdst Hfl Hne.
  unfold genConv. run_with (valueNode_hit _ _ _ Hres).
  rewrite bool_decide_eq_false_2 by exact Hnz.
  rewrite Hsrc, Hdst, Hstr.
  unfold sliceToArray. rewrite Hdst. run_refl.
  run_with addNodes_run.
  assert (Hlen : length (nodes a) <> 0%nat)
    by (destruct (nodes a); [congruence | simpl; lia]).
  destruct (flatten (types.Array e 1)) as [|fi rest] eqn:Efl; [congruence|].
  run_with endObject_run.
  unfold addressOf.
  rewrite bool_decide_eq_false_2 by exact Hnz.
  rewrite bool_decide_eq_false_2 by lia.
  reflexivity.
Qed.

(** *** The reflection constraints only add *)

Lemma grows_refl a : grows a a.
Proof.
  split; try reflexivity; auto.
  - intros i n H. exists n. repeat split; auto.
  - exists []. symmetry. apply app_nil_r.
Qed.

Lemma grows_trans a b c : grows a b -> grows b c -> grows a c.
Proof.
  intros [H1 H2 H3 H4 H5] [K1 K2 K3 K4 K5]. split.
  - congruence.
  - intros i n Hn. destruct (H2 i n Hn) as (n1 & Hn1 & Ht & Ho & Hp).
    destruct (K2 i n1 Hn1) as (n2 & Hn2 & Ht2 & Ho2 & Hp2).
    exists n2. repeat split; try congruence. set_solver.
  - destruct H3 as [cs1 E1]. destruct K3 as [cs2 E2].
    exists (cs1 ++ cs2). rewrite E2, E1. symmetry. apply app_assoc.
  - auto.
  - set_solver.
Qed.

Lemma grows_addNs l a : grows a (addNs l a).
Proof.
  split; try reflexivity; auto.
  - intros i n H. exists n. cbn [nodes addNs set_nodes].
    rewrite lookup_app_l by (eapply lookup_lt_Some; exact H).
    repeat split; auto.
  - exists []. symmetry. apply app_nil_r.
Qed.

Lemma grows_addCs l a : grows a (addCs l a).
Proof.
  split; try reflexivity; auto.
  - intros i n H. exists n. repeat split; auto.
  - exists l. reflexivity.
Qed.

Lemma monotone_ret {A} (x : A) : monotone (ret x).
Proof. intros a y a' H. inversion H. apply grows_refl. Qed.

Lemma monotone_panic {A} msg : monotone (@panic A msg).
Proof. intros a y a' H. discriminate H. Qed.

Lemma monotone_get : monotone get.
Proof. intros a y a' H. inversion H. apply grows_refl. Qed.

Lemma monotone_bind {A B} (m : M A) (k : A -> M B) :
  monotone m -> (forall x, monotone (k x)) -> monotone (bind m k).
Proof.
  intros Hm Hk a y a' H. apply bind_OK in H as (x & a1 & H1 & H2).
  eapply grows_trans; [eapply Hm; exact H1|eapply Hk; exact H2].
Qed.

Lemma monotone_when c m : monotone m -> monotone (when c m).
Proof. intros H. destruct c; [exact H|apply monotone_ret]. Qed.

Lemma monotone_forEach {A} (l : list A) k :
  (forall x, monotone (k x)) -> monotone (forEach l k).
Proof.
  intros Hk. induction l as [|x l IH]; simpl; [apply monotone_ret|].
  apply monotone_bind; [apply Hk|]. intros _. exact IH.
Qed.

Lemma monotone_foldDelta step delta :
  (forall ch x, monotone (step ch x)) ->
  forall ch, monotone (foldDelta step ch delta).
Proof.
  intros Hs. induction delta as [|x delta IH]; intros ch; simpl.
  - apply monotone_ret.
  - apply monotone_bind; [apply Hs|]. intros ch'. apply IH.
Qed.

Lemma monotone_read {A} (m : M A) :
  (forall a x a', m a = OK x a' -> a' = a) -> monotone m.
Proof. intros Hm a x a' H. rewrite (Hm _ _ _ H). apply grows_refl. Qed.

Lemma nodeAt_read id a n a' : nodeAt id a = OK n a' -> a' = a.
Proof.
  unfold nodeAt. destruct (nodes a !! N.to_nat id); intros H; inversion H.
  reflexivity.
Qed.

Lemma taggedValue_read id a x a' : taggedValue id a = OK x a' -> a' = a.
Proof.
  unfold taggedValue. intros H. apply bind_OK in H as (n & a1 & Hn & H).
  apply nodeAt_read in Hn as ->.
  destruct (n_obj n) as [o|]; [|discriminate H].
  destruct (otTagged (o_flags o)); inversion H; reflexivity.
Qed.

Lemma rtypeTaggedValue_read id a T a' :
  rtypeTaggedValue id a = OK T a' -> a' = a.
Proof.
  unfold rtypeTaggedValue. intros H.
  apply bind_OK in H as ([[t v] b] & a1 & Htv & H).
  apply taggedValue_read in Htv as ->.
  apply bind_OK in H as (a2 & a3 & Hget & H). inversion Hget; subst.
  destruct (decide _); [|discriminate H].
  apply bind_OK in H as (n & a4 & Hn & H).
  apply nodeAt_read in Hn as ->. inversion H. reflexivity.
Qed.

Lemma rtypeData_read id a T a' : rtypeData id a = OK T a' -> a' = a.
Proof.
  unfold rtypeData. intros H. apply bind_OK in H as (n & a1 & Hn & H).
  apply nodeAt_read in Hn as ->.
  destruct (n_obj n) as [o|]; [|discriminate H].
  destruct (o_data o); inversion H; reflexivity.
Qed.

Lemma monotone_nodeAt id : monotone (nodeAt id).
Proof. apply monotone_read, nodeAt_read. Qed.

Lemma monotone_taggedValue id : monotone (taggedValue id).
Proof. apply monotone_read, taggedValue_read. Qed.

Lemma monotone_rtypeTaggedValue id : monotone (rtypeTaggedValue id).
Proof. apply monotone_read, rtypeTaggedValue_read. Qed.

Lemma monotone_rtypeData id : monotone (rtypeData id).
Proof. apply monotone_read, rtypeData_read. Qed.

Lemma monotone_addNodes t : monotone (addNodes t).
Proof.
  intros a x a' H. rewrite addNodes_run in H. inversion H. apply grows_addNs.
Qed.

Lemma monotone_makeTagged t cgn data : monotone (makeTagged t cgn data).
Proof.
  intros a x a' H. rewrite makeTagged_run in H. inversion H.
  apply grows_addNs.
Qed.

Lemma monotone_alloc {B} t cgn data (k : nodeid -> M B) :
  (forall o, monotone (k o)) ->
  monotone (let! obj := nextNode in
            do! addNodes t in
            do! endObject obj cgn data in
            k obj).
Proof.
  intros Hk a x a' H. rewrite alloc_run in H.
  eapply grows_trans; [apply grows_addNs|eapply Hk; exact H].
Qed.

Lemma alloc2_run {B} t1 t2 cgn data (k : nodeid -> M B) a :
  (let! obj := nextNode in
   do! addNodes t1 in
   do! addNodes t2 in
   do! endObject obj cgn data in
   k obj) a
  = k (N.of_nat (length (nodes a)))
      (addNs (objectBlock noFlags cgn data (newNodes t1 ++ newNodes t2)) a).
Proof.
  run_refl. run_with addNodes_run. run_with addNodes_run.
  rewrite addNs_app. run_with endObject_run. reflexivity.
Qed.

Lemma monotone_alloc2 {B} t1 t2 cgn data (k : nodeid -> M B) :
  (forall o, monotone (k o)) ->
  monotone (let! obj := nextNode in
            do! addNodes t1 in
            do! addNodes t2 in
            do! endObject obj cgn data in
            k obj).
Proof.
  intros Hk a x a' H. rewrite alloc2_run in H.
  eapply grows_trans; [apply grows_addNs|eapply Hk; exact H].
Qed.

Lemma monotone_load dst src off sz : monotone (load dst src off sz).
Proof.
  intros a [] a' H.
  apply load_inv in H as [[_ ->]|(_ & _ & ->)];
    [apply grows_refl|apply grows_addCs].
Qed.

Lemma monotone_store dst src off sz : monotone (store dst src off sz).
Proof.
  intros a [] a' H.
  apply store_inv in H as [[_ ->]|(_ & _ & ->)];
    [apply grows_refl|apply grows_addCs].
Qed.

Lemma monotone_typeAssert T dst src : monotone (typeAssert T dst src).
Proof. intros a x a' H. inversion H. apply (grows_addCs [_]). Qed.

Lemma monotone_addWork id : monotone (addWork id).
Proof.
  intros a x a' H. inversion H. split; try reflexivity; auto.
  - intros i n Hn. exists n. repeat split; auto.
  - exists []. symmetry. apply app_nil_r.
  - cbn. set_solver.
Qed.

Lemma addLabel_inv p l a c a' :
  addLabel p l a = OK c a' ->
  exists n, nodes a !! N.to_nat p = Some n /\
    (((l ∈ n_pts n) /\ c = false /\ a' = a) \/
     ((l ∉ n_pts n) /\ c = true /\
      a' = set_nodes
             (fun ns => <[N.to_nat p := mkNode (n_typ n) (n_subelement n)
                                          (n_obj n) ({[l]} ∪ n_pts n)]> ns) a)).
Proof.
  unfold addLabel, bind, nodeAt.
  destruct (nodes a !! N.to_nat p) as [n|] eqn:E; [|discriminate].
  intros H. exists n. split; [reflexivity|].
  case_bool_decide as Hin.
  - inversion H. left. auto.
  - inversion H. right. auto.
Qed.

Lemma monotone_addLabel p l : monotone (addLabel p l).
Proof.
  intros a c a' H.
  apply addLabel_inv in H as (n & Hn & [(_ & _ & ->)|(_ & _ & ->)]);
    [apply grows_refl|].
  split; try reflexivity; auto.
  - intros i n0 Hi. cbn [nodes set_nodes].
    destruct (decide (N.to_nat p = i)) as [<-|Hne].
    + rewrite list_lookup_insert_eq by (eapply lookup_lt_Some; exact Hn).
      eexists. split; [reflexivity|]. rewrite Hn in Hi. inversion Hi; subst.
      cbn. repeat split; auto. set_solver.
    + rewrite list_lookup_insert_ne by exact Hne.
      exists n0. repeat split; auto.
  - exists []. symmetry. apply app_nil_r.
Qed.

Lemma tm_At_Set m T id U :
  tm_At (tm_Set m T id) U = if decide (T = U) then Some id else tm_At m U.
Proof. reflexivity. Qed.

Lemma monotone_makeRtype T : monotone (makeRtype T).
Proof.
  intros a id a' H.
  apply makeRtype_inv in H
    as [[_ ->]|(rp & fi & rest & Hnone & _ & _ & _ & _ & ->)];
    [apply grows_refl|].
  eapply grows_trans; [apply (grows_addNs (rtypeNodes T rp fi rest))|].
  eapply grows_trans; [apply grows_addCs|].
  split; try reflexivity; auto.
  - intros i n Hi. exists n. repeat split; auto.
  - exists []. symmetry. apply app_nil_r.
  - intros U v HU. cbn [rtypes set_rtypes addCs addNs set_constraints set_nodes] in *.
    rewrite tm_At_Set. destruct (decide (T = U)) as [<-|]; [|exact HU].
    congruence.
Qed.

Ltac mono :=
  repeat first
    [ apply monotone_ret | apply monotone_panic | apply monotone_get
    | apply monotone_nodeAt | apply monotone_taggedValue
    | apply monotone_rtypeTaggedValue | apply monotone_rtypeData
    | apply monotone_makeTagged | apply monotone_makeRtype
    | apply monotone_addLabel | apply monotone_addWork
    | apply monotone_load | apply monotone_store | apply monotone_typeAssert
    | apply monotone_addNodes
    | apply monotone_alloc2; intros ?
    | apply monotone_alloc; intros ?
    | apply monotone_when
    | apply monotone_foldDelta; intros ? ?
    | apply monotone_forEach; intros ?
    | apply monotone_bind; [|intros ?]
    | match goal with
      | |- monotone (match ?x with _ => _ end) => destruct x
      | |- monotone (if ?b then _ else _) => destruct b
      end ].

Lemma monotone_rtypeInOut_tuple result tuple :
  forall changed, monotone (rtypeInOut_tuple result changed tuple).
Proof.
  induction tuple as [|t tuple IH]; intros changed; simpl.
  - apply monotone_ret.
  - apply monotone_bind; [apply monotone_makeRtype|]. intros id.
    apply monotone_bind; [apply monotone_addLabel|]. intros c. apply IH.
Qed.

(** X13.  Solving a reflection constraint only adds: each of the solve
    rules of [Interface], [MapIndex], [MapKeys], [Recv], [Send],
    [SetMapIndex], [Indirect], [MakeMap], [New], [TypeOf], [Zero] and of
    the rtype methods [Elem], [Key], [In] and [Out] extends the node
    table, leaves to every node that existed its type and its object
    header, only grows the points-to sets, the list of constraints and
    the worklist, and keeps every recorded rtype. *)
Theorem reflection_solves_only_add :
  (forall v result delta, monotone (rVInterface_solve v result delta)) /\
  (forall cgn v result delta, monotone (rVMapIndex_solve cgn v result delta)) /\
  (forall cgn v result delta, monotone (rVMapKeys_solve cgn v result delta)) /\
  (forall cgn v result delta, monotone (rVRecv_solve cgn v result delta)) /\
  (forall cgn v x delta, monotone (rVSend_solve cgn v x delta)) /\
  (forall cgn v key val delta,
      monotone (rVSetMapIndex_solve cgn v key val delta)) /\
  (forall cgn v result delta,
      monotone (reflectIndirect_solve cgn v result delta)) /\
  (forall cgn typ result delta,
      monotone (reflectMakeMap_solve cgn typ result delta)) /\
  (forall cgn typ result delta,
      monotone (reflectNew_solve cgn typ result delta)) /\
  (forall cgn i result delta,
      monotone (reflectTypeOf_solve cgn i result delta)) /\
  (forall cgn typ result delta,
      monotone (reflectZero_solve cgn typ result delta)) /\
  (forall cgn t result delta, monotone (rtypeElem_solve cgn t result delta)) /\
  (forall cgn t result delta, monotone (rtypeKey_solve cgn t result delta)) /\
  (forall cgn t result out delta,
      monotone (rtypeInOut_solve cgn t result out delta)).
Proof.
  repeat match goal with |- _ /\ _ => split end; intros.
  - unfold rVInterface_solve, rVInterface_step. mono.
  - unfold rVMapIndex_solve, rVMapIndex_step. mono.
  - unfold rVMapKeys_solve, rVMapKeys_step. mono.
  - unfold rVRecv_solve, rVRecv_step. mono.
  - unfold rVSend_solve, rVSend_step. mono.
  - unfold rVSetMapIndex_solve, rVSetMapIndex_step. mono.
  - unfold reflectIndirect_solve, reflectIndirect_step. mono.
  - unfold reflectMakeMap_solve, reflectMakeMap_step. mono.
  - unfold reflectNew_solve, reflectNew_step. mono.
  - unfold reflectTypeOf_solve, reflectTypeOf_step. mono.
  - unfold reflectZero_solve, reflectZero_step. mono.
    simpl. mono.
    intros a0 y a0' H. inversion H. split; try reflexivity; auto.
    + intros i n Hn. exists n. repeat split; auto.
    + exists []. symmetry. apply app_nil_r.
  - unfold rtypeElem_solve, rtypeElem_step. mono.
  - unfold rtypeKey_solve, rtypeKey_step. mono.
  - unfold rtypeInOut_solve, rtypeInOut_step. mono;
      apply monotone_rtypeInOut_tuple.
Qed.

(** *** Invariants along the reflection constraints *)

Lemma holds_ret {A} P (x : A) : holds P (ret x).
Proof. intros a y a' HP H. inversion H; subst. exact HP. Qed.

Lemma holds_panic {A} P msg : holds P (@panic A msg).
Proof. intros a y a' HP H. discriminate H. Qed.

Lemma holds_bind {A B} P (m : M A) (k : A -> M B) :
  holds P m -> (forall x, holds P (k x)) -> holds P (bind m k).
Proof.
  intros Hm Hk a y a' HP H. apply bind_OK in H as (x & a1 & H1 & H2).
  eapply Hk; [|exact H2]. eapply Hm; [exact HP|exact H1].
Qed.

Lemma holds_when P c m : holds P m -> holds P (when c m).
Proof. intros H. destruct c; [exact H|apply holds_ret]. Qed.

Lemma holds_forEach {A} P (l : list A) k :
  (forall x, holds P (k x)) -> holds P (forEach l k).
Proof.
  intros Hk. induction l as [|x l IH]; simpl; [apply holds_ret|].
  apply holds_bind; [apply Hk|]. intros _. exact IH.
Qed.

Lemma holds_foldDelta P step delta :
  (forall ch x, holds P (step ch x)) ->
  forall ch, holds P (foldDelta step ch delta).
Proof.
  intros Hs. induction delta as [|x delta IH]; intros ch; simpl.
  - apply holds_ret.
  - apply holds_bind; [apply Hs|]. intros ch'. apply IH.
Qed.

Lemma holds_read {A} P (m : M A) :
  (forall a x a', m a = OK x a' -> a' = a) -> holds P m.
Proof. intros Hm a x a' HP H. rewrite (Hm _ _ _ H). exact HP. Qed.

Lemma holds_get P : holds P get.
Proof. apply holds_read. intros a x a' H. inversion H. reflexivity. Qed.

Lemma holds_nodeAt P id : holds P (nodeAt id).
Proof. apply holds_read, nodeAt_read. Qed.

Lemma holds_taggedValue P id : holds P (taggedValue id).
Proof. apply holds_read, taggedValue_read. Qed.

Lemma holds_rtypeTaggedValue P id : holds P (rtypeTaggedValue id).
Proof. apply holds_read, rtypeTaggedValue_read. Qed.

Lemma holds_rtypeData P id : holds P (rtypeData id).
Proof. apply holds_read, rtypeData_read. Qed.

(** The structure of a solve rule, with [base] for its primitives. *)
Ltac hold base :=
  repeat first
    [ apply holds_ret | apply holds_panic | apply holds_get
    | apply holds_nodeAt | apply holds_taggedValue
    | apply holds_rtypeTaggedValue | apply holds_rtypeData
    | base
    | apply holds_when
    | apply holds_foldDelta; intros ? ?
    | apply holds_forEach; intros ?
    | apply holds_bind; [|intros ?]
    | match goal with
      | |- holds _ (match ?x with _ => _ end) => destruct x
      | |- holds _ (if ?b then _ else _) => destruct b
      end ].

Lemma holds_wf_keeps {A} (m : M A) : keeps_wf m -> holds wfState m.
Proof. intros H. exact H. Qed.

Lemma holds_wf_preserves {A} (m : M A) : preserves m -> holds wfState m.
Proof. intros H. apply holds_wf_keeps, preserves_keeps_wf, H. Qed.

Lemma holds_wf_alloc {B} t cgn data (k : nodeid -> M B) :
  (forall o, holds wfState (k o)) ->
  holds wfState (let! obj := nextNode in
                 do! addNodes t in
                 do! endObject obj cgn data in
                 k obj).
Proof.
  intros Hk a x a' Hwf H. rewrite alloc_run in H.
  eapply Hk; [|exact H]. unfold wfState. cbn [nodes addNs set_nodes].
  apply wf_app_block; [exact Hwf|apply headerless_newNodes].
Qed.

Lemma holds_wf_alloc2 {B} t1 t2 cgn data (k : nodeid -> M B) :
  (forall o, holds wfState (k o)) ->
  holds wfState (let! obj := nextNode in
                 do! addNodes t1 in
                 do! addNodes t2 in
                 do! endObject obj cgn data in
                 k obj).
Proof.
  intros Hk a x a' Hwf H. rewrite alloc2_run in H.
  eapply Hk; [|exact H]. unfold wfState. cbn [nodes addNs set_nodes].
  apply wf_app_block; [exact Hwf|].
  apply Forall_app. split; apply headerless_newNodes.
Qed.

Lemma holds_wf_addWork id : holds wfState (addWork id).
Proof. intros a x a' Hwf H. inversion H. exact Hwf. Qed.

Ltac wf_base :=
  first
    [ apply holds_wf_alloc2; intros ?
    | apply holds_wf_alloc; intros ?
    | apply holds_wf_addWork
    | apply holds_wf_keeps;
      first [apply keeps_wf_makeRtype|apply keeps_wf_addLabel]
    | apply holds_wf_preserves;
      first [ apply preserves_makeTagged | apply preserves_load
            | apply preserves_store | apply preserves_addNodes
            | apply preserves_addConstraint ] ].

Lemma holds_wf_rtypeInOut_tuple result tuple :
  forall changed, holds wfState (rtypeInOut_tuple result changed tuple).
Proof.
  induction tuple as [|t tuple IH]; intros changed; simpl.
  - apply holds_ret.
  - hold wf_base. apply IH.
Qed.

(** X14.  The object-header invariant [wf] (the nodes after the head of
    an object, within its size, carry no header) is kept by the solve
    rules of [Interface], [MapIndex], [MapKeys], [Recv], [Send],
    [SetMapIndex], [Indirect], [MakeMap], [New] and of the rtype methods
    [Elem], [Key], [In] and [Out], which create objects while the
    solver runs. *)
Theorem reflection_solves_keep_headers :
  (forall v result delta, keeps_wf (rVInterface_solve v result delta)) /\
  (forall cgn v result delta, keeps_wf (rVMapIndex_solve cgn v result delta)) /\
  (forall cgn v result delta, keeps_wf (rVMapKeys_solve cgn v result delta)) /\
  (forall cgn v result delta, keeps_wf (rVRecv_solve cgn v result delta)) /\
  (forall cgn v x delta, keeps_wf (rVSend_solve cgn v x delta)) /\
  (forall cgn v key val delta,
      keeps_wf (rVSetMapIndex_solve cgn v key val delta)) /\
  (forall cgn v result delta,
      keeps_wf (reflectIndirect_solve cgn v result delta)) /\
  (forall cgn typ result delta,
      keeps_wf (reflectMakeMap_solve cgn typ result delta)) /\
  (forall cgn typ result delta,
      keeps_wf (reflectNew_solve cgn typ result delta)) /\
  (forall cgn t result delta, keeps_wf (rtypeElem_solve cgn t result delta)) /\
  (forall cgn t result delta, keeps_wf (rtypeKey_solve cgn t result delta)) /\
  (forall cgn t result out delta,
      keeps_wf (rtypeInOut_solve cgn t result out delta)).
Proof.
  repeat match goal with |- _ /\ _ => split end; intros;
    change (keeps_wf ?m) with (holds wfState m).
  - unfold rVInterface_solve, rVInterface_step. hold wf_base.
  - unfold rVMapIndex_solve, rVMapIndex_step. hold wf_base.
  - unfold rVMapKeys_solve, rVMapKeys_step. hold wf_base.
  - unfold rVRecv_solve, rVRecv_step. hold wf_base.
  - unfold rVSend_solve, rVSend_step. hold wf_base.
  - unfold rVSetMapIndex_solve, rVSetMapIndex_step. hold wf_base.
  - unfold reflectIndirect_solve, reflectIndirect_step. hold wf_base.
  - unfold reflectMakeMap_solve, reflectMakeMap_step. hold wf_base.
  - unfold reflectNew_solve, reflectNew_step. hold wf_base.
  - unfold rtypeElem_solve, rtypeElem_step. hold wf_base.
  - unfold rtypeKey_solve, rtypeKey_step. hold wf_base.
  - unfold rtypeInOut_solve, rtypeInOut_step. hold wf_base;
      apply holds_wf_rtypeInOut_tuple.
Qed.

(** *** Recorded rtypes denote their types *)

Lemma nodeAt_grows a a' id n :
  grows a a' -> nodeAt id a = OK n a ->
  exists n', nodeAt id a' = OK n' a' /\ n_typ n' = n_typ n /\
             n_obj n' = n_obj n /\ n_pts n ⊆ n_pts n'.
Proof.
  intros Hg H. unfold nodeAt in *.
  destruct (nodes a !! N.to_nat id) as [n0|] eqn:E; [|discriminate H].
  inversion H; subst n0.
  destruct (grows_nodes _ _ Hg _ _ E) as (n' & -> & Hrest).
  exists n'. split; [reflexivity|exact Hrest].
Qed.

Lemma nodeAt_OK id a n a' :
  nodeAt id a = OK n a' -> nodeAt id a = OK n a.
Proof. intros H. rewrite H. f_equal. apply (nodeAt_read _ _ _ _ H). Qed.

Lemma taggedValue_grows a a' id x :
  grows a a' -> taggedValue id a = OK x a -> taggedValue id a' = OK x a'.
Proof.
  intros Hg H. unfold taggedValue in *.
  apply bind_OK in H as (n & a1 & Hn & H).
  apply nodeAt_OK in Hn.
  destruct (nodeAt_grows _ _ _ _ Hg Hn) as (n' & Hn' & Ht & Ho & _).
  erewrite bind_run by exact Hn'. rewrite Ho, Ht.
  destruct (n_obj n) as [o|]; [|discriminate H].
  destruct (otTagged (o_flags o)); inversion H; reflexivity.
Qed.

Lemma rtypeData_grows a a' id T :
  grows a a' -> rtypeData id a = OK T a -> rtypeData id a' = OK T a'.
Proof.
  intros Hg H. unfold rtypeData in *.
  apply bind_OK in H as (n & a1 & Hn & H).
  apply nodeAt_OK in Hn.
  destruct (nodeAt_grows _ _ _ _ Hg Hn) as (n' & Hn' & Ht & Ho & _).
  erewrite bind_run by exact Hn'. rewrite Ho.
  destruct (n_obj n) as [o|]; [|discriminate H].
  destruct (o_data o); inversion H; reflexivity.
Qed.

Lemma rtypeTaggedValue_grows a a' id T :
  grows a a' -> rtypeTaggedValue id a = OK T a ->
  rtypeTaggedValue id a' = OK T a'.
Proof.
  intros Hg H. unfold rtypeTaggedValue in *.
  apply bind_OK in H as ([[t v] b] & a1 & Htv & H).
  pose proof (taggedValue_read _ _ _ _ Htv) as ->.
  erewrite bind_run by (eapply taggedValue_grows; [exact Hg|exact Htv]).
  apply bind_OK in H as (a2 & a3 & Hget & H). inversion Hget; subst a2 a3.
  erewrite bind_run by reflexivity.
  rewrite (grows_rtypePtr _ _ Hg).
  destruct (decide _); [|discriminate H].
  apply bind_OK in H as (n & a4 & Hn & H).
  apply nodeAt_OK in Hn.
  destruct (nodeAt_grows _ _ _ _ Hg Hn) as (n' & Hn' & Ht & _).
  erewrite bind_run by exact Hn'. inversion H. rewrite Ht. reflexivity.
Qed.

Lemma rtypesOK_empty a : rtypes a = [] -> rtypesOK a.
Proof. intros E T id H. rewrite E in H. discriminate H. Qed.

Lemma rtypesOK_grows a a' :
  grows a a' -> rtypes a' = rtypes a -> rtypesOK a -> rtypesOK a'.
Proof.
  intros Hg Hr Hok T id H. rewrite Hr in H.
  destruct (Hok T id H) as [H1 H2]. split.
  - eapply rtypeTaggedValue_grows; eassumption.
  - eapply rtypeData_grows; eassumption.
Qed.

Lemma lookup_rtypeNodes ns T rp fi rest :
  (ns ++ rtypeNodes T rp fi rest) !! S (length ns)
  = Some (mkNode rp None
            (Some (mkObject (wrap32 (N.of_nat (S (S (length rest)))))
                     (setTagged noFlags) None (DataType T))) ∅) /\
  (ns ++ rtypeNodes T rp fi rest) !! S (S (length ns))
  = Some (mkNode T (Some fi) None ∅).
Proof.
  split; (rewrite lookup_app_r by lia).
  - replace (S (length ns) - length ns)%nat with 1%nat by lia. reflexivity.
  - replace (S (S (length ns)) - length ns)%nat with 2%nat by lia.
    reflexivity.
Qed.

Lemma makeRtype_reads T a id a' :
  tm_At (rtypes a) T = None -> makeRtype T a = OK id a' ->
  rtypeTaggedValue id a' = OK T a' /\ rtypeData id a' = OK T a'.
Proof.
  intros Hnone H.
  apply makeRtype_inv in H
    as [[Hsome _]|(rp & fi & rest & _ & Hrp & _ & _ & -> & ->)];
    [congruence|].
  set (a' := set_rtypes _ _).
  destruct (lookup_rtypeNodes (nodes a) T rp fi rest) as [L1 L2].
  assert (N1 : nodeAt (N.of_nat (length (nodes a)) + 1) a'
               = OK (mkNode rp None
                       (Some (mkObject (wrap32 (N.of_nat (S (S (length rest)))))
                                (setTagged noFlags) None (DataType T))) ∅) a').
  { unfold nodeAt.
    replace (N.to_nat (N.of_nat (length (nodes a)) + 1))
      with (S (length (nodes a))) by lia.
    subst a'. cbn [nodes set_rtypes addCs addNs set_constraints set_nodes].
    rewrite L1. reflexivity. }
  assert (N2 : nodeAt (N.of_nat (length (nodes a)) + 1 + 1) a'
               = OK (mkNode T (Some fi) None ∅) a').
  { unfold nodeAt.
    replace (N.to_nat (N.of_nat (length (nodes a)) + 1 + 1))
      with (S (S (length (nodes a)))) by lia.
    subst a'. cbn [nodes set_rtypes addCs addNs set_constraints set_nodes].
    rewrite L2. reflexivity. }
  split.
  - unfold rtypeTaggedValue, taggedValue.
    rewrite bind_assoc. erewrite bind_run by exact N1.
    cbn [n_obj o_flags otTagged setTagged n_typ].
    rewrite bind_ret. cbn beta iota. erewrite bind_run by reflexivity.
    replace (reflectRtypePtr a') with (Some rp) by (symmetry; exact Hrp).
    rewrite decide_True by reflexivity.
    erewrite bind_run by exact N2. reflexivity.
  - unfold rtypeData. erewrite bind_run by exact N1. reflexivity.
Qed.

Lemma holds_rtypesOK_makeRtype T : holds rtypesOK (makeRtype T).
Proof.
  intros a id a' Hok H U v HU.
  destruct (tm_At (rtypes a) T) as [v0|] eqn:E.
  - rewrite (makeRtype_hit _ _ _ E) in H. inversion H; subst.
    apply Hok. exact HU.
  - pose proof (makeRtype_reads _ _ _ _ E H) as Hnew.
    pose proof (makeRtype_effect _ _ _ _ H) as (Hid & _).
    pose proof (monotone_makeRtype _ _ _ _ H) as Hg.
    destruct (decide (U = T)) as [->|Hne].
    + rewrite Hid in HU. inversion HU; subst. exact Hnew.
    + assert (HU' : tm_At (rtypes a) U = Some v).
      { apply makeRtype_inv in H
          as [[Hsome _]|(rp & fi & rest & _ & _ & _ & _ & _ & ->)];
          [congruence|].
        cbn [rtypes set_rtypes addCs addNs set_constraints set_nodes] in HU.
        rewrite tm_At_Set in HU.
        destruct (decide (T = U)); [congruence|exact HU]. }
      destruct (Hok U v HU') as [H1 H2]. split.
      * eapply rtypeTaggedValue_grows; eassumption.
      * eapply rtypeData_grows; eassumption.
Qed.

Lemma holds_rtypesOK_addLabel p l : holds rtypesOK (addLabel p l).
Proof.
  intros a c a' Hok H.
  eapply rtypesOK_grows; [eapply monotone_addLabel; exact H| |exact Hok].
  apply (addLabel_effect _ _ _ _ _ H).
Qed.

Lemma holds_rtypesOK_addWork id : holds rtypesOK (addWork id).
Proof.
  intros a x a' Hok H.
  eapply rtypesOK_grows; [eapply monotone_addWork; exact H| |exact Hok].
  inversion H. reflexivity.
Qed.

Ltac rtypes_base :=
  first [ apply holds_rtypesOK_makeRtype | apply holds_rtypesOK_addLabel
        | apply holds_rtypesOK_addWork ].

Lemma holds_rtypesOK_rtypeInOut_tuple result tuple :
  forall changed, holds rtypesOK (rtypeInOut_tuple result changed tuple).
Proof.
  induction tuple as [|t tuple IH]; intros changed; simpl.
  - apply holds_ret.
  - hold rtypes_base. apply IH.
Qed.

(** X15.  Every id recorded in [a.rtypes] denotes its type: on the
    canonical object that [makeRtype T] returns, [rtypeTaggedValue] and
    the data that the rtype methods read both give back [T].  This holds
    of the empty table, is kept by [makeRtype] and by the solve rules
    that create rtypes ([TypeOf], [Elem], [Key], [In], [Out]), and by
    any step that only adds and leaves the table alone. *)
Theorem rtypes_denote_their_types :
  (forall a, rtypes a = [] -> rtypesOK a) /\
  (forall T a id a',
      rtypesOK a -> makeRtype T a = OK id a' ->
      rtypesOK a' /\ tm_At (rtypes a') T = Some id /\
      rtypeTaggedValue id a' = OK T a' /\ rtypeData id a' = OK T a') /\
  (forall a a', grows a a' -> rtypes a' = rtypes a ->
                rtypesOK a -> rtypesOK a') /\
  (forall cgn i result delta,
      holds rtypesOK (reflectTypeOf_solve cgn i result delta)) /\
  (forall cgn t result delta,
      holds rtypesOK (rtypeElem_solve cgn t result delta)) /\
  (forall cgn t result delta,
      holds rtypesOK (rtypeKey_solve cgn t result delta)) /\
  (forall cgn t result out delta,
      holds rtypesOK (rtypeInOut_solve cgn t result out delta)).
Proof.
  repeat match goal with |- _ /\ _ => split end.
  - exact rtypesOK_empty.
  - intros T a id a' Hok H.
    pose proof (holds_rtypesOK_makeRtype T a id a' Hok H) as Hok'.
    pose proof (makeRtype_effect _ _ _ _ H) as (Hid & _).
    split; [exact Hok'|]. split; [exact Hid|]. apply Hok'. exact Hid.
  - exact rtypesOK_grows.
  - intros. unfold reflectTypeOf_solve, reflectTypeOf_step. hold rtypes_base.
  - intros. unfold rtypeElem_solve, rtypeElem_step. hold rtypes_base.
  - intros. unfold rtypeKey_solve, rtypeKey_step. hold rtypes_base.
  - intros. unfold rtypeInOut_solve, rtypeInOut_step. hold rtypes_base;
      apply holds_rtypesOK_rtypeInOut_tuple.
Qed.

(** *** The effect of single solve rules *)

Lemma addLabel_total p l a :
  (N.to_nat p < length (nodes a))%nat ->
  exists c a',
    addLabel p l a = OK c a' /\
    (c = true <-> l ∉ ptsOf a p) /\
    ptsOf a' p = {[l]} ∪ ptsOf a p /\
    (forall i, i <> p -> ptsOf a' i = ptsOf a i) /\
    length (nodes a') = length (nodes a) /\
    constraints a' = constraints a /\
    work a' = work a /\
    rtypes a' = rtypes a /\
    grows a a'.
Proof.
  intros Hlt. destruct (lookup_lt_is_Some_2 _ _ Hlt) as [n Hn].
  destruct (addLabel p l a) as [c a'|msg] eqn:H.
  2:{ unfold addLabel, bind, nodeAt in H. rewrite Hn in H.
      case_bool_decide; discriminate H. }
  exists c, a'. split; [reflexivity|].
  pose proof (addLabel_effect _ _ _ _ _ H) as (Hp & Hi & _ & Hr & Hlen).
  pose proof (monotone_addLabel _ _ _ _ _ H) as Hg.
  apply addLabel_inv in H as (n0 & Hn0 & Hc).
  rewrite Hn in Hn0. inversion Hn0; subst n0. clear Hn0.
  assert (Eq : ptsOf a p = n_pts n) by (unfold ptsOf; rewrite Hn; reflexivity).
  split.
  { rewrite Eq. destruct Hc as [(Hin & -> & _)|(Hin & -> & _)].
    - split; [discriminate|]. intros Hnot. contradiction.
    - split; auto. }
  split; [exact Hp|]. split; [exact Hi|]. split; [exact Hlen|].
  destruct Hc as [(_ & _ & ->)|(_ & _ & ->)]; auto.
Qed.

Lemma rVInterface_fold result delta :
  forall ch a,
    (N.to_nat result < length (nodes a))%nat ->
    (forall l, l ∈ delta ->
               exists t, taggedValue l a = OK (Some t, l + 1, false) a) ->
    exists b a',
      foldDelta (rVInterface_step result) ch delta a = OK b a' /\
      (b = true <-> ch = true \/ ~ list_to_set delta ⊆ ptsOf a result) /\
      ptsOf a' result = list_to_set delta ∪ ptsOf a result /\
      (forall i, i <> result -> ptsOf a' i = ptsOf a i) /\
      length (nodes a') = length (nodes a) /\
      constraints a' = constraints a /\
      work a' = work a.
Proof.
  induction delta as [|x delta IH]; intros ch a Hlt Htag.
  - exists ch, a. split; [reflexivity|]. split.
    { split; [auto|]. intros [H|H]; [exact H|]. exfalso. apply H. set_solver. }
    split; [set_solver|]. auto.
  - destruct (Htag x ltac:(set_solver)) as [t Hx].
    destruct (addLabel_total result x a Hlt)
      as (c & a1 & Hadd & Hc & Hp & Hi & Hlen & Hcs & Hw & _ & Hg).
    destruct (IH (c || ch) a1) as (b & a' & Hf & Hb & Hp' & Hi' & Hlen' & Hcs' & Hw').
    { rewrite Hlen. exact Hlt. }
    { intros l Hl. destruct (Htag l ltac:(set_solver)) as [t' Hl'].
      exists t'. eapply taggedValue_grows; eassumption. }
    exists b, a'. split.
    { simpl. unfold rVInterface_step at 1.
      rewrite bind_assoc. erewrite bind_run by exact Hx.
      cbn beta iota. rewrite bind_assoc.
      erewrite bind_run by exact Hadd. rewrite bind_ret. exact Hf. }
    split.
    { rewrite Hb, Hp. rewrite orb_true_iff, Hc.
      destruct (decide (x ∈ ptsOf a result)) as [Hin|Hnin].
      - split.
        + intros [[Hx'|Hch]|Hsub]; [contradiction|auto|].
          right. intros Hsub'. apply Hsub. set_solver.
        + intros [Hch|Hsub]; [auto|]. right. intros Hsub'. apply Hsub.
          set_solver.
      - split.
        + intros _. right. intros Hsub. apply Hnin. set_solver.
        + intros _. left. left. exact Hnin. }
    split; [rewrite Hp', Hp; set_solver|].
    split; [intros i Hne; rewrite Hi', Hi by exact Hne; reflexivity|].
    split; [congruence|]. split; congruence.
Qed.

(** X16.  The solve rule of [Interface], on a result node of the table
    and a delta of direct tagged objects: it succeeds, creates no node
    and no constraint, adds exactly the labels of the delta to the
    points-to set of the result and touches no other set, and puts the
    result on the worklist exactly when one of the labels is new. *)
Theorem rVInterface_solve_effect v result delta a :
  (N.to_nat result < length (nodes a))%nat ->
  (forall l, l ∈ delta ->
             exists t, taggedValue l a = OK (Some t, l + 1, false) a) ->
  exists a',
    rVInterface_solve v result delta a = OK tt a' /\
    ptsOf a' result = list_to_set delta ∪ ptsOf a result /\
    (forall i, i <> result -> ptsOf a' i = ptsOf a i) /\
    length (nodes a') = length (nodes a) /\
    constraints a' = constraints a /\
    (list_to_set delta ⊆ ptsOf a result -> work a' = work a) /\
    (~ list_to_set delta ⊆ ptsOf a result ->
     work a' = {[result]} ∪ work a).
Proof.
  intros Hlt Htag.
  destruct (rVInterface_fold result delta false a Hlt Htag)
    as (b & a1 & Hf & Hb & Hp & Hi & Hlen & Hcs & Hw).
  destruct (lookup_lt_is_Some_2 _ _ Hlt) as [n Hn].
  assert (Hrun : rVInterface_solve v result delta a
                 = when b (addWork result) a1).
  { unfold rVInterface_solve.
    erewrite bind_run by (unfold nodeAt; rewrite Hn; reflexivity).
    erewrite bind_run by exact Hf. reflexivity. }
  destruct b.
  - exists (set_work (fun w => {[result]} ∪ w) a1).
    split; [exact Hrun|].
    split; [exact Hp|]. split; [exact Hi|]. split; [exact Hlen|].
    split; [exact Hcs|]. split.
    + intros Hsub. exfalso.
      destruct (proj1 Hb eq_refl) as [H|H]; [discriminate H|auto].
    + intros _. cbn [work set_work]. rewrite Hw. reflexivity.
  - exists a1. split; [exact Hrun|].
    split; [exact Hp|]. split; [exact Hi|]. split; [exact Hlen|].
    split; [exact Hcs|]. split.
    + intros _. exact Hw.
    + intros Hsub. exfalso.
      assert (false = true) by (apply Hb; right; exact Hsub). discriminate.
Qed.

Lemma foldDelta_skip step delta a :
  (forall ch x, x ∈ delta -> step ch x a = OK ch a) ->
  forall ch, foldDelta step ch delta a = OK ch a.
Proof.
  induction delta as [|x delta IH]; intros Hs ch; simpl; [reflexivity|].
  erewrite bind_run by (apply Hs; set_solver).
  apply IH. intros ch' y Hy. apply Hs. set_solver.
Qed.

Lemma forEach_skip {A} (k : A -> M unit) l a :
  (forall x, x ∈ l -> k x a = OK tt a) -> forEach l k a = OK tt a.
Proof.
  induction l as [|x l IH]; intros Hs; simpl; [reflexivity|].
  erewrite bind_run by (apply Hs; set_solver).
  apply IH. intros y Hy. apply Hs. set_solver.
Qed.

(** X17.  The solve rules skip the labels of another kind and change
    nothing for them, even when such a label is an indirect tagged
    object: [MapIndex], [MapKeys] and [SetMapIndex] skip the tagged
    objects whose type is not a map, [Recv] and [Send] those whose type
    is not a channel, [MakeMap] the rtypes that are not of a map, [Elem]
    the rtypes of a type without element, [Key] those that are not of a
    map, [In] and [Out] those that are not of a function. *)
Theorem reflection_solves_skip_other_kinds :
  (forall cgn v result key val delta a,
      (forall l, l ∈ delta ->
         exists t p ind, taggedValue l a = OK (Some t, p, ind) a /\
                         forall k e, types.Underlying t <> types.Map k e) ->
      rVMapIndex_solve cgn v result delta a = OK tt a /\
      rVMapKeys_solve cgn v result delta a = OK tt a /\
      rVSetMapIndex_solve cgn v key val delta a = OK tt a) /\
  (forall cgn v result x delta a,
      (forall l, l ∈ delta ->
         exists t p ind, taggedValue l a = OK (Some t, p, ind) a /\
                         forall e, types.Underlying t <> types.Chan e) ->
      rVRecv_solve cgn v result delta a = OK tt a /\
      rVSend_solve cgn v x delta a = OK tt a) /\
  (forall cgn typ result delta a,
      (forall l, l ∈ delta ->
         exists T, rtypeTaggedValue l a = OK T a /\
                   forall k e, types.Underlying T <> types.Map k e) ->
      reflectMakeMap_solve cgn typ result delta a = OK tt a) /\
  (forall cgn t result delta a,
      (forall l, l ∈ delta ->
         exists T, rtypeData l a = OK T a /\
                   elemOf (types.Underlying T) = None) ->
      rtypeElem_solve cgn t result delta a = OK tt a) /\
  (forall cgn t result delta a,
      (forall l, l ∈ delta ->
         exists T, rtypeData l a = OK T a /\
                   forall k e, types.Underlying T <> types.Map k e) ->
      rtypeKey_solve cgn t result delta a = OK tt a) /\
  (forall cgn t result out delta a,
      (forall l, l ∈ delta ->
         exists T, rtypeData l a = OK T a /\
                   types.asSignature (types.Underlying T) = None) ->
      rtypeInOut_solve cgn t result out delta a = OK tt a).
Proof.
  repeat match goal with |- _ /\ _ => split end.
  - intros cgn v result key val delta a H.
    repeat match goal with |- _ /\ _ => split end.
    + unfold rVMapIndex_solve. erewrite (bind_run _ _ _ false a); [reflexivity|].
      apply foldDelta_skip. intros ch x Hx.
      destruct (H x Hx) as (t & p & ind & Ht & Hk).
      unfold rVMapIndex_step. erewrite bind_run by exact Ht. cbn beta iota.
      destruct (types.Underlying t) eqn:E; try reflexivity.
      exfalso. eapply Hk. reflexivity.
    + unfold rVMapKeys_solve. erewrite (bind_run _ _ _ false a); [reflexivity|].
      apply foldDelta_skip. intros ch x Hx.
      destruct (H x Hx) as (t & p & ind & Ht & Hk).
      unfold rVMapKeys_step. erewrite bind_run by exact Ht. cbn beta iota.
      destruct (types.Underlying t) eqn:E; try reflexivity.
      exfalso. eapply Hk. reflexivity.
    + unfold rVSetMapIndex_solve. apply forEach_skip. intros x Hx.
      destruct (H x Hx) as (t & p & ind & Ht & Hk).
      unfold rVSetMapIndex_step. erewrite bind_run by exact Ht.
      cbn beta iota.
      destruct (types.Underlying t) eqn:E; try reflexivity.
      exfalso. eapply Hk. reflexivity.
  - intros cgn v result x delta a H. split.
    + unfold rVRecv_solve. erewrite (bind_run _ _ _ false a); [reflexivity|].
      apply foldDelta_skip. intros ch y Hy.
      destruct (H y Hy) as (t & p & ind & Ht & Hk).
      unfold rVRecv_step. erewrite bind_run by exact Ht. cbn beta iota.
      destruct (types.Underlying t) eqn:E; try reflexivity.
      exfalso. eapply Hk. reflexivity.
    + unfold rVSend_solve. apply forEach_skip. intros y Hy.
      destruct (H y Hy) as (t & p & ind & Ht & Hk).
      unfold rVSend_step. erewrite bind_run by exact Ht. cbn beta iota.
      destruct (types.Underlying t) eqn:E; try reflexivity.
      exfalso. eapply Hk. reflexivity.
  - intros cgn typ result delta a H.
    unfold reflectMakeMap_solve. erewrite (bind_run _ _ _ false a); [reflexivity|].
    apply foldDelta_skip. intros ch y Hy.
    destruct (H y Hy) as (T & HT & Hk).
    unfold reflectMakeMap_step. erewrite bind_run by exact HT.
    destruct (types.Underlying T) eqn:E; try reflexivity.
    exfalso. eapply Hk. reflexivity.
  - intros cgn t result delta a H.
    unfold rtypeElem_solve. erewrite (bind_run _ _ _ false a); [reflexivity|].
    apply foldDelta_skip. intros ch y Hy.
    destruct (H y Hy) as (T & HT & Hk).
    unfold rtypeElem_step. erewrite bind_run by exact HT.
    rewrite Hk. reflexivity.
  - intros cgn t result delta a H.
    unfold rtypeKey_solve. erewrite (bind_run _ _ _ false a); [reflexivity|].
    apply foldDelta_skip. intros ch y Hy.
    destruct (H y Hy) as (T & HT & Hk).
    unfold rtypeKey_step. erewrite bind_run by exact HT.
    destruct (types.Underlying T) eqn:E; try reflexivity.
    exfalso. eapply Hk. reflexivity.
  - intros cgn t result out delta a H.
    unfold rtypeInOut_solve. erewrite (bind_run _ _ _ false a); [reflexivity|].
    apply foldDelta_skip. intros ch y Hy.
    destruct (H y Hy) as (T & HT & Hk).
    unfold rtypeInOut_step. erewrite bind_run by exact HT.
    rewrite Hk. reflexivity.
Qed.

Lemma makeRtype_total T a rp fi rest :
  reflectRtypePtr a = Some rp -> flatten rp = fi :: rest -> nodes a <> [] ->
  exists id a', makeRtype T a = OK id a'.
Proof.
  intros Hrp Hfl Hne. destruct (tm_At (rtypes a) T) as [id|] eqn:E.
  - exists id, a. apply makeRtype_hit. exact E.
  - eexists _, _. apply (makeRtype_first T rp fi rest a E Hrp Hfl Hne).
Qed.

Lemma grows_length a a' : grows a a' -> (length (nodes a) <= length (nodes a'))%nat.
Proof.
  intros Hg. destruct (nodes a) as [|n0 l] eqn:E using rev_ind; [simpl; lia|].
  clear IHl. rewrite length_app. simpl.
  destruct (grows_nodes _ _ Hg (length l) n0) as (n' & Hn' & _).
  { rewrite E. apply list_lookup_middle. reflexivity. }
  apply lookup_lt_Some in Hn'. lia.
Qed.

(** The tail shared by the solve rules that add an rtype to a result. *)
Lemma rtype_label_run result U a rp fi rest :
  rtypesOK a -> reflectRtypePtr a = Some rp -> flatten rp = fi :: rest ->
  nodes a <> [] -> (N.to_nat result < length (nodes a))%nat ->
  exists id a1 c a2 a3,
    makeRtype U a = OK id a1 /\
    addLabel result id a1 = OK c a2 /\
    when (c || false) (addWork result) a2 = OK tt a3 /\
    tm_At (rtypes a3) U = Some id /\
    id ∈ ptsOf a3 result /\
    rtypesOK a3 /\ grows a a3.
Proof.
  intros Hok Hrp Hfl Hne Hlt.
  destruct (makeRtype_total U a rp fi rest Hrp Hfl Hne) as (id & a1 & Hm).
  pose proof (makeRtype_effect _ _ _ _ Hm) as (Hid & _ & _ & _ & Hlen).
  pose proof (holds_rtypesOK_makeRtype U a id a1 Hok Hm) as Hok1.
  pose proof (monotone_makeRtype _ _ _ _ Hm) as Hg1.
  destruct (addLabel_total result id a1 ltac:(lia))
    as (c & a2 & Hadd & _ & Hp & _ & _ & _ & _ & Hr & Hg2).
  pose proof (holds_rtypesOK_addLabel _ _ _ _ _ Hok1 Hadd) as Hok2.
  destruct (when (c || false) (addWork result) a2) as [[] a3|msg] eqn:Hw;
    [|destruct c; discriminate Hw].
  exists id, a1, c, a2, a3.
  split; [exact Hm|]. split; [exact Hadd|]. split; [exact Hw|].
  assert (Hg3 : grows a2 a3).
  { eapply (monotone_when _ _ (monotone_addWork result)). exact Hw. }
  assert (Hn3 : nodes a3 = nodes a2 /\ rtypes a3 = rtypes a2).
  { destruct c; inversion Hw; split; reflexivity. }
  destruct Hn3 as [Hn3 Hr3].
  split; [rewrite Hr3, Hr; exact Hid|].
  split.
  { unfold ptsOf. rewrite Hn3. fold (ptsOf a2 result). rewrite Hp.
    set_solver. }
  split.
  { eapply (holds_when rtypesOK _ _ (holds_rtypesOK_addWork result));
      [exact Hok2|exact Hw]. }
  eapply grows_trans; [exact Hg1|]. eapply grows_trans; eassumption.
Qed.

(** X18.  [TypeOf] followed by [Elem].  In a state where the recorded
    rtypes denote their types and [reflect] is loaded, let a label be a
    tagged object whose dynamic type [T] has the element type [e].
    Solving a TypeOf constraint against this label succeeds and puts
    the canonical rtype object of [T] into its result; solving an Elem
    constraint against that object succeeds and puts into its result
    the canonical rtype object of [e], which denotes [e]. *)
Theorem TypeOf_then_Elem a iObj T p ind e rp fi rest cgn i r1 cgn' t r2 :
  rtypesOK a -> reflectRtypePtr a = Some rp -> flatten rp = fi :: rest ->
  nodes a <> [] ->
  taggedValue iObj a = OK (Some T, p, ind) a ->
  elemOf (types.Underlying T) = Some e ->
  (N.to_nat r1 < length (nodes a))%nat ->
  (N.to_nat r2 < length (nodes a))%nat ->
  exists a1 idT a2 idE,
    reflectTypeOf_solve cgn i r1 [iObj] a = OK tt a1 /\
    tm_At (rtypes a1) T = Some idT /\ idT ∈ ptsOf a1 r1 /\
    rtypeElem_solve cgn' t r2 [idT] a1 = OK tt a2 /\
    tm_At (rtypes a2) e = Some idE /\ idE ∈ ptsOf a2 r2 /\
    rtypeTaggedValue idE a2 = OK e a2.
Proof.
  intros Hok Hrp Hfl Hne Htv He Hr1 Hr2.
  destruct (rtype_label_run r1 T a rp fi rest Hok Hrp Hfl Hne Hr1)
    as (idT & b1 & c1 & b2 & a1 & Hm1 & Hl1 & Hw1 & HidT & Hin1 & Hok1 & Hg1).
  assert (Hrun1 : reflectTypeOf_solve cgn i r1 [iObj] a = OK tt a1).
  { unfold reflectTypeOf_solve. simpl foldDelta.
    unfold reflectTypeOf_step at 1. rewrite !bind_assoc.
    erewrite bind_run by exact Htv. cbn beta iota. rewrite !bind_assoc.
    erewrite bind_run by exact Hm1. rewrite !bind_assoc.
    erewrite bind_run by exact Hl1. rewrite !bind_ret. exact Hw1. }
  assert (Hrp1 : reflectRtypePtr a1 = Some rp)
    by (rewrite (grows_rtypePtr _ _ Hg1); exact Hrp).
  assert (Hne1 : nodes a1 <> []).
  { pose proof (grows_length _ _ Hg1) as Hl.
    destruct (nodes a); [congruence|].
    destruct (nodes a1); [simpl in Hl; lia|discriminate]. }
  assert (Hr2' : (N.to_nat r2 < length (nodes a1))%nat).
  { pose proof (grows_length _ _ Hg1). lia. }
  destruct (rtype_label_run r2 e a1 rp fi rest Hok1 Hrp1 Hfl Hne1 Hr2')
    as (idE & d1 & c2 & d2 & a2 & Hm2 & Hl2 & Hw2 & HidE & Hin2 & Hok2 & Hg2).
  exists a1, idT, a2, idE.
  split; [exact Hrun1|]. split; [exact HidT|]. split; [exact Hin1|].
  split.
  { unfold rtypeElem_solve. simpl foldDelta.
    unfold rtypeElem_step at 1. rewrite !bind_assoc.
    erewrite bind_run by (apply (Hok1 _ _ HidT)).
    rewrite He. rewrite !bind_assoc.
    erewrite bind_run by exact Hm2. rewrite !bind_assoc.
    erewrite bind_run by exact Hl2. rewrite !bind_ret. exact Hw2. }
  split; [exact HidE|]. split; [exact Hin2|].
  apply (Hok2 _ _ HidE).
Qed.

Lemma objectBlock_pts fl cgn data blk :
  Forall (fun n => n_pts n = ∅) blk ->
  Forall (fun n => n_pts n = ∅) (objectBlock fl cgn data blk).
Proof.
  intros H. unfold objectBlock.
  assert (Hp : Forall (fun n => n_pts n = ∅)
                 (blk ++ padIf (wrap32 (N.of_nat (length blk))))).
  { apply Forall_app. split; [exact H|]. unfold padIf.
    destruct (bool_decide _); repeat constructor. }
  destruct (blk ++ padIf _) as [|hd tl]; [constructor|].
  inversion Hp; subst. constructor; [assumption|assumption].
Qed.

Lemma newNodes_pts T : Forall (fun n => n_pts n = ∅) (newNodes T).
Proof. eapply Forall_impl; [apply newNodes_plain|]. intros n [_ H]. exact H. Qed.

Lemma ptsOf_addNs_new l a i :
  Forall (fun n => n_pts n = ∅) l -> ptsOf (addNs l a) i = ptsOf a i.
Proof.
  intros H. apply ptsOf_addNs. intros n Hn.
  rewrite Forall_forall in H. apply H. exact Hn.
Qed.

(** X19.  The solve rule of [reflect.New] on one rtype label denoting
    [T], with its result in the table and a pointer type that has a
    node: it succeeds; it appends a new object of type [T] owned by the
    contour of the constraint and, after it, a tagged object of type
    pointer-to-[T] that is not indirect; the payload of the tagged
    object points to the new object and to nothing else; the tagged
    object is added to the points-to set of the result; no constraint
    is generated. *)
Theorem reflectNew_solve_effect cgn typ result typObj T a :
  rtypeTaggedValue typObj a = OK T a ->
  (N.to_nat result < length (nodes a))%nat ->
  flatten (types.Pointer T) <> [] ->
  let newObj := N.of_nat (length (nodes a)) in
  let blk := objectBlock noFlags (Some cgn) DataNil (newNodes T) in
  let id := newObj + N.of_nat (length blk) in
  exists a',
    reflectNew_solve cgn typ result [typObj] a = OK tt a' /\
    (forall i nd, blk !! i = Some nd ->
       exists nd', nodes a' !! (length (nodes a) + i)%nat = Some nd' /\
                   n_typ nd' = n_typ nd /\ n_obj nd' = n_obj nd) /\
    taggedValue id a' = OK (Some (types.Pointer T), id + 1, false) a' /\
    ptsOf a' (id + 1) = {[newObj]} /\
    ptsOf a' result = {[id]} ∪ ptsOf a result /\
    constraints a' = constraints a.
Proof.
  intros HT Hlt Hfl newObj blk id.
  set (a1 := addNs blk a).
  set (tblk := objectBlock (setTagged noFlags) (Some cgn) DataNil
                 (taggedBlock (types.Pointer T))).
  set (a2 := addNs tblk a1).
  assert (Hid : N.of_nat (length (nodes a1)) = id).
  { subst a1 id newObj. cbn [nodes addNs set_nodes].
    rewrite length_app. lia. }
  assert (Htag : taggedValue id a2
                 = OK (Some (types.Pointer T), id + 1, false) a2).
  { destruct (tagged_round_trip_aux (types.Pointer T) (Some cgn) DataNil a1)
      as (Hrun & Htv).
    rewrite Hid in Htv. exact Htv. }
  (* the payload node *)
  destruct (flatten (types.Pointer T)) as [|fi0 fl0] eqn:Efl; [congruence|].
  assert (Hpay : nodes a2 !! N.to_nat (id + 1) = Some (nodeOf fi0)).
  { subst a2 tblk. cbn [nodes addNs set_nodes].
    rewrite lookup_app_r by lia.
    replace (N.to_nat (id + 1) - length (nodes a1))%nat with 1%nat by lia.
    unfold objectBlock, taggedBlock, newNodes. rewrite Efl. reflexivity. }
  destruct (addLabel_total (id + 1) newObj a2)
    as (c1 & a3 & Hadd1 & _ & Hp1 & Hi1 & Hlen1 & Hcs1 & _ & _ & Hg1).
  { eapply lookup_lt_Some. exact Hpay. }
  assert (Hlen2 : (length (nodes a) <= length (nodes a2))%nat).
  { subst a2 a1. cbn [nodes addNs set_nodes]. rewrite !length_app. lia. }
  destruct (addLabel_total result id a3)
    as (c2 & a4 & Hadd2 & _ & Hp2 & Hi2 & Hlen3 & Hcs2 & _ & _ & Hg2).
  { lia. }
  destruct (when (c2 || false) (addWork result) a4) as [[] a5|msg] eqn:Hw;
    [|destruct c2; discriminate Hw].
  assert (H5 : nodes a5 = nodes a4 /\ constraints a5 = constraints a4).
  { destruct c2; inversion Hw; split; reflexivity. }
  destruct H5 as [Hn5 Hc5].
  assert (Hg3 : grows a4 a5).
  { eapply (monotone_when _ _ (monotone_addWork result)). exact Hw. }
  exists a5. split; [|split; [|split; [|split; [|split]]]].
  - assert (Hstep : reflectNew_step cgn result false typObj a
                    = OK (c2 || false) a4).
    { unfold reflectNew_step.
      erewrite bind_run by exact HT.
      rewrite alloc_run. fold blk a1.
      erewrite bind_run by apply makeTagged_run.
      fold tblk a2. rewrite Hid.
      erewrite bind_run by exact Hadd1.
      erewrite bind_run by exact Hadd2.
      reflexivity. }
    unfold reflectNew_solve. simpl foldDelta. rewrite !bind_assoc.
    erewrite bind_run by exact Hstep.
    rewrite !bind_ret. exact Hw.
  - intros i nd Hi.
    assert (H2 : nodes a2 !! (length (nodes a) + i)%nat = Some nd).
    { subst a2 a1. cbn [nodes addNs set_nodes].
      rewrite lookup_app_l
        by (rewrite length_app; apply lookup_lt_Some in Hi; lia).
      rewrite lookup_app_r by lia.
      replace (length (nodes a) + i - length (nodes a))%nat with i by lia.
      exact Hi. }
    destruct (grows_nodes _ _ Hg1 _ _ H2) as (n3 & Hn3 & Ht3 & Ho3 & _).
    destruct (grows_nodes _ _ Hg2 _ _ Hn3) as (n4 & Hn4 & Ht4 & Ho4 & _).
    exists n4. rewrite Hn5. split; [exact Hn4|]. split; congruence.
  - eapply taggedValue_grows; [exact Hg3|].
    eapply taggedValue_grows; [exact Hg2|].
    eapply taggedValue_grows; [exact Hg1|exact Htag].
  - unfold ptsOf at 1. rewrite Hn5. fold (ptsOf a4 (id + 1)).
    rewrite Hi2 by lia. rewrite Hp1.
    unfold ptsOf. rewrite Hpay. cbn. set_solver.
  - unfold ptsOf at 1. rewrite Hn5. fold (ptsOf a4 result).
    rewrite Hp2. rewrite Hi1 by lia.
    subst a2 a1. rewrite !ptsOf_addNs_new; [reflexivity| |].
    + apply objectBlock_pts, newNodes_pts.
    + apply objectBlock_pts. constructor; [reflexivity|apply newNodes_pts].
  - rewrite Hc5, Hcs2, Hcs1. reflexivity.
Qed.

(** X20.  The value node of a global variable seen for the first time,
    in a table that is not empty: [valueNode] appends the value node of
    the variable and, after it, the object of the variable (of the
    pointee type, owned by no contour); it emits exactly the constraint
    [addr] that makes the value node point to the object; it records
    both in [globalval] and [globalobj]; it records the node in the
    result of the query when the client has queried the variable
    directly, and touches no query result otherwise. *)
Theorem valueNode_fresh_global id t te a :
  valueNodeLookup a (ssa.Global id t) = None ->
  globalobj a !! id = None ->
  types.Underlying t = types.Pointer te ->
  nodes a <> [] ->
  let n := N.of_nat (length (nodes a)) in
  let a' :=
    set_globalval (fun m => <[id := n]> m)
      (addCs [addrConstraint n (n + 1)]
         (set_globalobj (fun m => <[id := n + 1]> m)
            (addNs (mkNode t None None ∅
                    :: objectBlock noFlags None (DataValue id) (newNodes te))
               a))) in
  (Queries (config a) !! id = None ->
   valueNode (ssa.Global id t) a = OK n a') /\
  (Queries (config a) !! id = Some false ->
   valueNode (ssa.Global id t) a
   = OK n (set_resultQueries
             (fun q => <[id := default [] (q !! id) ++ [mkPtr None n]]> q) a')).
Proof.
  intros Hl Hg Ht Hne n a'.
  assert (Hrun :
    valueNode (ssa.Global id t) a
    = (do! setValueNodeWith
             (genLoadWith (fun _ => objectNodeGlobal) valueNodeCached)
             (ssa.Global id t) n None in ret n)
        (addCs [addrConstraint n (n + 1)]
           (set_globalobj (fun m => <[id := n + 1]> m)
              (addNs (mkNode t None None ∅
                      :: objectBlock noFlags None (DataValue id)
                           (newNodes te)) a)))).
  { unfold valueNode. run_refl. rewrite Hl.
    run_with addOneNode_run.
    erewrite bind_run
      by (apply objectNodeGlobal_global; [exact Hg|exact Ht]).
    cbn [nodes addNs set_nodes]. rewrite length_app. cbn [length].
    replace (N.of_nat (length (nodes a) + 1)) with (n + 1) by (subst n; lia).
    rewrite bool_decide_eq_false_2 by lia. cbn [negb when].
    unfold addressOf.
    rewrite bool_decide_eq_false_2
      by (subst n; destruct (nodes a); [congruence|simpl; lia]).
    rewrite bool_decide_eq_false_2 by lia.
    run_refl. rewrite addNs_app. reflexivity. }
  split; intros Hq; rewrite Hrun;
    unfold bind, setValueNodeWith, modify, get, ret; cbn;
    rewrite Hq; reflexivity.
Qed.

(** X21.  The intrinsics of [reflect.ValueOf], [reflect.TypeOf] and
    [reflect.Zero] on the contour that [makeFunctionObject] has just
    made for the function.  With [p] the first parameter node and [r]
    the first result node of the contour: ValueOf emits the one
    constraint [copy{r, p}], and nothing at all when the function has
    neither receiver nor parameter nodes (then [r = p]); TypeOf and Zero
    each emit their one reflection constraint from [p] to [r]. *)
Theorem intrinsics_on_new_contour fn cs a :
  let obj := N.of_nat (length (nodes a)) in
  let cgn := length (cgnodes a) in
  let sig := ssa.Signature fn in
  let recvSize := match types.Recv sig with
                  | Some recv => sizeof recv
                  | None => 0
                  end in
  let p := obj + 1 in
  let r := obj + (1 + sizeof (types.Tuple (types.Params sig))) + recvSize in
  exists a',
    makeFunctionObject fn cs a = OK obj a' /\
    ext_reflect_ValueOf cgn a'
    = OK tt (if bool_decide (r = p) then a'
             else addCs [copyConstraint r p] a') /\
    ext_reflect_TypeOf cgn a'
    = OK tt (addCs [reflectTypeOfConstraint cgn p r] a') /\
    ext_reflect_Zero cgn a'
    = OK tt (addCs [reflectZeroConstraint cgn p r] a').
Proof.
  intros obj cgn sig recvSize p r. eexists.
  split; [apply makeFunctionObject_run|].
  set (a' := set_genq _ _).
  assert (Hn : exists hdr rest,
             nodes a'
             = nodes a ++ mkNode (types.sigType sig) None
                            (Some (mkObject hdr (setFunction noFlags)
                                     (Some (length (cgnodes a)))
                                     (DataValue (ssa.fn_id fn)))) ∅ :: rest).
  { subst a'. cbn [nodes set_genq addNs set_nodes set_cgnodes].
    unfold objectBlock, fnBlock. cbn [app install setObj n_typ n_subelement n_pts].
    eexists _, _. reflexivity. }
  destruct Hn as (hdr & rest & Hn).
  assert (Hcg : cgnObj cgn a' = OK obj a').
  { unfold cgnObj. subst a' cgn.
    cbn [cgnodes set_genq addNs set_nodes set_cgnodes].
    rewrite list_lookup_middle by reflexivity. reflexivity. }
  assert (Hp : funcParams obj a' = OK p a').
  { unfold funcParams. erewrite bind_run by (eapply nodeAt_block; exact Hn).
    reflexivity. }
  assert (Hr : funcResults obj a' = OK r a').
  { unfold funcResults. erewrite bind_run by (eapply nodeAt_block; exact Hn).
    cbn [isFunctionBlock n_obj o_flags setFunction otFunction n_typ].
    unfold types.sigType, types.asSignature.
    subst r recvSize. cbn [types.Params types.Recv].
    destruct (types.Recv sig); [reflexivity|].
    rewrite N.add_0_r. reflexivity. }
  repeat match goal with |- _ /\ _ => split end.
  - unfold ext_reflect_ValueOf.
    erewrite bind_run by exact Hcg. erewrite bind_run by exact Hr.
    erewrite bind_run by exact Hp.
    unfold copy. destruct (bool_decide (r = p)) eqn:E.
    + apply bool_decide_eq_true_1 in E.
      rewrite (bool_decide_eq_true_2 (p = r)) by congruence. reflexivity.
    + apply bool_decide_eq_false_1 in E.
      rewrite (bool_decide_eq_false_2 (p = r)) by congruence.
      cbn [orb]. rewrite (bool_decide_eq_false_2 (1 = 0)) by lia.
      rewrite (bool_decide_eq_false_2 (p = 0)) by (subst p; lia).
      rewrite (bool_decide_eq_false_2 (r = 0)) by (subst r; lia).
      reflexivity.
  - unfold ext_reflect_TypeOf.
    erewrite bind_run by exact Hcg. erewrite bind_run by exact Hp.
    erewrite bind_run by exact Hr. reflexivity.
  - unfold ext_reflect_Zero.
    erewrite bind_run by exact Hcg. erewrite bind_run by exact Hp.
    erewrite bind_run by exact Hr. reflexivity.
Qed.

Lemma genStore_unknown caller fnv n off sz a lv lo f :
  localval a = Some lv -> localobj a = Some lo ->
  lo !! ssa.vid fnv = Some 0 -> lv !! ssa.vid fnv = Some f -> f <> 0 ->
  genStore (Some caller) fnv n off sz a
  = OK tt (addCs (if bool_decide (n = 0) then []
                  else storeList (N.to_nat sz) f n off) a).
Proof.
  intros Hlv Hlo Ho Hf Hf0. unfold genStore. simpl objectNode.
  erewrite bind_run by (eapply objectNodeLocal_hit; eassumption).
  rewrite bool_decide_eq_true_2 by reflexivity. cbn [negb].
  erewrite bind_run
    by (apply valueNode_hit; eapply valueNodeLookup_local; eassumption).
  destruct (bool_decide (n = 0)) eqn:E.
  - unfold store. rewrite E. rewrite addCs_nil. reflexivity.
  - apply bool_decide_eq_false_1 in E. apply store_run; assumption.
Qed.

Lemma storeActuals_run caller fnv sig lv lo f :
  lo !! ssa.vid fnv = Some 0 -> lv !! ssa.vid fnv = Some f -> f <> 0 ->
  forall args ns i offset a,
    localval a = Some lv -> localobj a = Some lo ->
    Forall2 (fun arg n => lv !! ssa.vid arg = Some n) args ns ->
    (i + length args <= length (types.Params sig))%nat ->
    let szs := map sizeof (take (length args) (drop i (types.Params sig))) in
    storeActuals caller fnv sig i args offset a
    = OK (offsetAfter szs offset) (addCs (actualStores f szs ns offset) a).
Proof.
  intros Ho Hf Hf0 args ns i offset a Hlv Hlo Hargs.
  revert i offset a Hlv Hlo.
  induction Hargs as [|arg n args ns Harg Hargs IH];
    intros i offset a Hlv Hlo Hlen szs.
  - subst szs. simpl. rewrite addCs_nil. reflexivity.
  - simpl in Hlen.
    destruct (types.Params sig !! i) as [t|] eqn:Et;
      [|apply lookup_ge_None_1 in Et; lia].
    assert (Hd : drop i (types.Params sig)
                 = t :: drop (S i) (types.Params sig)).
    { apply drop_S. exact Et. }
    subst szs. cbn [length]. rewrite Hd. cbn [take map actualStores].
    cbn [storeActuals]. unfold index. rewrite Et.
    rewrite bind_ret.
    erewrite bind_run
      by (apply valueNode_hit; eapply valueNodeLookup_local; eassumption).
    erewrite bind_run by (eapply genStore_unknown; eassumption).
    rewrite IH by (try assumption; simpl; lia).
    rewrite addCs_app. reflexivity.
Qed.

(** X22.  A dynamic call inside a function body, where the function
    value has the value node [f] (not 0) and no known object, and the
    arguments have the value nodes [ns]: [genDynamicCall] creates no
    node; it stores each argument with a value node other than 0 into
    the block of [f], the first at offset 1 and each next one after the
    size of the previous parameter; it loads the results, unless the
    call has no result node, from the offset after the last parameter;
    and it makes [f] the targets of the call site.  The call panics when
    it has more arguments than the signature has parameters. *)
Theorem genDynamicCall_effect caller site call result a lv lo f ns :
  localval a = Some lv -> localobj a = Some lo ->
  lo !! ssa.vid (ssa.cc_Value call) = Some 0 ->
  lv !! ssa.vid (ssa.cc_Value call) = Some f -> f <> 0 ->
  Forall2 (fun arg n => lv !! ssa.vid arg = Some n) (ssa.Args call) ns ->
  let sig := ssa.cc_Signature call in
  let szs := map sizeof (take (length (ssa.Args call)) (types.Params sig)) in
  ((length (ssa.Args call) <= length (types.Params sig))%nat ->
   exists a',
     genDynamicCall caller site call result a = OK tt a' /\
     nodes a' = nodes a /\
     constraints a'
     = constraints a ++ actualStores f szs ns 1
       ++ (if bool_decide (result = 0) then []
           else loadList (N.to_nat (sizeof (types.Tuple (types.Results sig))))
                  result f (offsetAfter szs 1)) /\
     callsites a'
     = match callsites a !! site with
       | Some cs => <[site := mkCallsite (cs_instr cs) f]> (callsites a)
       | None => callsites a
       end) /\
  ((length (types.Params sig) < length (ssa.Args call))%nat ->
   genDynamicCall caller site call result a = Panic "index out of range").
Proof.
  intros Hlv Hlo Ho Hf Hf0 Hargs sig szs. split.
  - intros Hlen.
    pose proof (storeActuals_run caller (ssa.cc_Value call) sig lv lo f
                  Ho Hf Hf0 (ssa.Args call) ns 0 1 a Hlv Hlo Hargs
                  ltac:(simpl; exact Hlen)) as Hrun.
    cbn zeta in Hrun. rewrite drop_0 in Hrun. fold szs in Hrun.
    set (a1 := addCs (actualStores f szs ns 1) a) in *.
    assert (Hload :
      when (negb (bool_decide (result = 0)))
        (genLoad (Some caller) result (ssa.cc_Value call) (offsetAfter szs 1)
           (sizeof (types.Tuple (types.Results sig)))) a1
      = OK tt (addCs (if bool_decide (result = 0) then []
                      else loadList
                             (N.to_nat (sizeof (types.Tuple (types.Results sig))))
                             result f (offsetAfter szs 1)) a1)).
    { destruct (bool_decide (result = 0)) eqn:E; cbn [negb when].
      - rewrite addCs_nil. reflexivity.
      - apply bool_decide_eq_false_1 in E.
        unfold genLoad, genLoadWith. simpl objectNode.
        erewrite bind_run
          by (eapply objectNodeLocal_hit; [exact Hlo|exact Ho]).
        rewrite bool_decide_eq_true_2 by reflexivity. cbn [negb].
        erewrite bind_run
          by (apply valueNode_hit; eapply valueNodeLookup_local;
              [exact Hlv|exact Hf]).
        apply load_run; assumption. }
    eexists. split.
    + unfold genDynamicCall.
      erewrite bind_run
        by (apply valueNode_hit; eapply valueNodeLookup_local; eassumption).
      fold sig. erewrite bind_run by exact Hrun.
      erewrite bind_run by exact Hload.
      reflexivity.
    + cbn [nodes constraints callsites set_callsites addCs set_constraints].
      subst a1. cbn [nodes constraints callsites addCs set_constraints].
      split; [reflexivity|]. split; [rewrite app_assoc; reflexivity|].
      reflexivity.
  - intros Hlen.
    unfold genDynamicCall.
    erewrite bind_run
      by (apply valueNode_hit; eapply valueNodeLookup_local; eassumption).
    fold sig.
    (* the first [length Params] arguments are stored, the next one fails *)
    assert (Hpanic : forall args ns i offset s,
      localval s = Some lv -> localobj s = Some lo ->
      Forall2 (fun arg n => lv !! ssa.vid arg = Some n) args ns ->
      (i <= length (types.Params sig))%nat ->
      (length (types.Params sig) < i + length args)%nat ->
      storeActuals caller (ssa.cc_Value call) sig i args offset s
      = Panic "index out of range").
    { clear Hargs Hlen ns. intros args ns i offset s Hs1 Hs2 Hargs.
      revert i offset s Hs1 Hs2.
      induction Hargs as [|arg n args ns Harg Hargs IH];
        intros i offset s Hs1 Hs2 Hi Hlen.
      - simpl in Hlen. lia.
      - cbn [storeActuals]. unfold index.
        destruct (types.Params sig !! i) as [t|] eqn:Et; [|reflexivity].
        rewrite bind_ret.
        erewrite bind_run
          by (apply valueNode_hit; eapply valueNodeLookup_local; eassumption).
        erewrite bind_run by (eapply genStore_unknown; eassumption).
        apply lookup_lt_Some in Et.
        apply IH; try assumption; simpl in *; lia. }
    unfold bind at 1.
    rewrite (Hpanic (ssa.Args call) ns 0%nat 1 a Hlv Hlo Hargs);
      [reflexivity|lia|simpl; lia].
Qed.

(** X23.  [setValueNode] for a value that the client has not queried
    indirectly.  Without a contour it records the node in [globalval];
    with a contour it records it in [localval], leaving [globalval] as
    it is, and it panics when no function is being generated
    ([localval] is nil).  [valueNode] then returns the node: always
    after a local record, which shadows a global one, and after a global
    record when the value has no local one.  No node and no constraint
    is created, and the pointer (contour, node) is appended to the
    result of the query when the value is queried; the results of a
    value that is not queried stay as they are. *)
Theorem setValueNode_records v id :
  let recorded (cgn : option cgnref) (a : analysis) :=
    match Queries (config a) !! ssa.vid v with
    | Some _ =>
        <[ssa.vid v := default [] (resultQueries a !! ssa.vid v)
                       ++ [mkPtr cgn id]]> (resultQueries a)
    | None => resultQueries a
    end in
  (forall a,
     Queries (config a) !! ssa.vid v <> Some true ->
     (localval a ≫= (fun m => m !! ssa.vid v)) = None ->
     exists a',
       setValueNode v id None a = OK tt a' /\
       valueNode v a' = OK id a' /\
       nodes a' = nodes a /\ constraints a' = constraints a /\
       resultQueries a' = recorded None a) /\
  (forall cgn a lv,
     Queries (config a) !! ssa.vid v <> Some true ->
     localval a = Some lv ->
     exists a',
       setValueNode v id (Some cgn) a = OK tt a' /\
       valueNode v a' = OK id a' /\
       globalval a' = globalval a /\
       nodes a' = nodes a /\ constraints a' = constraints a /\
       resultQueries a' = recorded (Some cgn) a) /\
  (forall cgn a,
     localval a = None ->
     setValueNode v id (Some cgn) a
     = Panic "assignment to entry in nil map").
Proof.
  intros recorded. split; [|split].
  - intros a Hq Hl.
    unfold setValueNode, setValueNodeWith, recorded.
    destruct (Queries (config a) !! ssa.vid v) as [[|]|] eqn:E;
      [congruence| |].
    + eexists. split.
      { unfold bind, modify, get. cbn. rewrite E. reflexivity. }
      split.
      { apply valueNode_hit. unfold valueNodeLookup.
        cbn [localval globalval set_globalval set_resultQueries].
        rewrite Hl. apply lookup_insert_eq. }
      repeat split.
    + eexists. split.
      { unfold bind, modify, get. cbn. rewrite E. reflexivity. }
      split.
      { apply valueNode_hit. unfold valueNodeLookup.
        cbn [localval globalval set_globalval set_resultQueries].
        rewrite Hl. apply lookup_insert_eq. }
      repeat split.
  - intros cgn a lv Hq Hl.
    unfold setValueNode, setValueNodeWith, recorded.
    destruct (Queries (config a) !! ssa.vid v) as [[|]|] eqn:E;
      [congruence| |].
    + eexists. split.
      { unfold bind, modify, get, writeLocalval. rewrite Hl. cbn.
        rewrite E. reflexivity. }
      split.
      { apply valueNode_hit. unfold valueNodeLookup.
        cbn [localval globalval set_localval set_resultQueries].
        simpl. rewrite lookup_insert_eq. reflexivity. }
      repeat split.
    + eexists. split.
      { unfold bind, modify, get, writeLocalval. rewrite Hl. cbn.
        rewrite E. reflexivity. }
      split.
      { apply valueNode_hit. unfold valueNodeLookup.
        cbn [localval globalval set_localval set_resultQueries].
        simpl. rewrite lookup_insert_eq. reflexivity. }
      repeat split.
  - intros cgn a Hl.
    unfold setValueNode, setValueNodeWith, bind, writeLocalval.
    rewrite Hl. reflexivity.
Qed.

Lemma copyActuals_run sig lv :
  forall args ns i params s,
    localval s = Some lv ->
    Forall2 (fun arg n => lv !! ssa.vid arg = Some n) args ns ->
    Forall (fun n => n <> 0 /\ n < params) ns ->
    (i + length args <= length (types.Params sig))%nat ->
    let szs := map sizeof (take (length args) (drop i (types.Params sig))) in
    copyActuals sig i args params s
    = OK (fold_left N.add szs params) (addCs (actualCopies params szs ns) s).
Proof.
  intros args ns i params s Hlv Hargs. revert i params s Hlv.
  induction Hargs as [|arg n args ns Harg Hargs IH];
    intros i params s Hlv Hns Hlen szs.
  - subst szs. simpl. rewrite addCs_nil. reflexivity.
  - simpl in Hlen. inversion Hns as [|? ? [Hn0 Hnp] Hns']; subst.
    destruct (types.Params sig !! i) as [t|] eqn:Et;
      [|apply lookup_ge_None_1 in Et; lia].
    assert (Hd : drop i (types.Params sig)
                 = t :: drop (S i) (types.Params sig)).
    { apply drop_S. exact Et. }
    subst szs. cbn [length]. rewrite Hd.
    cbn [take map actualCopies fold_left].
    cbn [copyActuals]. unfold index. rewrite Et. rewrite bind_ret.
    erewrite bind_run
      by (apply valueNode_hit; eapply valueNodeLookup_local; eassumption).
    erewrite bind_run by (apply copy_run; lia).
    rewrite IH; [rewrite addCs_app; reflexivity|exact Hlv| |simpl; lia].
    eapply Forall_impl; [exact Hns'|]. cbn. intros x [? ?]. split; [assumption|lia].
Qed.

(** X24.  A static call, without receiver, to a function that is
    analysed per call site, inside a function body where the arguments
    have value nodes other than 0: [genStaticCall] makes a new contour
    of the callee for this site and a node [targets] after it; it emits
    [addr{targets, contour}], then the copies of the arguments into the
    parameter block of the contour, one parameter after the other, then,
    unless the call has no result node, the copies of the result block
    of the contour into the result; and it makes [targets] the targets
    of the call site. *)
Theorem genStaticCall_effect caller site call result fn a lv ns :
  ssa.StaticCallee call = Some fn ->
  shouldUseContext fn = true ->
  types.Recv (ssa.cc_Signature call) = None ->
  localval a = Some lv -> nodes a <> [] ->
  Forall2 (fun arg n => lv !! ssa.vid arg = Some n) (ssa.Args call) ns ->
  Forall (fun n => n <> 0 /\ n < N.of_nat (length (nodes a))) ns ->
  result < N.of_nat (length (nodes a)) ->
  (length (ssa.Args call) <= length (types.Params (ssa.cc_Signature call)))%nat ->
  let sig := ssa.cc_Signature call in
  let fsig := ssa.Signature fn in
  let szs := map sizeof (take (length (ssa.Args call)) (types.Params sig)) in
  let obj := N.of_nat (length (nodes a)) in
  let block := objectBlock (setFunction noFlags) (Some (length (cgnodes a)))
                 (DataValue (ssa.fn_id fn)) (fnBlock fn) in
  let targets := obj + N.of_nat (length block) in
  let r := obj + (1 + sizeof (types.Tuple (types.Params fsig)))
           + match types.Recv fsig with
             | Some recv => sizeof recv
             | None => 0
             end in
  exists a',
    genStaticCall caller site call result a = OK tt a' /\
    nodes a' = nodes a ++ block ++ [mkNode (types.sigType sig) None None ∅] /\
    cgnodes a' = cgnodes a ++ [mkCgnode fn obj (Some site) []] /\
    constraints a'
    = constraints a ++ addrConstraint targets obj
        :: actualCopies (obj + 1) szs ns
        ++ (if bool_decide (result = 0) then []
            else copyList
                   (N.to_nat (sizeof (types.Tuple (types.Results sig))))
                   result r) /\
    callsites a'
    = match callsites a !! site with
      | Some cs => <[site := mkCallsite (cs_instr cs) targets]> (callsites a)
      | None => callsites a
      end.
Proof.
  intros Hfn Hctx Hrecv Hlv Hne Hargs Hns Hres Hlen sig fsig szs obj block
    targets r.
  set (a1 := set_genq (fun q => q ++ [length (cgnodes a)])
               (addNs block
                  (set_cgnodes
                     (fun l => l ++ [mkCgnode fn obj (Some site) []]) a))).
  assert (Hobj : staticContour fn site a = OK obj a1).
  { unfold staticContour. rewrite Hctx. apply makeFunctionObject_run. }
  assert (Hblk : exists hdr rest,
             block = mkNode (types.sigType fsig) None
                       (Some (mkObject hdr (setFunction noFlags)
                                (Some (length (cgnodes a)))
                                (DataValue (ssa.fn_id fn)))) ∅ :: rest).
  { subst block. unfold objectBlock, fnBlock.
    cbn [app install setObj n_typ n_subelement n_pts].
    eexists _, _. reflexivity. }
  destruct Hblk as (hdr & rest & Hblk).
  set (a2 := addNs [mkNode (types.sigType sig) None None ∅] a1).
  assert (Hn2 : nodes a2 = nodes a ++ block
                             ++ [mkNode (types.sigType sig) None None ∅]).
  { subst a2 a1. cbn [nodes set_genq addNs set_nodes set_cgnodes].
    rewrite <- app_assoc. reflexivity. }
  assert (Htargets : N.of_nat (length (nodes a1)) = targets).
  { subst a1 targets obj. cbn [nodes set_genq addNs set_nodes set_cgnodes].
    rewrite length_app. lia. }
  assert (Hobj0 : obj <> 0).
  { subst obj. destruct (nodes a); [congruence|simpl; lia]. }
  set (a3 := addCs [addrConstraint targets obj] a2).
  assert (Hnode : forall s, nodes s = nodes a2 ->
                    nodeAt obj s
                    = OK (mkNode (types.sigType fsig) None
                            (Some (mkObject hdr (setFunction noFlags)
                                     (Some (length (cgnodes a)))
                                     (DataValue (ssa.fn_id fn)))) ∅) s).
  { intros s Hs. eapply nodeAt_block. rewrite Hs, Hn2, Hblk.
    rewrite <- app_comm_cons. reflexivity. }
  assert (Hp : forall s, nodes s = nodes a2 ->
                 funcParams obj s = OK (obj + 1) s).
  { intros s Hs. unfold funcParams. erewrite bind_run by (apply Hnode, Hs).
    reflexivity. }
  assert (Hr : forall s, nodes s = nodes a2 -> funcResults obj s = OK r s).
  { intros s Hs. unfold funcResults. erewrite bind_run by (apply Hnode, Hs).
    cbn [isFunctionBlock n_obj o_flags setFunction otFunction n_typ].
    unfold types.sigType, types.asSignature.
    subst r. cbn [types.Params types.Recv].
    destruct (types.Recv fsig); [reflexivity|].
    rewrite N.add_0_r. reflexivity. }
  pose proof (copyActuals_run sig lv (ssa.Args call) ns 0 (obj + 1) a3)
    as Hcopy.
  cbn zeta in Hcopy. rewrite drop_0 in Hcopy. fold szs in Hcopy.
  specialize (Hcopy Hlv Hargs).
  assert (Hns' : Forall (fun n => n <> 0 /\ n < obj + 1) ns).
  { eapply Forall_impl; [exact Hns|]. cbn. intros x [? ?].
    split; [assumption|subst obj; lia]. }
  specialize (Hcopy Hns' ltac:(simpl; exact Hlen)).
  set (a4 := addCs (actualCopies (obj + 1) szs ns) a3) in *.
  assert (Hresult :
    when (negb (bool_decide (result = 0)))
      (let! r := funcResults obj in
       copy result r (sizeof (types.Tuple (types.Results sig)))) a4
    = OK tt (addCs (if bool_decide (result = 0) then []
                    else copyList
                           (N.to_nat (sizeof (types.Tuple (types.Results sig))))
                           result r) a4)).
  { destruct (bool_decide (result = 0)) eqn:E; cbn [negb when].
    - rewrite addCs_nil. reflexivity.
    - apply bool_decide_eq_false_1 in E.
      erewrite bind_run by (apply Hr; reflexivity).
      apply copy_run; [subst r obj; lia|subst r; lia|exact E]. }
  eexists. split.
  - unfold genStaticCall. rewrite Hfn. rewrite bind_ret.
    erewrite bind_run by exact Hobj.
    run_with addOneNode_run. fold sig. fold a2. rewrite Htargets.
    unfold addressOf.
    rewrite (bool_decide_eq_false_2 (targets = 0))
      by (subst targets; rewrite Hblk; simpl; lia).
    rewrite (bool_decide_eq_false_2 (obj = 0)) by exact Hobj0.
    run_refl. fold a3.
    erewrite bind_run by (apply Hp; reflexivity).
    change (types.Recv sig = None) in Hrecv.
    rewrite Hrecv. rewrite bind_ret. cbn beta iota.
    erewrite bind_run by exact Hcopy.
    erewrite bind_run by exact Hresult.
    reflexivity.
  - cbn [nodes constraints callsites cgnodes set_callsites addCs
         set_constraints].
    subst a4 a3.
    cbn [nodes constraints callsites cgnodes addCs set_constraints].
    split; [exact Hn2|]. split; [reflexivity|].
    split; [|reflexivity].
    subst a2 a1.
    cbn [nodes constraints callsites cgnodes addCs set_constraints
         addNs set_nodes set_genq set_cgnodes].
    rewrite <- !app_assoc. reflexivity.
Qed.

(** X25.  [panic] and [recover].  A call [panic(v)] whose argument has
    a recorded value node [n], neither 0 nor the panic node, emits
    exactly [copy{panicNode, n}]; a call [recover()] with a recorded
    value node [z] emits exactly [copy{z, panicNode}]; so, generated one
    after the other, they lead from [n] to [z] through the panic node
    alone.  A [panic] whose argument has the value node 0 makes the
    generator panic, and so does a [panic] without argument. *)
Theorem panic_flows_to_recover :
  (forall instr cgn a id t arg rest n,
      ssa.cc_Value (ssa.Common instr) = ssa.Builtin id t "panic" ->
      ssa.Args (ssa.Common instr) = arg :: rest ->
      valueNodeLookup a arg = Some n ->
      n <> 0 -> panicNode a <> 0 -> n <> panicNode a ->
      genBuiltinCall instr cgn a
      = OK tt (addCs [copyConstraint (panicNode a) n] a)) /\
  (forall c cgn a id t z,
      ssa.cc_Value (ssa.call_Call c) = ssa.Builtin id t "recover" ->
      valueNodeLookup a (ssa.VCall c) = Some z ->
      z <> 0 -> panicNode a <> 0 -> z <> panicNode a ->
      genBuiltinCall (ssa.ICall c) cgn a
      = OK tt (addCs [copyConstraint z (panicNode a)] a)) /\
  (forall instr c cgn cgn' a id t id' t' arg rest n z,
      ssa.cc_Value (ssa.Common instr) = ssa.Builtin id t "panic" ->
      ssa.Args (ssa.Common instr) = arg :: rest ->
      ssa.cc_Value (ssa.call_Call c) = ssa.Builtin id' t' "recover" ->
      valueNodeLookup a arg = Some n ->
      valueNodeLookup a (ssa.VCall c) = Some z ->
      n <> 0 -> z <> 0 -> panicNode a <> 0 ->
      n <> panicNode a -> z <> panicNode a ->
      (do! genBuiltinCall instr cgn in genBuiltinCall (ssa.ICall c) cgn') a
      = OK tt (addCs [copyConstraint (panicNode a) n;
                      copyConstraint z (panicNode a)] a)) /\
  (forall instr cgn a id t arg rest,
      ssa.cc_Value (ssa.Common instr) = ssa.Builtin id t "panic" ->
      ssa.Args (ssa.Common instr) = arg :: rest ->
      valueNodeLookup a arg = Some 0 -> panicNode a <> 0 ->
      genBuiltinCall instr cgn a = Panic "ill-typed copy") /\
  (forall instr cgn a id t,
      ssa.cc_Value (ssa.Common instr) = ssa.Builtin id t "panic" ->
      ssa.Args (ssa.Common instr) = [] ->
      genBuiltinCall instr cgn a = Panic "index out of range").
Proof.
  assert (Hpanic : forall instr cgn a id t arg rest n,
      ssa.cc_Value (ssa.Common instr) = ssa.Builtin id t "panic" ->
      ssa.Args (ssa.Common instr) = arg :: rest ->
      valueNodeLookup a arg = Some n ->
      genBuiltinCall instr cgn a = copy (panicNode a) n 1 a).
  { intros instr cgn a id t arg rest n Hv Hargs Hn.
    unfold genBuiltinCall. rewrite Hv. cbn [bool_decide].
    rewrite !bool_decide_eq_false_2 by discriminate.
    rewrite bool_decide_eq_true_2 by reflexivity.
    run_refl. rewrite Hargs. unfold index. cbn [lookup list_lookup].
    rewrite bind_ret. erewrite bind_run by (apply valueNode_hit, Hn).
    reflexivity. }
  assert (Hrecover : forall c cgn a id t z,
      ssa.cc_Value (ssa.call_Call c) = ssa.Builtin id t "recover" ->
      valueNodeLookup a (ssa.VCall c) = Some z ->
      genBuiltinCall (ssa.ICall c) cgn a = copy z (panicNode a) 1 a).
  { intros c cgn a id t z Hv Hz.
    unfold genBuiltinCall. cbn [ssa.Common]. rewrite Hv.
    rewrite !bool_decide_eq_false_2 by discriminate.
    rewrite bool_decide_eq_true_2 by reflexivity.
    cbn [ssa.InstrValue_].
    erewrite bind_run by (apply valueNode_hit, Hz).
    run_refl. reflexivity. }
  repeat match goal with |- _ /\ _ => split end.
  - intros instr cgn a id t arg rest n Hv Hargs Hn Hn0 Hp0 Hnp.
    erewrite Hpanic by eassumption. apply (copy_run _ _ 1); auto.
  - intros c cgn a id t z Hv Hz Hz0 Hp0 Hzp.
    erewrite Hrecover by eassumption. apply (copy_run _ _ 1); auto.
  - intros instr c cgn cgn' a id t id' t' arg rest n z
      Hv Hargs Hv' Hn Hz Hn0 Hz0 Hp0 Hnp Hzp.
    erewrite bind_run
      by (erewrite Hpanic by eassumption; apply (copy_run _ _ 1); auto).
    erewrite Hrecover; [|exact Hv'|exact Hz].
    cbn [panicNode addCs set_constraints].
    rewrite (copy_run _ _ 1) by (cbn; auto).
    rewrite addCs_app. reflexivity.
  - intros instr cgn a id t arg rest Hv Hargs Hn Hp0.
    erewrite Hpanic by eassumption. unfold copy.
    rewrite (bool_decide_eq_false_2 (0 = panicNode a)) by congruence.
    reflexivity.
  - intros instr cgn a id t Hv Hargs.
    unfold genBuiltinCall. rewrite Hv.
    rewrite !bool_decide_eq_false_2 by discriminate.
    rewrite bool_decide_eq_true_2 by reflexivity.
    run_refl. rewrite Hargs. reflexivity.
Qed.

Lemma taggedValue_same_nodes id a b x :
  nodes b = nodes a -> taggedValue id a = OK x a -> taggedValue id b = OK x b.
Proof.
  intros Hn H. unfold taggedValue, bind, nodeAt in *. rewrite Hn.
  destruct (nodes a !! N.to_nat id) as [n|]; [|discriminate H].
  destruct (n_obj n) as [o|]; [|discriminate H].
  destruct (otTagged (o_flags o)); inversion H; reflexivity.
Qed.

(** X26.  Boxing.  For a conversion [MakeInterface] of a value whose
    type has no methods and whose value node [x] is recorded, seen for
    the first time in a contour: [objectNode] appends one tagged object
    whose dynamic type is the type of the operand, owned by the contour,
    with the instruction as its data; it copies the operand into the
    payload, node by node, unless [x] is 0; it records the object for
    the instruction; and [taggedValue] reads the type and the payload
    back from the new state. *)
Theorem make_interface_boxes cgn id t X a lv lo x :
  localval a = Some lv -> localobj a = Some lo -> lo !! id = None ->
  lv !! ssa.vid X = Some x ->
  methodsOf (ssa.Type_ X) = [] ->
  x < N.of_nat (length (nodes a)) ->
  let obj := N.of_nat (length (nodes a)) in
  let tConc := ssa.Type_ X in
  let a' :=
    set_localobj (Some (<[id := obj]> lo))
      (addCs (if bool_decide (x = 0) then []
              else copyList (N.to_nat (sizeof tConc)) (obj + 1) x)
         (addNs (objectBlock (setTagged noFlags) (Some cgn) (DataValue id)
                   (taggedBlock tConc)) a)) in
  objectNode (Some cgn) (ssa.MakeInterface id t X) a = OK obj a' /\
  taggedValue obj a' = OK (Some tConc, obj + 1, false) a'.
Proof.
  intros Hlv Hlo Hid Hx Hm Hlt obj tConc a'.
  destruct (tagged_round_trip_aux tConc (Some cgn) (DataValue id) a)
    as (Hrun & Htv).
  split.
  - assert (Hcopy :
      when (negb (bool_decide (x = 0)))
        (copy (obj + 1) x (sizeof tConc))
        (addNs (objectBlock (setTagged noFlags) (Some cgn) (DataValue id)
                  (taggedBlock tConc)) a)
      = OK tt
          (addCs (if bool_decide (x = 0) then []
                  else copyList (N.to_nat (sizeof tConc)) (obj + 1) x)
             (addNs (objectBlock (setTagged noFlags) (Some cgn) (DataValue id)
                       (taggedBlock tConc)) a))).
    { destruct (bool_decide (x = 0)) eqn:E; cbn [negb when].
      - rewrite addCs_nil. reflexivity.
      - apply bool_decide_eq_false_1 in E.
        apply copy_run; [subst obj; lia|exact E|subst obj; lia]. }
    simpl objectNode. run_refl. rewrite Hlo. simpl. rewrite Hid.
    erewrite bind_run.
    2:{ rewrite Hm. cbn [forEach]. rewrite bind_ret.
        erewrite bind_run by exact Hrun.
        erewrite bind_run
          by (apply valueNode_hit; eapply valueNodeLookup_local;
              [exact Hlv|exact Hx]).
        erewrite bind_run by exact Hcopy. reflexivity. }
    unfold bind, writeLocalobj.
    cbn [localobj addCs addNs set_constraints set_nodes].
    rewrite Hlo. reflexivity.
  - subst a'. eapply taggedValue_same_nodes; [|exact Htv]. reflexivity.
Qed.

(** X27.  What [objectNode] does not know.  In a contour, a value that
    is neither an allocation ([Alloc], [MakeSlice], [MakeChan],
    [MakeMap], [MakeInterface]) nor an address derived from one
    ([FieldAddr], [IndexAddr], [Slice]) has the object 0: nothing is
    allocated, no constraint is emitted, and the 0 is recorded for the
    value; this includes globals and functions, whose objects are known
    only without a contour.  Without a contour the same holds for every
    value that is not a global, a function or a constant, and for a
    constant that is nil or not a slice.  A first request in a contour
    while no function is being generated ([localobj] is nil) is a
    panic. *)
Theorem objectNode_unknown :
  let derived (v : ssa.Value) :=
    match v with
    | ssa.Alloc _ _ | ssa.MakeSlice _ _ | ssa.MakeChan _ _
    | ssa.MakeMap _ _ | ssa.MakeInterface _ _ _ | ssa.FieldAddr _ _ _ _
    | ssa.IndexAddr _ _ _ | ssa.Slice _ _ _ => true
    | _ => false
    end in
  let static (v : ssa.Value) :=
    match v with
    | ssa.Global _ _ | ssa.VFunction _ => true
    | ssa.Const _ t isNil =>
        match types.Underlying t with
        | types.Slice _ => negb isNil
        | _ => false
        end
    | _ => false
    end in
  (forall cgn v a lo,
      derived v = false ->
      localobj a = Some lo -> lo !! ssa.vid v = None ->
      objectNode (Some cgn) v a
      = OK 0 (set_localobj (Some (<[ssa.vid v := 0]> lo)) a)) /\
  (forall v a,
      static v = false ->
      globalobj a !! ssa.vid v = None ->
      objectNode None v a
      = OK 0 (set_globalobj (fun m => <[ssa.vid v := 0]> m) a)) /\
  (forall cgn v a,
      derived v = false -> localobj a = None ->
      objectNode (Some cgn) v a = Panic "assignment to entry in nil map").
Proof.
  intros derived static. split; [|split].
  - intros cgn v a lo Hd Hlo Hv.
    destruct v; try discriminate Hd;
      simpl objectNode; unfold bind, get, ret, writeLocalobj;
      rewrite Hlo; simpl; simpl in Hv; rewrite Hv; simpl;
      rewrite Hlo; reflexivity.
  - intros v a Hs Hv.
    destruct v; try discriminate Hs;
      simpl objectNode; unfold objectNodeGlobal, bind, get, ret, modify;
      simpl in Hv |- *; rewrite Hv; try reflexivity.
    simpl in Hs.
    destruct (types.Underlying typ); try reflexivity.
    destruct isNil; [reflexivity|discriminate Hs].
  - intros cgn v a Hd Hlo.
    destruct v; try discriminate Hd;
      simpl objectNode; unfold bind, get, ret, writeLocalobj;
      rewrite Hlo; simpl; rewrite Hlo; reflexivity.
Qed.

End Generator.

(** ** The properties on concrete inputs *)

(** C2 as first stated fails: a synthetic wrapper with two blocks is
    bound to the shared contour although the stated policy clones it. *)
Lemma static_call_contour_counterexample :
  policy_spec noIntrinsic wrapper2 = true /\
  shouldUseContext noIntrinsic wrapper2 = false /\
  staticContour flattenSpec offsetOfSpec noIntrinsic noMethods wrapper2
    0%nat state0
  = objectNode flattenSpec offsetOfSpec noMethods None
      (ssa.VFunction wrapper2) state0.
Proof. repeat split. Qed.

(** C1 fails on the code.  Two calls of [reflect.Zero] (two contours,
    hence two constraints with results [r1] and [r2]) are both solved
    against the canonical rtype label [t] of the type [int].  Each solve
    creates a tagged object of its own, the nodes 7 and 9, both tagged
    [int]: the memo table is written and never read. *)
Lemma reflect_Zero_is_not_memoized :
  match
    (let! r1 := addOneNode tString None in
     let! r2 := addOneNode tString None in
     let! t := makeRtype flattenSpec tInt in
     do! reflectZero_solve flattenSpec 0%nat 0 r1 [t] in
     do! reflectZero_solve flattenSpec 1%nat 0 r2 [t] in
     ret (r1, r2)) state0
  with
  | OK (r1, r2) a =>
      elements (ptsOf a r1) = [7] /\ elements (ptsOf a r2) = [9] /\
      tagOf a 7 = Some tInt /\ tagOf a 9 = Some tInt /\
      reflectZeros a = [(tInt, 9); (tInt, 7)]
  | Panic _ => False
  end.
Proof. vm_compute. repeat split. Qed.

Lemma unsafe_pointer_conversion_witness :
  genConv flattenSpec convExample (Some 0%nat) stateConv
  = OK tt
      (addCs [addrConstraint 2 3]
         (addNs (objectBlock noFlags (Some 0%nat) (DataValue 40)
                   (newNodes flattenSpec tInt))
            (addWs [(7, WarnUnsafeConversion 30 tIntPtr)] stateConv))).
Proof.
  apply (unsafe_pointer_conversion flattenSpec
           convExample (Some 0%nat) stateConv 2 tInt
           (ssa.mkPackage "main" None)).
  - reflexivity.
  - discriminate.
  - reflexivity.
  - reflexivity.
  - reflexivity.
  - discriminate.
  - discriminate.
Defined.


(** C3 as first stated fails for [println]: with a hook supplied, the
    generation of a call to [println] changes nothing and never invokes
    the hook. *)
Lemma print_hook_counterexample :
  Print (config state0) = true /\
  genBuiltinCall flattenSpec offsetOfSpec noMethods printlnExample
    (Some 0%nat) state0 = OK tt state0 /\
  hookCalls state0 51 = 0%nat.
Proof. repeat split. Qed.






(** C5 as first stated fails where a block reaches the id 2^32: the
    copy of two nodes to the last node id emits [copy{n0, n8}]. *)
Lemma zero_endpoint_counterexample :
  copy 4294967295 7 2 state0
  = OK tt (addCs [copyConstraint 4294967295 7; copyConstraint 0 8] state0) /\
  ~ Forall endpoints_nonzero
      [copyConstraint 4294967295 7; copyConstraint 0 8].
Proof.
  split; [vm_compute; reflexivity|].
  intros H. apply Forall_cons in H as [_ H].
  apply Forall_cons in H as [[Hz _] _]. apply Hz. reflexivity.
Qed.

Lemma static_call_contour_witness :
  (exists a',
     staticContour flattenSpec offsetOfSpec noIntrinsic noMethods
       leafExample 0%nat state0 = OK 2 a' /\
     cgnodes a' = [mkCgnode leafExample 2 (Some 0%nat) []]) /\
  (exists a',
     staticContour flattenSpec offsetOfSpec noIntrinsic noMethods
       wrapper2 0%nat state0 = OK 2 a' /\
     cgnodes a' = [mkCgnode wrapper2 2 None []] /\
     forall site',
       staticContour flattenSpec offsetOfSpec noIntrinsic noMethods
         wrapper2 site' a' = OK 2 a').
Proof.
  pose proof (static_call_contour flattenSpec offsetOfSpec noIntrinsic
                noMethods) as (_ & Hfresh & Hshared).
  split.
  - destruct (Hfresh leafExample 0%nat state0 eq_refl)
      as (a' & H1 & H2 & _).
    exists a'. split; [exact H1|exact H2].
  - pose proof (Hshared wrapper2 0%nat state0 eq_refl) as H.
    assert (E : globalobj state0 !! ssa.fn_id wrapper2 = None)
      by reflexivity.
    rewrite E in H. destruct H as (a' & H1 & H2 & _ & H4).
    exists a'. split; [exact H1|]. split; [exact H2|exact H4].
Defined.

Lemma state0_wf : wf (nodes state0).
Proof.
  intros i n o Hn Ho. destruct i as [|[|i]]; simpl in Hn;
    try discriminate Hn; injection Hn as <-; discriminate Ho.
Qed.

Lemma makeRtype_is_memoized_witness :
  (exists a1,
     makeRtype flattenSpec tInt state0 = OK 3 a1 /\
     makeRtype flattenSpec tInt a1 = OK 3 a1 /\
     constraints a1 = [addrConstraint 4 2]) /\
  match
    (let! t := makeTagged flattenSpec tInt None DataNil in
     let! r := addOneNode tEface None in
     ret (t, r)) state0
  with
  | OK (t, r) a =>
      exists a' id,
        reflectTypeOf_solve flattenSpec 0%nat 0 r [t] a = OK tt a' /\
        tm_At (rtypes a') tInt = Some id /\ id ∈ ptsOf a' r
  | Panic _ => False
  end.
Proof.
  pose proof (makeRtype_is_memoized flattenSpec offsetOfSpec noMethods)
    as (Hfirst & Hhit & _ & Hsolve).
  split.
  - pose proof (Hfirst tInt tRtypePtr (mkFieldInfo tRtypePtr "") []
                  state0 eq_refl eq_refl eq_refl) as H1.
    eexists. split; [apply H1; discriminate|].
    split; [apply Hhit; reflexivity|reflexivity].
  - destruct ((let! t := makeTagged flattenSpec tInt None DataNil in
               let! r := addOneNode tEface None in
               ret (t, r)) state0) as [[t r] a|msg] eqn:E;
      [|vm_compute in E; discriminate E].
    vm_compute in E. injection E as <- <- <-.
    match goal with
    | |- exists a' id, ?m = _ /\ _ =>
        destruct m as [[] a'|msg] eqn:Hs; [|vm_compute in Hs; discriminate Hs]
    end.
    match type of Hs with
    | reflectTypeOf_solve _ _ _ ?r [?t] ?a = _ =>
        destruct (proj1 (Hsolve 0%nat 0 r [t] a a'
                           ltac:(intros i Hi; apply list_elem_of_singleton in Hi;
                                 subst i; simpl; lia) Hs) t
                    ltac:(apply list_elem_of_singleton; reflexivity))
          as (T & id & HT & Hid & Hin)
    end.
    vm_compute in HT. injection HT as <-.
    exists a', id. split; [reflexivity|]. split; [exact Hid|exact Hin].
Defined.

Lemma object_header_invariant_witness :
  exists a',
    makeRtype flattenSpec tInt state0 = OK 3 a' /\ wf (nodes a').
Proof.
  pose proof (object_header_invariant flattenSpec offsetOfSpec noIntrinsic
                noMethods)
    as (_ & _ & _ & _ & _ & _ & _ & _ & HR & _).
  destruct (makeRtype flattenSpec tInt state0) as [id a'|msg] eqn:E;
    [|vm_compute in E; discriminate E].
  exists a'. split.
  - vm_compute in E. injection E as <- _. reflexivity.
  - exact (HR tInt state0 id a' state0_wf E).
Defined.

Lemma command_line_args_witness :
  exists a',
    generate_osArgs flattenSpec offsetOfSpec noMethods stateOs = OK tt a' /\
    constraints a' = [addrConstraint 3 2] /\
    globalobj a' !! 70 = Some 3.
Proof.
  pose proof (proj2 (proj2 (command_line_args flattenSpec offsetOfSpec
                              noMethods))
                stateOs 70 (types.Pointer (types.Slice tString))
                (types.Slice tString) eq_refl eq_refl eq_refl) as H.
  eexists. split; [apply H; discriminate|]. split; reflexivity.
Defined.

Lemma print_hook_fires_once_witness :
  exists a',
    forEach printRun (runStep flattenSpec offsetOfSpec noMethods) statePrint
    = OK tt a' /\
    constraints a' = [copyConstraint 4 2; copyConstraint 4 3] /\
    printed a' = [(61, mkPtr None 4)] /\
    hookCalls a' 61 = 1%nat.
Proof.
  destruct (forEach printRun (runStep flattenSpec offsetOfSpec noMethods)
              statePrint) as [[] a'|msg] eqn:Hrun;
    [|vm_compute in Hrun; discriminate Hrun].
  exists a'. split; [reflexivity|].
  pose proof (proj2 (proj2 (proj2
    (print_hook_fires_once flattenSpec offsetOfSpec noMethods)))
    printRun statePrint a') as H.
  assert (Hp : validStep flattenSpec (GPrint printExample (Some 0%nat))
               /\ validStep flattenSpec (GPrint printExample (Some 1%nat))).
  { split; (split; [exists 62, tInvalid; reflexivity|]);
      (exists (ssa.OtherValue 63 tIntPtr), []);
      (split; [reflexivity|discriminate]). }
  assert (Hv : Forall (validStep flattenSpec) printRun).
  { unfold printRun.
    constructor; [apply leavesProbes_set_localval|].
    constructor; [exact (proj1 Hp)|].
    constructor; [apply leavesProbes_set_localval|].
    constructor; [exact (proj2 Hp)|]. constructor. }
  assert (Hc : hookCalls a' 61 = 1%nat).
  { apply (H Hv); try reflexivity; try exact Hrun. discriminate. }
  vm_compute in Hrun. injection Hrun as <-.
  split; [reflexivity|]. split; [reflexivity|]. exact Hc.
Defined.


(** ** The further properties on the examples *)

(** [stateReflect] is what the generator makes of [state0]. *)
Lemma stateReflect_made :
  (do! makeTagged flattenSpec tIntPtr None DataNil in
   do! makeRtype flattenSpec tInt in
   do! addOneNode tEface None in
   do! addOneNode tEface None in
   ret tt) state0
  = OK tt stateReflect.
Proof. vm_compute. reflexivity. Qed.

Lemma stateReflect_rtypesOK : rtypesOK stateReflect.
Proof.
  intros T id H. cbn in H.
  destruct (decide (tInt = T)) as [<-|]; [|discriminate H].
  injection H as <-. split; reflexivity.
Qed.

Lemma objectNode_idempotent_witness :
  exists a',
    objectNode flattenSpec offsetOfSpec noMethods (Some 0%nat) ptrExample
      stateLoad = OK 4 a' /\
    objectNode flattenSpec offsetOfSpec noMethods (Some 0%nat) ptrExample a'
    = OK 4 a'.
Proof.
  eexists. split; [vm_compute; reflexivity|].
  apply (objectNode_idempotent flattenSpec offsetOfSpec noMethods
           (Some 0%nat) ptrExample stateLoad).
  vm_compute. reflexivity.
Defined.

Lemma valueNode_idempotent_witness :
  exists a',
    valueNode flattenSpec (ssa.VFunction leafExample) state0 = OK 2 a' /\
    valueNode flattenSpec (ssa.VFunction leafExample) a' = OK 2 a'.
Proof.
  eexists. split; [vm_compute; reflexivity|].
  apply (valueNode_idempotent flattenSpec (ssa.VFunction leafExample) state0).
  vm_compute. reflexivity.
Defined.

Lemma string_to_slice_conversion_witness :
  genConv flattenSpec strConvExample (Some 0%nat) stateStrConv
  = OK tt
      (addCs [addrConstraint 2 3]
         (addNs (objectBlock noFlags (Some 0%nat) (DataValue 80)
                   (newNodes flattenSpec (types.Array tInt 1)))
            stateStrConv)).
Proof.
  apply (string_to_slice_conversion flattenSpec strConvExample (Some 0%nat)
           stateStrConv 2 types.String tInt).
  - reflexivity.
  - discriminate.
  - reflexivity.
  - reflexivity.
  - reflexivity.
  - discriminate.
  - discriminate.
Defined.

Lemma rVInterface_solve_effect_witness :
  exists a',
    rVInterface_solve 0 7 [2] stateReflect = OK tt a' /\
    ptsOf a' 7 = {[2]} /\
    work a' = {[7]}.
Proof.
  destruct (rVInterface_solve_effect flattenSpec offsetOfSpec noMethods
              0 7 [2] stateReflect)
    as (a' & H1 & H2 & _ & _ & _ & _ & H7).
  - simpl. lia.
  - intros l Hl. apply list_elem_of_singleton in Hl. subst l.
    eexists. reflexivity.
  - exists a'. split; [exact H1|]. split.
    + rewrite H2. change (ptsOf stateReflect 7) with (∅ : gset N).
      set_solver.
    + rewrite H7.
      * change (work stateReflect) with (∅ : gset N). set_solver.
      * change (ptsOf stateReflect 7) with (∅ : gset N). set_solver.
Defined.

Lemma TypeOf_then_Elem_witness :
  exists a1 idT a2 idE,
    reflectTypeOf_solve flattenSpec 0%nat 0 7 [2] stateReflect = OK tt a1 /\
    tm_At (rtypes a1) tIntPtr = Some idT /\ idT ∈ ptsOf a1 7 /\
    rtypeElem_solve flattenSpec 0%nat 0 8 [idT] a1 = OK tt a2 /\
    tm_At (rtypes a2) tInt = Some idE /\ idE ∈ ptsOf a2 8 /\
    rtypeTaggedValue idE a2 = OK tInt a2.
Proof.
  apply (TypeOf_then_Elem flattenSpec offsetOfSpec noMethods stateReflect
           2 tIntPtr 3 false tInt tRtypePtr (mkFieldInfo tRtypePtr "") []).
  - exact stateReflect_rtypesOK.
  - reflexivity.
  - reflexivity.
  - discriminate.
  - reflexivity.
  - reflexivity.
  - simpl. lia.
  - simpl. lia.
Defined.

Lemma reflectNew_solve_effect_witness :
  exists a',
    reflectNew_solve flattenSpec 0%nat 0 7 [5] stateReflect = OK tt a' /\
    taggedValue 10 a' = OK (Some tIntPtr, 11, false) a' /\
    ptsOf a' 11 = {[9]} /\
    ptsOf a' 7 = {[10]} ∪ ptsOf stateReflect 7 /\
    constraints a' = [addrConstraint 6 4].
Proof.
  destruct (reflectNew_solve_effect flattenSpec offsetOfSpec noMethods
              0%nat 0 7 5 tInt stateReflect)
    as (a' & H1 & _ & H3 & H4 & H5 & H6).
  - reflexivity.
  - simpl. lia.
  - discriminate.
  - exists a'. split; [exact H1|]. split; [exact H3|].
    split; [exact H4|]. split; [exact H5|exact H6].
Defined.

Lemma valueNode_fresh_global_witness :
  valueNode flattenSpec (ssa.Global 70 (types.Pointer (types.Slice tString)))
    stateOs
  = OK 2
      (set_globalval (fun m => <[70 := 2]> m)
         (addCs [addrConstraint 2 3]
            (set_globalobj (fun m => <[70 := 3]> m)
               (addNs (mkNode (types.Pointer (types.Slice tString)) None
                         None ∅
                       :: objectBlock noFlags None (DataValue 70)
                            (newNodes flattenSpec (types.Slice tString)))
                  stateOs)))).
Proof.
  apply (valueNode_fresh_global flattenSpec 70
           (types.Pointer (types.Slice tString)) (types.Slice tString)
           stateOs).
  - reflexivity.
  - reflexivity.
  - reflexivity.
  - discriminate.
  - reflexivity.
Defined.

Lemma callExample_args :
  Forall2 (fun arg n =>
             ({[90 := 2; 91 := 3; 92 := 4]} : gmap N N) !! ssa.vid arg
             = Some n)
    [ssa.OtherValue 91 tIntPtr] [3].
Proof. repeat constructor. Qed.

Lemma genDynamicCall_effect_witness :
  exists a',
    genDynamicCall flattenSpec offsetOfSpec noMethods 0%nat 0%nat
      dynCallExample 4 stateCall = OK tt a' /\
    nodes a' = nodes stateCall /\
    constraints a' = [storeConstraint 1 2 3; loadConstraint 2 4 2] /\
    callsites a' = [mkCallsite None 2].
Proof.
  destruct (genDynamicCall_effect flattenSpec offsetOfSpec noMethods
              0%nat 0%nat dynCallExample 4 stateCall
              {[90 := 2; 91 := 3; 92 := 4]} {[90 := 0]} 2 [3])
    as [H _].
  - reflexivity.
  - reflexivity.
  - reflexivity.
  - reflexivity.
  - discriminate.
  - exact callExample_args.
  - destruct H as (a' & H1 & H2 & H3 & H4); [simpl; lia|].
    exists a'. split; [exact H1|]. split; [exact H2|].
    split; [exact H3|exact H4].
Defined.

Lemma genStaticCall_effect_witness :
  exists a',
    genStaticCall flattenSpec offsetOfSpec noIntrinsic noMethods 0%nat 0%nat
      staticCallExample 4 stateCall = OK tt a' /\
    cgnodes a' = [mkCgnode idExample 5 (Some 0%nat) []] /\
    constraints a'
    = [addrConstraint 8 5; copyConstraint 6 3; copyConstraint 4 7] /\
    callsites a' = [mkCallsite None 8].
Proof.
  destruct (genStaticCall_effect flattenSpec offsetOfSpec noIntrinsic
              noMethods 0%nat 0%nat staticCallExample 4 idExample stateCall
              {[90 := 2; 91 := 3; 92 := 4]} [3])
    as (a' & H1 & _ & H3 & H4 & H5).
  - reflexivity.
  - reflexivity.
  - reflexivity.
  - reflexivity.
  - discriminate.
  - exact callExample_args.
  - constructor; [split; [discriminate|simpl; lia]|constructor].
  - simpl. lia.
  - simpl. lia.
  - exists a'. split; [exact H1|]. split; [exact H3|].
    split; [exact H4|exact H5].
Defined.

Lemma make_interface_boxes_witness :
  exists a',
    objectNode flattenSpec offsetOfSpec noMethods (Some 0%nat) boxExample
      stateCall = OK 5 a' /\
    taggedValue 5 a' = OK (Some tIntPtr, 6, false) a' /\
    constraints a' = [copyConstraint 6 3].
Proof.
  destruct (make_interface_boxes flattenSpec offsetOfSpec noMethods
              0%nat 95 tEface (ssa.OtherValue 91 tIntPtr) stateCall
              {[90 := 2; 91 := 3; 92 := 4]} {[90 := 0]} 3)
    as [H1 H2].
  - reflexivity.
  - reflexivity.
  - reflexivity.
  - reflexivity.
  - reflexivity.
  - simpl. lia.
  - eexists. split; [exact H1|]. split; [exact H2|reflexivity].
Defined.
